(** * refry: cache keys, resource definitions and the state resolver

    A shallow embedding of [src/helpers/index.js].  The helpers are
    JavaScript functions over dynamically typed values, so the embedding
    starts with a small model of the JavaScript values the helpers touch
    (plain data, opaque functions and normalizr schema objects), of the
    language built-ins they call ([typeof], [ToString], [JSON.stringify],
    [encodeURIComponent], ...) and of the two small npm dependencies
    [querystring] and [string-hash].  [normalize-url] stays a parameter.

    Modelling conventions:
    - a string is a sequence of code units below 256;
    - a number is an integer;
    - an object is the list of its own enumerable properties, with
      distinct keys, in the order they were created.  Where the language
      lists the properties of an object ([Object.keys], object spread,
      [JSON.stringify]) the keys that are array indices come first, in
      ascending numeric order, and the other keys follow in creation
      order: that listing is [own_order];
    - reading [v[k]] finds the own properties of [v] and, on a plain
      object, the members of [Object.prototype].  The members that
      arrays, strings, numbers, booleans and functions inherit are not
      modelled, nor are the own members of a function;
    - a function is an opaque value: the model never calls one;
    - values are trees: no object is reachable along two paths, except
      where the normalizer takes an object from [extends] (see
      [shares]);
    - an exception is a [Throw] of the error monad [result]. *)

From Stdlib Require Import ZArith NArith List String Ascii Bool Lia.
From Stdlib Require Import Permutation DecimalString Sorted.
Import ListNotations.

Set Warnings "-register-all".

Local Open Scope list_scope.
Local Open Scope string_scope.
Local Open Scope Z_scope.

(* ================================================================== *)
(** ** JavaScript values *)

Module JS.

(** Modelled from the spec: normalizr's schema classes are not part of the
    sources.  A schema either answers [getKey()] (an entity schema) or
    answers [getItemSchema()] (the collection schema built by [arrayOf]). *)
Inductive schema : Type :=
| Schema (key : string)
| arrayOf (item : schema).

(** [ObjectPrototype] is [Object.prototype], which a read of
    [__proto__] on a plain object returns. *)
Inductive value : Type :=
| Undefined
| Null
| Bool (b : bool)
| Num (n : Z)
| Str (s : string)
| Arr (items : list value)
| Obj (props : list (string * value))
| Fn (source : string)
| SchemaObj (s : schema)
| ObjectPrototype.

Inductive error : Type :=
| TypeError
| InvariantViolation (message : string).

Inductive result (A : Type) : Type :=
| Ok (a : A)
| Throw (e : error).

Arguments Ok {A} a.
Arguments Throw {A} e.

Definition bind {A B : Type} (m : result A) (k : A -> result B) : result B :=
  match m with
  | Ok a => k a
  | Throw e => Throw e
  end.

Notation "x <- m ;; k" := (bind m (fun x => k))
  (at level 61, m at next level, right associativity).
Notation "' p <- m ;; k" := (bind m (fun x => let p := x in k))
  (at level 61, p pattern, m at next level, right associativity).

(** [typeof v] *)
Definition typeof (v : value) : string :=
  match v with
  | Undefined => "undefined"
  | Null | Arr _ | Obj _ | SchemaObj _ | ObjectPrototype => "object"
  | Bool _ => "boolean"
  | Num _ => "number"
  | Str _ => "string"
  | Fn _ => "function"
  end.

(** [ToBoolean]: what [!v], [v && ...], [v ? ... : ...] test. *)
Definition truthy (v : value) : bool :=
  match v with
  | Undefined | Null => false
  | Bool b => b
  | Num n => negb (n =? 0)
  | Str s => negb (s =? "")%string
  | Arr _ | Obj _ | Fn _ | SchemaObj _ | ObjectPrototype => true
  end.

Definition nullish (v : value) : bool :=
  match v with
  | Undefined | Null => true
  | _ => false
  end.

Definition string_of_Z (n : Z) : string :=
  NilZero.string_of_int (Z.to_int n).

Fixpoint join (sep : string) (parts : list string) : string :=
  match parts with
  | [] => ""
  | [p] => p
  | p :: rest => p ++ sep ++ join sep rest
  end.

(** [ToString], as applied by [RegExp.prototype.test], by
    [encodeURIComponent] and to computed property keys. *)
Fixpoint to_string (v : value) : string :=
  match v with
  | Undefined => "undefined"
  | Null => "null"
  | Bool true => "true"
  | Bool false => "false"
  | Num n => string_of_Z n
  | Str s => s
  | Arr items =>
      join "," (map (fun x => if nullish x then "" else to_string x) items)
  | Obj _ | SchemaObj _ | ObjectPrototype => "[object Object]"
  | Fn source => source
  end.

(** *** Own properties *)

(** The elements of an array or a string under their index keys *)
Fixpoint indexed {A : Type} (i : Z) (items : list A) : list (string * A) :=
  match items with
  | [] => []
  | x :: rest => (string_of_Z i, x) :: indexed (i + 1) rest
  end.

Fixpoint chars (s : string) : list value :=
  match s with
  | EmptyString => []
  | String c rest => Str (String c "") :: chars rest
  end.

(** The own enumerable string-keyed properties, in creation order. *)
Definition own_props (v : value) : list (string * value) :=
  match v with
  | Obj props => props
  | Arr items => indexed 0 items
  | Str s => indexed 0 (chars s)
  | _ => []
  end.

(** A key is an array index when it is the decimal text, without
    leading zeros, of an integer from [0] to [2^32 - 2]. *)
Definition index_of (k : string) : option N :=
  match NilZero.uint_of_string k with
  | Some u =>
      let n := N.of_uint u in
      if ((NilZero.string_of_uint (N.to_uint n) =? k)%string
          && (n <? 4294967295)%N)%bool
      then Some n else None
  | None => None
  end.

Definition is_index (k : string) : bool :=
  match index_of k with
  | Some _ => true
  | None => false
  end.

Definition index_value (k : string) : N :=
  match index_of k with
  | Some n => n
  | None => 0%N
  end.

Fixpoint insert_index {A : Type} (kv : string * A) (l : list (string * A))
  : list (string * A) :=
  match l with
  | [] => [kv]
  | kv' :: rest =>
      if (index_value (fst kv) <=? index_value (fst kv'))%N then kv :: l
      else kv' :: insert_index kv rest
  end.

(** The order in which the language lists own properties
    ([OrdinaryOwnPropertyKeys]): array indices in ascending numeric
    order, then the other keys in creation order. *)
Definition own_order {A : Type} (l : list (string * A)) : list (string * A) :=
  (fold_right insert_index [] (filter (fun kv => is_index (fst kv)) l) ++
   filter (fun kv => negb (is_index (fst kv))) l)%list.

(** The own enumerable properties as [Object.keys] and its like list
    them; the elements of an array or of a string are in index order
    already. *)
Definition enumerate (v : value) : list (string * value) :=
  match v with
  | Obj props => own_order props
  | _ => own_props v
  end.

Fixpoint lookup (k : string) (props : list (string * value)) : value :=
  match props with
  | [] => Undefined
  | (k', v) :: rest => if (k' =? k)%string then v else lookup k rest
  end.

Fixpoint has_key (k : string) (props : list (string * value)) : bool :=
  match props with
  | [] => false
  | (k', _) :: rest => if (k' =? k)%string then true else has_key k rest
  end.

(** A property is written or created: an existing key keeps its place,
    a new key is the last one created. *)
Fixpoint set (k : string) (v : value) (props : list (string * value))
  : list (string * value) :=
  match props with
  | [] => [(k, v)]
  | (k', v') :: rest =>
      if (k' =? k)%string then (k, v) :: rest else (k', v') :: set k v rest
  end.

(** [obj[k] = v] on a plain object.  [Object.prototype] has a setter for
    [__proto__]: unless the object has a property of its own under that
    name, the assignment creates none.  (The setter replaces the
    prototype when [v] is an object; the helpers assign to [__proto__]
    in [_sortObject] only, and nothing reads an inherited member of an
    object [_sortObject] built, so the prototype is left out.) *)
Definition put (k : string) (v : value) (props : list (string * value))
  : list (string * value) :=
  if ((k =? "__proto__")%string && negb (has_key k props))%bool then props
  else set k v props.

(** The built-in functions print as [function name() { [native code] }]. *)
Definition native (name : string) : value :=
  Fn ("function " ++ name ++ "() { [native code] }").

(** The members of [Object.prototype] other than [__proto__] *)
Definition object_methods : list (string * value) :=
  [("constructor", native "Object");
   ("__defineGetter__", native "__defineGetter__");
   ("__defineSetter__", native "__defineSetter__");
   ("hasOwnProperty", native "hasOwnProperty");
   ("__lookupGetter__", native "__lookupGetter__");
   ("__lookupSetter__", native "__lookupSetter__");
   ("isPrototypeOf", native "isPrototypeOf");
   ("propertyIsEnumerable", native "propertyIsEnumerable");
   ("toString", native "toString");
   ("valueOf", native "valueOf");
   ("toLocaleString", native "toLocaleString")].

(** What a plain object inherits under [k] *)
Definition inherited (k : string) : value :=
  if (k =? "__proto__")%string then ObjectPrototype
  else lookup k object_methods.

(** [v[k]] on a value that is neither [undefined] nor [null]. *)
Definition get (v : value) (k : string) : value :=
  match v with
  | Obj props => if has_key k props then lookup k props else inherited k
  | ObjectPrototype =>
      if (k =? "__proto__")%string then Null else lookup k object_methods
  | Arr items =>
      if (k =? "length")%string then Num (Z.of_nat (List.length items))
      else lookup k (indexed 0 items)
  | Str s =>
      if (k =? "length")%string then Num (Z.of_nat (String.length s))
      else lookup k (indexed 0 (chars s))
  | SchemaObj (Schema _) =>
      if (k =? "getKey")%string then Fn "getKey" else Undefined
  | SchemaObj (arrayOf _) =>
      if (k =? "getItemSchema")%string then Fn "getItemSchema" else Undefined
  | _ => Undefined
  end.

(** [v[k]], which throws on [undefined] and [null]. *)
Definition member (v : value) (k : string) : result value :=
  if nullish v then Throw TypeError else Ok (get v k).

(** [Object.keys(v)] *)
Definition keys (v : value) : result (list string) :=
  if nullish v then Throw TypeError else Ok (map fst (enumerate v)).

(** [{ ...target, ...source }]: the own properties of [source] are copied
    in the order the language lists them; spreading [undefined], [null]
    or a primitive without own properties copies nothing.  A copy
    defines the property, so [__proto__] is copied like any other key. *)
Definition spread (target : list (string * value)) (source : value)
  : list (string * value) :=
  fold_left (fun acc kv => set (fst kv) (snd kv) acc) (enumerate source) target.

(** [v === s] for a string literal [s] *)
Definition strict_eq_string (v : value) (s : string) : bool :=
  match v with
  | Str s' => (s' =? s)%string
  | _ => false
  end.

(** *** Strings *)

Definition code (c : ascii) : N := N_of_ascii c.

(** The capital of a code unit: the letters of ASCII and of Latin-1
    move down by 32, and the sharp s (223) becomes [SS].  The capitals
    of the micro sign (181) and of the y with diaeresis (255) are not
    code units below 256: the two are kept as they are, and a string
    that holds one of them is outside the model. *)
Definition upper_char (c : ascii) : string :=
  let n := code c in
  if ((97 <=? n) && (n <=? 122))%N then String (ascii_of_N (n - 32)) ""
  else if (n =? 223)%N then "SS"
  else if ((224 <=? n) && (n <=? 254) && negb (n =? 247))%N
       then String (ascii_of_N (n - 32)) ""
       else String c "".

(** [s.toUpperCase()] *)
Fixpoint toUpperCase (s : string) : string :=
  match s with
  | EmptyString => EmptyString
  | String c rest => upper_char c ++ toUpperCase rest
  end.

(** [s.replace(/\/+$/, '')] *)
Fixpoint strip_trailing_slashes (s : string) : string :=
  match s with
  | EmptyString => EmptyString
  | String c rest =>
      let rest' := strip_trailing_slashes rest in
      if ((c =? "/")%char && (rest' =? "")%string)%bool then EmptyString
      else String c rest'
  end.

(** [/\?[^#]/.test(s)]: a question mark followed by a code unit other
    than [#]. *)
Fixpoint test_query (s : string) : bool :=
  match s with
  | EmptyString => false
  | String c rest =>
      match rest with
      | EmptyString => false
      | String d _ =>
          if ((c =? "?")%char && negb (d =? "#")%char)%bool then true
          else test_query rest
      end
  end.

Definition hex_digit (upper : bool) (n : N) : ascii :=
  if (n <? 10)%N then ascii_of_N (48 + n)
  else ascii_of_N ((if upper then 55 else 87) + n).

Definition unreserved (c : ascii) : bool :=
  let n := code c in
  (((65 <=? n) && (n <=? 90)) || ((97 <=? n) && (n <=? 122))
   || ((48 <=? n) && (n <=? 57))
   || existsb (N.eqb n) [45; 95; 46; 33; 126; 42; 39; 40; 41])%N.

Definition percent (n : N) : string :=
  String "%" (String (hex_digit true (n / 16)) (String (hex_digit true (n mod 16)) "")).

(** One code unit of [encodeURIComponent]: unreserved marks stay, the rest
    is the percent-encoded UTF-8 form of the code point. *)
Definition encode_char (c : ascii) : string :=
  let n := code c in
  if unreserved c then String c ""
  else if (n <? 128)%N then percent n
  else percent (192 + n / 64) ++ percent (128 + n mod 64).

Fixpoint encode (s : string) : string :=
  match s with
  | EmptyString => EmptyString
  | String c rest => encode_char c ++ encode rest
  end.

(** [encodeURIComponent(v)] *)
Definition encodeURIComponent (v : value) : string :=
  encode (to_string v).

(** *** JSON.stringify *)

Definition dquote : ascii := "034"%char.
Definition backslash : ascii := "092"%char.

Definition quote_char (c : ascii) : string :=
  let n := code c in
  if (n =? 34)%N then String backslash (String dquote "")
  else if (n =? 92)%N then String backslash (String backslash "")
  else if (n =? 8)%N then String backslash "b"
  else if (n =? 12)%N then String backslash "f"
  else if (n =? 10)%N then String backslash "n"
  else if (n =? 13)%N then String backslash "r"
  else if (n =? 9)%N then String backslash "t"
  else if (n <? 32)%N then
    String backslash
      ("u00" ++ String (hex_digit false (n / 16))
                  (String (hex_digit false (n mod 16)) ""))
  else String c "".

Fixpoint quote_body (s : string) : string :=
  match s with
  | EmptyString => EmptyString
  | String c rest => quote_char c ++ quote_body rest
  end.

Definition quote (s : string) : string :=
  String dquote (quote_body s ++ String dquote "").

(** One member of an object in JSON text; a member whose value has no
    JSON text is left out. *)
Definition json_member (ks : string * option string) : list string :=
  match snd ks with
  | Some s => [quote (fst ks) ++ ":" ++ s]
  | None => []
  end.

(** [JSON.stringify(v)]; [None] is the [undefined] it returns for
    [undefined] and for functions.  The members of an object come in
    the order the language lists them.  The private fields of a
    normalizr schema object are not modelled. *)
Fixpoint JSON_stringify (v : value) : option string :=
  match v with
  | Undefined | Fn _ => None
  | Null => Some "null"
  | Bool true => Some "true"
  | Bool false => Some "false"
  | Num n => Some (string_of_Z n)
  | Str s => Some (quote s)
  | Arr items =>
      Some ("[" ++ join ","
              (map (fun x => match JSON_stringify x with
                             | Some s => s
                             | None => "null"
                             end) items) ++ "]")
  | Obj props =>
      Some ("{" ++ join ","
              (flat_map json_member
                 (own_order
                    (map (fun kv => (fst kv, JSON_stringify (snd kv))) props)))
              ++ "}")
  | SchemaObj _ | ObjectPrototype => Some "{}"
  end.

End JS.

Import JS.

(* ================================================================== *)
(** ** The npm dependencies *)

(** [querystring.stringify(obj)] with its default separators.  Every key
    and value is escaped like [encodeURIComponent] does.  The fields of
    an array value, which [querystring] repeats once per element, are
    not modelled: [_sortObject] never returns an array as a value. *)
Module querystring.

Definition stringifyPrimitive (v : value) : string :=
  match v with
  | Str s => s
  | Num n => string_of_Z n
  | Bool true => "true"
  | Bool false => "false"
  | _ => ""
  end.

Definition field (kv : string * value) : string :=
  encode (fst kv) ++ "=" ++ encode (stringifyPrimitive (snd kv)).

Definition stringify (obj : value) : string :=
  if ((typeof obj =? "object")%string && negb (nullish obj))%bool
  then join "&" (map field (enumerate obj))
  else "".

End querystring.

(** [string-hash]: [hash = 5381], then from the last code unit to the
    first [hash = (hash * 33) ^ c] in 32-bit integers, and [hash >>> 0]
    at the end. *)
Module string_hash.

Definition int32 (z : Z) : Z := (z + 2 ^ 31) mod 2 ^ 32 - 2 ^ 31.

Fixpoint hash_loop (s : string) : Z :=
  match s with
  | EmptyString => 5381
  | String c rest => Z.lxor (int32 (hash_loop rest * 33)) (Z.of_N (code c))
  end.

Definition stringHash (s : string) : Z := hash_loop s mod 2 ^ 32.

End string_hash.

(* ================================================================== *)
(** ** src/helpers/index.js *)

(** [Array.prototype.sort()] without a comparator: ascending by code
    units.  The keys of an object are distinct, so stability is moot. *)
Fixpoint insert_sorted (k : string) (ks : list string) : list string :=
  match ks with
  | [] => [k]
  | k' :: rest =>
      if (k <=? k')%string then k :: ks else k' :: insert_sorted k rest
  end.

Definition sort (ks : list string) : list string :=
  fold_right insert_sorted [] ks.

Fixpoint assoc {A : Type} (d : A) (k : string) (l : list (string * A)) : A :=
  match l with
  | [] => d
  | (k', a) :: rest => if (k' =? k)%string then a else assoc d k rest
  end.

(** The [reduce] of [_sortObject]: [children] maps each key to the value
    the callback stores under it.  [Object.keys(obj).sort()] is the
    same list in whatever order [Object.keys] lists the keys, so
    [children] is taken in creation order.  The callback assigns to a
    fresh object, in sorted order. *)
Definition store_member (children : list (string * result value))
           (acc : result (list (string * value))) (key : string)
  : result (list (string * value)) :=
  _obj <- acc ;;
  v <- assoc (Ok Undefined) key children ;;
  Ok (put key v _obj).

Definition sort_reduce (children : list (string * result value))
  : result value :=
  r <- fold_left (store_member children) (sort (map fst children)) (Ok []) ;;
  Ok (Obj r).

(** [_sortObject(obj = {})].  The recursive calls on [obj[key]] are made
    on the own properties of [obj], which is what [Object.keys] ranges
    over. *)
Fixpoint _sortObject (obj : value) : result value :=
  let child (v : value) : result value :=
    match v with
    | Null => Throw TypeError
    | Arr _ | Obj _ | SchemaObj _ | ObjectPrototype => _sortObject v
    | _ => Ok v
    end in
  match obj with
  | Null => Throw TypeError
  | Obj props => sort_reduce (map (fun kv => (fst kv, child (snd kv))) props)
  | Arr items => sort_reduce (indexed 0 (map child items))
  | Str s => sort_reduce (indexed 0 (map Ok (chars s)))
  | _ => sort_reduce []
  end.

(** The value the callback of [reduce] stores for [obj[key]] *)
Definition sorted_member (v : value) : result value :=
  match v with
  | Null => Throw TypeError
  | Arr _ | Obj _ | SchemaObj _ | ObjectPrototype => _sortObject v
  | _ => Ok v
  end.

(** [schemaKey({ schema })] *)
Definition schemaKey (resourceDefinition : value) : result value :=
  schema <- member resourceDefinition "schema" ;;
  match schema with
  | SchemaObj (Schema key) => Ok (Str key)
  | SchemaObj (arrayOf (Schema key)) => Ok (Str key)
  | _ => Throw TypeError
  end.

(** [target[k] = v] where the helpers assign: on plain objects and, in
    [normalizeParams], on the elements of an array. *)
Fixpoint set_item (k : string) (v : value) (i : Z) (items : list value)
  : list value :=
  match items with
  | [] => []
  | x :: rest =>
      if (string_of_Z i =? k)%string then v :: rest
      else x :: set_item k v (i + 1) rest
  end.

Definition assign (target : value) (k : string) (v : value) : value :=
  match target with
  | Obj props => Obj (put k v props)
  | Arr items => Arr (set_item k v 0 items)
  | _ => target
  end.

Definition json (v : value) : value :=
  match JSON_stringify v with
  | Some s => Str s
  | None => Undefined
  end.

(** The callback of [forEach] in [normalizeParams] *)
Definition stringify_member (params : value) (key : string) : value :=
  if (typeof (get params key) =? "object")%string
  then assign params key (json (get params key))
  else params.

(** [normalizeParams(params = {})].  The function writes into its
    argument, so the model returns the argument as the call leaves it
    next to the string. *)
Definition normalizeParams (params : value) : result (value * string) :=
  let obj := match params with Undefined => Obj [] | _ => params end in
  ks <- keys obj ;;
  let obj' := fold_left stringify_member ks obj in
  sorted <- _sortObject obj' ;;
  Ok (match params with Undefined => Undefined | _ => obj' end,
      querystring.stringify sorted).

(** [target[k]] holds an object that a callee has written into. *)
Definition written (target : value) (k : string) (v : value) : value :=
  match target with
  | Obj props => if has_key k props then Obj (set k v props) else target
  | _ => target
  end.

(** The string that [requestKey] hashes *)
Definition fingerprint (method url : value) (headers body : string) : string :=
  join "|" (map encodeURIComponent [method; url; Str headers; Str body]).

(** [requestKey({ url, headers, method, body })]; the definition comes
    back with [headers] and [body] as [normalizeParams] leaves them. *)
Definition requestKey (definition : value) : result (value * Z) :=
  url <- member definition "url" ;;
  headers <- member definition "headers" ;;
  method <- member definition "method" ;;
  body <- member definition "body" ;;
  hs <- normalizeParams headers ;;
  bs <- normalizeParams body ;;
  Ok (written (written definition "headers" (fst hs)) "body" (fst bs),
      string_hash.stringHash (fingerprint method url (snd hs) (snd bs))).

(** [findInState(state, resourceDefinition)] *)
Definition findInState (state resourceDefinition : value) : result value :=
  connect <- member state "connect" ;;
  paramsToResources0 <- member connect "paramsToResources" ;;
  resources0 <- member connect "resources" ;;
  let paramsToResources :=
    match paramsToResources0 with Undefined => Obj [] | v => v end in
  let resources := match resources0 with Undefined => Obj [] | v => v end in
  isArray <- member resourceDefinition "isArray" ;;
  defaultValue <- member resourceDefinition "defaultValue" ;;
  key <- schemaKey resourceDefinition ;;
  rk <- member resourceDefinition "requestKey" ;;
  resourceMap <- member paramsToResources (to_string rk) ;;
  resourceKeys <-
    (if truthy resourceMap then
       entry <- member paramsToResources (to_string rk) ;;
       data <- member entry "data" ;;
       member data (to_string key)
     else Ok resourceMap) ;;
  invalid <-
    (if negb (truthy resourceKeys) then Ok true
     else
       meta <- member resourceMap "meta" ;;
       didInvalidate <- member meta "didInvalidate" ;;
       Ok (truthy didInvalidate)) ;;
  if invalid : bool then Ok (Bool false)
  else
    bucket <- member resources (to_string key) ;;
    mappedResources <-
      (if truthy bucket then
         match resourceKeys with
         | Arr ids =>
             Ok (Arr (map (fun id => get bucket (to_string id)) ids))
         | _ => Throw TypeError
         end
       else
         data <- member resourceMap "data" ;;
         member data (to_string key)) ;;
    mappedResources <-
      (if negb (truthy mappedResources) then Ok defaultValue
       else if negb (truthy isArray) then member mappedResources "0"
       else Ok mappedResources) ;;
    meta <- member resourceMap "meta" ;;
    Ok (Obj [("meta", meta); ("value", mappedResources)]).

Definition definitionDefaults : value :=
  Obj [("method", Str "GET");
       ("normalize", Fn "normalize");
       ("actions", Obj []);
       ("extends", Obj []);
       ("clientOnly", Bool false)].

(** [invariant(condition, message)] *)
Definition invariant (condition : bool) (message : string) : result unit :=
  if condition then Ok tt else Throw (InvariantViolation message).

Definition schema_message : string :=
  "Resource definition must have a schema.".
Definition query_message : string :=
  "Include query parameters under `params` in your resource definition " ++
  "instead of directly in the URL.".

(** The merge [{ ...definitionDefaults, ...extends, ...definition }]
    copies references.  When the definition has no [k] of its own and
    its [extends] is a plain object with a property [k], the merged
    [definition[k]] and [definition.extends[k]] are one object. *)
Definition shares (raw : value) (k : string) : bool :=
  match raw with
  | Obj props =>
      (negb (has_key k props) &&
       match lookup "extends" props with
       | Obj eprops => has_key k eprops
       | _ => false
       end)%bool
  | _ => false
  end.

(** What a callee has written into [definition[k]] shows under
    [definition.extends[k]] when the two are one object. *)
Definition written_shared (raw definition : value) (k : string) : value :=
  if shares raw k then
    assign definition "extends"
           (assign (get definition "extends") k (get definition k))
  else definition.

Section NormalizeUrl.

(** [normalizeUrl(url, { stripWWW: false })] of the [normalize-url]
    package, which may reject its argument. *)
Variable normalizeUrl : string -> result string.

(** [fullUrl(url, params)]; [params] comes back as the call leaves it. *)
Definition fullUrl (url params : value) : result (value * string) :=
  match url with
  | Str u =>
      let u := strip_trailing_slashes u in
      if truthy params then
        ps <- normalizeParams params ;;
        u' <- normalizeUrl (u ++ "/?" ++ snd ps) ;;
        Ok (fst ps, u')
      else
        u' <- normalizeUrl u ;;
        Ok (params, u')
  | _ => Throw TypeError
  end.

(** [normalizeResourceDefinition(definition)].  [raw] is the argument,
    [definition] the merged object the function goes on with. *)
Definition normalizeResourceDefinition (raw : value) : result value :=
  extends <- member raw "extends" ;;
  let definition :=
    Obj (spread (spread (spread [] definitionDefaults)
                   (if truthy extends then extends else Obj []))
           raw) in
  _ <- invariant
         (match get definition "schema" with Undefined => false | _ => true end)
         schema_message ;;
  _ <- invariant (negb (test_query (to_string (get definition "url"))))
         query_message ;;
  pu <- fullUrl (get definition "url") (get definition "params") ;;
  let definition :=
    written_shared raw (written definition "params" (fst pu)) "params" in
  let definition := assign definition "url" (Str (snd pu)) in
  method <- match get definition "method" with
            | Str m => Ok (toUpperCase m)
            | _ => Throw TypeError
            end ;;
  let definition := assign definition "method" (Str method) in
  getKey <- member (get definition "schema") "getKey" ;;
  let definition := assign definition "isArray" (Bool (negb (truthy getKey))) in
  dk <- requestKey definition ;;
  let definition :=
    written_shared raw (written_shared raw (fst dk) "headers") "body" in
  let definition := assign definition "requestKey" (Num (snd dk)) in
  let definition :=
    match get definition "defaultValue" with
    | Undefined =>
        assign definition "defaultValue"
          (if truthy (get definition "isArray") then Arr [] else Obj [])
    | _ => definition
    end in
  let definition :=
    if strict_eq_string (get definition "method") "GET" then
      let definition :=
        match get definition "auto" with
        | Undefined => assign definition "auto" (Bool true)
        | _ => definition
        end in
      match get definition "store" with
      | Undefined => assign definition "store" (Bool true)
      | _ => definition
      end
    else definition in
  Ok definition.

End NormalizeUrl.

(* ================================================================== *)
(** ** Notions used in the statements *)

(** [Object.keys(v)] on a value that is neither [undefined] nor [null] *)
Definition own_keys (v : value) : list string := map fst (enumerate v).

(** What the [forEach] of [normalizeParams] leaves under a key *)
Definition stringified (v : value) : value :=
  if (typeof v =? "object")%string then json v else v.

Definition stringified_props (props : list (string * value))
  : list (string * value) :=
  map (fun kv => (fst kv, stringified (snd kv))) props.

(** The object [normalizeParams] hands to [querystring.stringify], as
    [_sortObject] creates it: key by key in sorted order, [__proto__]
    left out. *)
Definition canonical (props : list (string * value)) : list (string * value) :=
  map (fun k => (k, stringified (lookup k props)))
      (filter (fun k => negb (k =? "__proto__")%string) (sort (map fst props))).

(** The string [querystring.stringify] makes of it *)
Definition canonical_string (props : list (string * value)) : string :=
  join "&" (map querystring.field (own_order (canonical props))).

(** The string half of [normalizeParams] *)
Definition canonicalize (params : value) : result string :=
  ps <- normalizeParams params ;; Ok (snd ps).

(** The key half of [requestKey] *)
Definition deriveKey (method url headers body : value) : result Z :=
  dk <- requestKey (Obj [("url", url); ("headers", headers);
                         ("method", method); ("body", body)]) ;;
  Ok (snd dk).

(** A value that [typeof] does not call an object, and a value none
    of whose own properties is one *)
Definition nonobj (v : value) : Prop := (typeof v =? "object")%string = false.

Definition settled (p : value) : Prop :=
  forall k, nonobj (lookup k (own_props p)).

(** What the [forEach] of [normalizeParams] has left in an object once
    it has visited the keys [ks] *)
Definition stringified_at (ks : list string) (l : list (string * value))
  : list (string * value) :=
  map (fun kv => (fst kv,
                  if existsb (String.eqb (fst kv)) ks
                  then stringified (snd kv) else snd kv)) l.

(** The numeric order of array indices *)
Definition index_le {A : Type} (kv kv' : string * A) : Prop :=
  (index_value (fst kv) <= index_value (fst kv'))%N.

(** The code units [encodeURIComponent] can produce *)
Definition safe (c : ascii) : bool := (unreserved c || (c =? "%")%char)%bool.

Fixpoint all_safe (s : string) : bool :=
  match s with
  | EmptyString => true
  | String c rest => (safe c && all_safe rest)%bool
  end.

Fixpoint occurs (c : ascii) (s : string) : bool :=
  match s with
  | EmptyString => false
  | String c' rest => ((c' =? c)%char || occurs c rest)%bool
  end.

Definition hex_value (c : ascii) : N :=
  let n := code c in if (n <? 58)%N then n - 48 else n - 55.

(** Reads back the first code unit of an [encode]d string *)
Definition decode_first (s : string) : option (ascii * string) :=
  match s with
  | EmptyString => None
  | String "%" (String h1 (String h2 rest)) =>
      let n := (hex_value h1 * 16 + hex_value h2)%N in
      if (n <? 128)%N then Some (ascii_of_N n, rest)
      else
        match rest with
        | String "%" (String h3 (String h4 rest')) =>
            let m := (hex_value h3 * 16 + hex_value h4)%N in
            Some (ascii_of_N ((n - 192) * 64 + (m - 128)), rest')
        | _ => None
        end
  | String c rest => Some (c, rest)
  end.

Definition is_string (v : value) : bool :=
  match v with
  | Str _ => true
  | _ => false
  end.

(** A flat object of strings, like a set of headers *)
Definition all_strings (props : list (string * value)) : bool :=
  forallb (fun kv => is_string (snd kv)) props.

(** An object without a property named [__proto__] *)
Definition no_proto (props : list (string * value)) : bool :=
  negb (has_key "__proto__" props).

(** The string [requestKey] hashes for a request *)
Definition fingerprint_of (method url headers body : value) : result string :=
  hs <- canonicalize headers ;;
  bs <- canonicalize body ;;
  Ok (fingerprint method url hs bs).

Fixpoint schema_eqb (a b : schema) : bool :=
  match a, b with
  | Schema k, Schema k' => (k =? k')%string
  | arrayOf i, arrayOf i' => schema_eqb i i'
  | _, _ => false
  end.

(** Deep equality that ignores the order of keys at every level; the
    keys of an object are taken to be distinct. *)
Fixpoint deep_eqb (a b : value) : bool :=
  match a, b with
  | Undefined, Undefined => true
  | Null, Null => true
  | Bool x, Bool y => Bool.eqb x y
  | Num x, Num y => (x =? y)%Z
  | Str x, Str y => (x =? y)%string
  | Fn x, Fn y => (x =? y)%string
  | SchemaObj x, SchemaObj y => schema_eqb x y
  | ObjectPrototype, ObjectPrototype => true
  | Arr xs, Arr ys =>
      (fix all2 (l : list value) (r : list value) : bool :=
         match l, r with
         | [], [] => true
         | x :: l', y :: r' => (deep_eqb x y && all2 l' r')%bool
         | _, _ => false
         end) xs ys
  | Obj ps, Obj qs =>
      ((List.length ps =? List.length qs)%nat &&
       forallb (fun kv => (has_key (fst kv) qs &&
                           deep_eqb (snd kv) (lookup (fst kv) qs))%bool) ps)%bool
  | _, _ => false
  end.

(** The first statement of [normalizeResourceDefinition]: defaults, then
    [extends], then the definition itself. *)
Definition merged (definition : value) : value :=
  Obj (spread (spread (spread [] definitionDefaults)
                 (if truthy (get definition "extends")
                  then get definition "extends" else Obj []))
         definition).

(** *** The derived fields of a definition *)

(** [write_back k v l]: the object under [k], if any, is now [v] *)
Definition write_back (k : string) (v : value) (l : list (string * value)) :=
  if has_key k l then set k v l else l.

(** [share raw k l]: what is under [k] now is under [extends.k] too,
    when the merge took it from there *)
Definition share (raw : value) (k : string) (l : list (string * value)) :=
  if shares raw k
  then set "extends" (assign (lookup "extends" l) k (lookup k l)) l
  else l.

Definition with_default_value (l : list (string * value)) :=
  match lookup "defaultValue" l with
  | Undefined =>
      set "defaultValue" (if truthy (lookup "isArray" l) then Arr [] else Obj []) l
  | _ => l
  end.

Definition with_flag (flag : string) (l : list (string * value)) :=
  match lookup flag l with
  | Undefined => set flag (Bool true) l
  | _ => l
  end.

Definition with_get_defaults (l : list (string * value)) :=
  if strict_eq_string (lookup "method" l) "GET"
  then with_flag "store" (with_flag "auto" l) else l.

Definition derived (raw : value) (props : list (string * value))
           (params : value) (url method : string) (isArray : bool)
           (headers body : value) (key : Z) : list (string * value) :=
  with_get_defaults
    (with_default_value
       (set "requestKey" (Num key)
          (share raw "body"
             (share raw "headers"
                (write_back "body" body
                   (write_back "headers" headers
                      (set "isArray" (Bool isArray)
                         (set "method" (Str method)
                            (set "url" (Str url)
                               (share raw "params"
                                  (write_back "params" params props))))))))))).

(** Modelled from the spec: [normalize-url] is not part of the sources.
    The spec has the url "normalized to a canonical form", "trailing
    slashes stripped".  On a url that ends in no slash and has no query
    string, which is what [fullUrl] hands over when there are no
    [params], the url the package returns is canonical: given again it
    is returned as it is, it ends in no slash, and it has no query
    string. *)
Definition canonical_urls (nu : string -> result string) : Prop :=
  forall u u',
    strip_trailing_slashes u = u -> test_query u = false ->
    nu u = Ok u' ->
    nu u' = Ok u' /\ strip_trailing_slashes u' = u' /\ test_query u' = false.

(** The fields the normalizer may add to the merged definition *)
Definition derived_names : list string :=
  ["extends"; "url"; "method"; "isArray"; "requestKey"; "defaultValue";
   "auto"; "store"].

(** Two values that are one value, or two plain objects with the same
    keys in the same order *)
Definition same_keys (a b : value) : Prop :=
  a = b \/
  exists l l', a = Obj l /\ b = Obj l' /\ map fst l = map fst l'.

(** The url [fullUrl] derives from a url and [params] *)
Definition derived_url_of (nu : string -> result string) (url params : value)
  : result string :=
  pu <- fullUrl nu url params ;; Ok (snd pu).

(** Every key stays where it is and the keys stay distinct *)
Definition grows (l l' : list (string * value)) : Prop :=
  (exists r, map fst l' = (map fst l ++ r)%list) /\
  (NoDup (map fst l) -> NoDup (map fst l')).

(** *** The cache state *)

Definition or_empty (v : value) : value :=
  match v with
  | Undefined => Obj []
  | _ => v
  end.

(** The Request Ledger and the Entity Store of a state *)
Definition ledger (state : value) : value :=
  or_empty (get (get state "connect") "paramsToResources").

Definition entities (state : value) : value :=
  or_empty (get (get state "connect") "resources").

(** The ledger entry of a definition and its parts *)
Definition entry_of (state resourceDefinition : value) : value :=
  get (ledger state) (to_string (get resourceDefinition "requestKey")).

Definition meta_of (state resourceDefinition : value) : value :=
  get (entry_of state resourceDefinition) "meta".

Definition recorded (state resourceDefinition : value) (key : string) : value :=
  get (get (entry_of state resourceDefinition) "data") key.

Definition is_object (v : value) : bool :=
  match v with
  | Obj _ => true
  | _ => false
  end.

Definition object_or_absent (v : value) : bool :=
  match v with
  | Undefined | Obj _ => true
  | _ => false
  end.

Definition id_list_or_absent (v : value) : bool :=
  match v with
  | Undefined | Arr _ => true
  | _ => false
  end.

(** A state whose tables are plain objects: the Request Ledger and the
    Entity Store are plain objects or absent, and so is the [data] of
    the ledger entry of the definition.  These are the objects the
    resolver reads by a computed key. *)
Definition plain_tables (state resourceDefinition : value) : bool :=
  (object_or_absent (get (get state "connect") "paramsToResources")
   && object_or_absent (get (get state "connect") "resources")
   && object_or_absent (get (entry_of state resourceDefinition) "data"))%bool.

(** A state as the reducer keeps it: [state.connect] holds the two
    tables, and a ledger entry is [{ meta, data }] where [data] maps an
    entity type to a list of ids. *)
Definition well_formed (state resourceDefinition : value) (key : string)
  : bool :=
  (is_object state && is_object (get state "connect")
   && object_or_absent (get (get state "connect") "paramsToResources")
   && object_or_absent (get (get state "connect") "resources")
   && match entry_of state resourceDefinition with
      | Undefined => true
      | Obj _ =>
          negb (nullish (meta_of state resourceDefinition))
          && is_object (get (entry_of state resourceDefinition) "data")
          && id_list_or_absent (recorded state resourceDefinition key)
      | _ => false
      end)%bool.

(** The Miss conditions of the resolver *)
Definition miss (state resourceDefinition : value) (key : string) : Prop :=
  entry_of state resourceDefinition = Undefined \/
  recorded state resourceDefinition key = Undefined \/
  truthy (get (meta_of state resourceDefinition) "didInvalidate") = true.

(** The test [!resourceKeys || resourceMap.meta.didInvalidate] that
    sends the resolver to [return false] *)
Definition guard (state resourceDefinition : value) (key : string) : bool :=
  (negb (truthy (recorded state resourceDefinition key))
   || truthy (get (meta_of state resourceDefinition) "didInvalidate"))%bool.

(** The value of a hit before the [meta] is attached *)
Definition joined (state resourceDefinition : value) (key : string) : value :=
  let bucket := get (entities state) key in
  if truthy bucket then
    match recorded state resourceDefinition key with
    | Arr ids => Arr (map (fun id => get bucket (to_string id)) ids)
    | v => v
    end
  else recorded state resourceDefinition key.

Definition resolved (state resourceDefinition : value) (key : string) : value :=
  if negb (truthy (joined state resourceDefinition key))
  then get resourceDefinition "defaultValue"
  else if negb (truthy (get resourceDefinition "isArray"))
       then get (joined state resourceDefinition key) "0"
       else joined state resourceDefinition key.

(** *** Data for the examples *)

(** Modelled from the spec: [normalize-url] is not part of the sources.
    A stand-in for it on plain lower-case [http] URLs: the package
    drops the slashes that end the url; it keeps an url with a query
    string whose parameters are sorted already as it is, the slash
    before the question mark included; and it drops a query that is
    empty. *)
Module normalize_url.

Fixpoint path_of (s : string) : string :=
  match s with
  | EmptyString => EmptyString
  | String c rest => if (c =? "?")%char then EmptyString else String c (path_of rest)
  end.

Definition normalizeUrl (u : string) : result string :=
  let u := strip_trailing_slashes u in
  Ok (if test_query u then u else strip_trailing_slashes (path_of u)).

End normalize_url.

Definition userSchema : value := SchemaObj (Schema "user").
Definition usersSchema : value := SchemaObj (arrayOf (Schema "user")).

(** [{ connect: { paramsToResources: { [rk]: { meta, data: { user: ids } } },
                  resources: { user: bucket } } }] *)
Definition user_state (rk meta ids bucket : value) : value :=
  Obj [("connect",
        Obj [("paramsToResources",
              Obj [(to_string rk,
                    Obj [("meta", meta);
                         ("data", Obj [("user", ids)])])]);
             ("resources", Obj [("user", bucket)])])].

(** A normalized definition over the [user] entity type *)
Definition user_definition (schema : value) (isArray : bool)
           (defaultValue rk : value) : value :=
  Obj [("schema", schema); ("isArray", Bool isArray);
       ("defaultValue", defaultValue); ("requestKey", rk)].

(** Two objects that differ in the key order of a nested object only *)
Definition nested_xy : list (string * value) :=
  [("a", Obj [("x", Num 1); ("y", Num 2)])].
Definition nested_yx : list (string * value) :=
  [("a", Obj [("y", Num 2); ("x", Num 1)])].

(** The number [1] and the text ["1"] under the same key *)
Definition flat_number : list (string * value) := [("a", Num 1)].
Definition flat_text : list (string * value) := [("a", Str "1")].

(** An object whose only property is named [__proto__], as
    [JSON.parse] makes it *)
Definition proto_only : list (string * value) := [("__proto__", Str "x")].

Definition accept_first : list (string * value) :=
  [("Accept", Str "application/json"); ("X-Page", Str "2")].
Definition accept_last : list (string * value) :=
  [("X-Page", Str "2"); ("Accept", Str "application/json")].

(** Raw resource definitions *)
Definition user_seven : list (string * value) :=
  [("schema", userSchema); ("url", Str "http://a/users/7")].

Definition normalized_user_seven : value :=
  Obj [("method", Str "GET"); ("normalize", Fn "normalize");
       ("actions", Obj []); ("extends", Obj []); ("clientOnly", Bool false);
       ("schema", userSchema); ("url", Str "http://a/users/7");
       ("isArray", Bool false); ("requestKey", Num 3901600212);
       ("defaultValue", Obj []); ("auto", Bool true); ("store", Bool true)].

Definition paged_users : list (string * value) :=
  [("schema", usersSchema); ("url", Str "http://a/users/");
   ("params", Obj [("page", Num 1)])].



Definition post_user : list (string * value) :=
  [("schema", userSchema); ("url", Str "http://a/users");
   ("method", Str "POST")].

Definition get_lower : list (string * value) :=
  [("schema", userSchema); ("url", Str "http://a/users");
   ("method", Str "get")].

Definition fresh_meta : value :=
  Obj [("isFetching", Bool false); ("didInvalidate", Bool false)].

(** *** Sorted objects *)

(** The keys of a list in ascending order *)
Fixpoint ascending (ks : list string) : bool :=
  match ks with
  | [] => true
  | k :: rest =>
      match rest with
      | [] => true
      | k' :: _ => ((k <=? k')%string && ascending rest)%bool
      end
  end.

(** What may follow a key in the listing of a sorted object: after an
    array index a greater one or any other key, after another key a
    greater key that is no array index. *)
Definition may_follow (k k' : string) : bool :=
  if is_index k
  then (if is_index k' then (index_value k <=? index_value k')%N else true)
  else (negb (is_index k') && (k <=? k')%string)%bool.

(** Keys listed as the language lists the keys of a sorted object: the
    array indices in ascending numeric order, then the other keys in
    ascending order of their code units. *)
Fixpoint sorted_listing (ks : list string) : bool :=
  match ks with
  | [] => true
  | k :: rest =>
      match rest with
      | [] => true
      | k' :: _ => (may_follow k k' && sorted_listing rest)%bool
      end
  end.

(** An object whose keys are listed sorted at every level and that
    holds no array, no [null] and no schema object *)
Fixpoint sorted_deep (v : value) : Prop :=
  match v with
  | Obj props =>
      sorted_listing (map fst (own_order props)) = true /\
      (fix all (l : list (string * value)) : Prop :=
         match l with
         | [] => True
         | kv :: l' => sorted_deep (snd kv) /\ all l'
         end) props
  | Null | Arr _ | SchemaObj _ | ObjectPrototype => False
  | _ => True
  end.

(** *** More data for the examples *)

Definition unsorted_nested : list (string * value) :=
  [("b", Num 1); ("a", Obj [("y", Num 2); ("x", Arr [Str "q"; Num 3])])].

Definition sorted_nested : list (string * value) :=
  [("a", Obj [("x", Obj [("0", Str "q"); ("1", Num 3)]); ("y", Num 2)]);
   ("b", Num 1)].

(** Keys that are array indices among keys that are not *)
Definition mixed_keys : list (string * value) :=
  [("b", Num 1); ("10", Num 2); ("9", Num 3); ("a", Num 4)].

Definition null_member : list (string * value) :=
  [("a", Num 1); ("b", Null)].

Definition post_nested : list (string * value) :=
  [("schema", userSchema); ("url", Str "http://a/users");
   ("method", Str "post");
   ("body", Obj [("user", Obj [("name", Str "Al")])])].

Definition extending : list (string * value) :=
  [("url", Str "http://a/users/7");
   ("extends", Obj [("url", Str "http://a/users"); ("method", Str "PATCH");
                    ("schema", userSchema)])].

(** A definition that takes its headers from [extends] *)
Definition inheriting : list (string * value) :=
  [("url", Str "http://a/users/7");
   ("extends", Obj [("schema", userSchema);
                    ("headers", Obj [("accept", Arr [Str "json"])])])].

Definition string_schema : list (string * value) :=
  [("schema", Str "user"); ("url", Str "http://a/users/7")].

Definition empty_state : value := Obj [("connect", Obj [])].

(* ================================================================== *)
(** ** [extendFunction] *)

Section ExtendFunction.

(** Whatever a call can change *)
Variable World : Type.

(** What a call does: it leaves a world behind and returns, or throws. *)
Definition effect : Type := World -> World * option error.

(** An argument of [extendFunction]: a function, given by what a call
    with some arguments does, or a value that is not a function. *)
Inductive listener : Type :=
| Function (call : list value -> effect)
| Other (v : value).

Definition is_function (func : listener) : bool :=
  match func with
  | Function _ => true
  | Other _ => false
  end.

(** [for (const func of functions) {
       typeof func === 'function' && func.apply(this, args); }] *)
Fixpoint call_each (functions : list listener) (args : list value) : effect :=
  fun world =>
    match functions with
    | [] => (world, None)
    | Function call :: rest =>
        match call args world with
        | (world', None) => call_each rest args world'
        | thrown => thrown
        end
    | Other _ :: rest => call_each rest args world
    end.

(** [extendFunction(...functions)]: the function it returns *)
Definition extendFunction (functions : list listener) : list value -> effect :=
  fun args => call_each functions args.

End ExtendFunction.

Arguments Function {World} call.
Arguments Other {World} v.
Arguments is_function {World} func.
Arguments call_each {World} functions args.
Arguments extendFunction {World} functions.

(* ================================================================== *)
(** * Properties *)

Local Open Scope list_scope.
Local Open Scope Z_scope.
Local Open Scope string_scope.

(** ** Sorting keys *)

Lemma ascii_compare_refl (c : ascii) : Ascii.compare c c = Eq.
Proof. unfold Ascii.compare. apply N.compare_refl. Qed.

Lemma ascii_compare_lt_trans (a b c : ascii) :
  Ascii.compare a b = Lt -> Ascii.compare b c = Lt -> Ascii.compare a c = Lt.
Proof.
  unfold Ascii.compare. rewrite !N.compare_lt_iff. apply N.lt_trans.
Qed.

Lemma string_compare_lt_trans (a b c : string) :
  String.compare a b = Lt -> String.compare b c = Lt -> String.compare a c = Lt.
Proof.
  revert b c. induction a as [|x a IH]; intros [|y b] [|z c]; simpl;
    try discriminate; auto.
  destruct (Ascii.compare x y) eqn:Hxy; try discriminate;
    destruct (Ascii.compare y z) eqn:Hyz; try discriminate; intros H1 H2.
  - apply Ascii.compare_eq_iff in Hxy, Hyz. subst.
    rewrite ascii_compare_refl. eauto.
  - apply Ascii.compare_eq_iff in Hxy. subst. now rewrite Hyz.
  - apply Ascii.compare_eq_iff in Hyz. subst. now rewrite Hxy.
  - now rewrite (ascii_compare_lt_trans _ _ _ Hxy Hyz).
Qed.

Lemma string_leb_cases (a b : string) :
  (a <=? b)%string = true <-> a = b \/ String.compare a b = Lt.
Proof.
  unfold String.leb. destruct (String.compare a b) eqn:H; split; auto.
  - intros _. left. now apply String.compare_eq_iff.
  - discriminate.
  - intros [->|]; [|discriminate].
    assert (String.compare b b = Eq) as E.
    { clear H. induction b; simpl; auto. now rewrite ascii_compare_refl. }
    congruence.
Qed.

Lemma string_leb_trans (a b c : string) :
  (a <=? b)%string = true -> (b <=? c)%string = true -> (a <=? c)%string = true.
Proof.
  rewrite !string_leb_cases. intros [->|H1] [->|H2]; auto.
  right. eapply string_compare_lt_trans; eauto.
Qed.

Lemma string_leb_false (a b : string) :
  (a <=? b)%string = false -> (b <=? a)%string = true.
Proof.
  intros H. destruct (String.leb_total a b) as [E|E]; congruence.
Qed.

Lemma insert_sorted_comm (a b : string) (l : list string) :
  insert_sorted a (insert_sorted b l) = insert_sorted b (insert_sorted a l).
Proof.
  induction l as [|y l IH]; simpl.
  - destruct (a <=? b)%string eqn:Hab, (b <=? a)%string eqn:Hba; auto.
    + now rewrite (String.leb_antisym _ _ Hab Hba).
    + apply string_leb_false in Hab. congruence.
  - destruct (b <=? y)%string eqn:Hby, (a <=? y)%string eqn:Hay; simpl;
      rewrite ?Hby, ?Hay.
    + destruct (a <=? b)%string eqn:Hab, (b <=? a)%string eqn:Hba; auto.
      * now rewrite (String.leb_antisym _ _ Hab Hba).
      * apply string_leb_false in Hab. congruence.
    + destruct (a <=? b)%string eqn:Hab; auto.
      rewrite (string_leb_trans _ _ _ Hab Hby) in Hay. discriminate.
    + destruct (b <=? a)%string eqn:Hba; auto.
      rewrite (string_leb_trans _ _ _ Hba Hay) in Hby. discriminate.
    + now rewrite IH.
Qed.

Lemma sort_Permutation_eq (l l' : list string) :
  Permutation l l' -> sort l = sort l'.
Proof.
  induction 1; simpl; try congruence. apply insert_sorted_comm.
Qed.

Lemma insert_sorted_Permutation (k : string) (l : list string) :
  Permutation (insert_sorted k l) (k :: l).
Proof.
  induction l as [|y l IH]; simpl; auto.
  destruct (k <=? y)%string; auto.
  rewrite IH. apply perm_swap.
Qed.

Lemma sort_Permutation (l : list string) : Permutation (sort l) l.
Proof.
  induction l as [|k l IH]; simpl; auto.
  rewrite insert_sorted_Permutation. now constructor.
Qed.

(* ================================================================== *)
(** ** Objects as property lists *)

Lemma has_key_In (k : string) (l : list (string * value)) :
  has_key k l = true <-> In k (map fst l).
Proof.
  induction l as [|[k' v] l IH]; simpl; [easy|].
  destruct (String.eqb_spec k' k); [tauto|].
  rewrite IH. split; [tauto|]. now intros [|].
Qed.

Lemma has_key_false (k : string) (l : list (string * value)) :
  has_key k l = false <-> ~ In k (map fst l).
Proof.
  rewrite <- has_key_In. now destruct (has_key k l).
Qed.

Lemma lookup_set (k k' : string) (v : value) (l : list (string * value)) :
  lookup k (set k' v l) = if (k' =? k)%string then v else lookup k l.
Proof.
  induction l as [|[k0 v0] l IH]; simpl.
  - now destruct (k' =? k)%string.
  - destruct (String.eqb_spec k0 k') as [->|Hne]; simpl.
    + now destruct (k' =? k)%string.
    + destruct (String.eqb_spec k0 k) as [->|]; auto.
      destruct (String.eqb_spec k' k); congruence.
Qed.

Lemma has_key_set (k k' : string) (v : value) (l : list (string * value)) :
  has_key k (set k' v l) = ((k' =? k)%string || has_key k l)%bool.
Proof.
  induction l as [|[k0 v0] l IH]; simpl.
  - now destruct (k' =? k)%string.
  - destruct (String.eqb_spec k0 k') as [->|Hne]; simpl.
    + now destruct (k' =? k)%string.
    + destruct (String.eqb_spec k0 k) as [->|]; auto.
      now rewrite orb_true_r.
Qed.

Lemma lookup_not_in (k : string) (l : list (string * value)) :
  ~ In k (map fst l) -> lookup k l = Undefined.
Proof.
  induction l as [|[k' v] l IH]; simpl; auto. intros H.
  destruct (String.eqb_spec k' k); [tauto|]. apply IH. tauto.
Qed.

Lemma lookup_app_skip (k : string) (d l : list (string * value)) :
  ~ In k (map fst d) -> lookup k (d ++ l) = lookup k l.
Proof.
  induction d as [|[k' v] d IH]; simpl; auto. intros H.
  destruct (String.eqb_spec k' k); [tauto|]. apply IH. tauto.
Qed.

Lemma set_app_skip (k : string) (v : value) (d l : list (string * value)) :
  ~ In k (map fst d) -> set k v (d ++ l) = (d ++ set k v l)%list.
Proof.
  induction d as [|[k' v'] d IH]; simpl; auto. intros H.
  destruct (String.eqb_spec k' k); [tauto|]. rewrite IH; tauto.
Qed.

Lemma set_same (k : string) (l : list (string * value)) :
  has_key k l = true -> set k (lookup k l) l = l.
Proof.
  induction l as [|[k' v] l IH]; simpl; [discriminate|].
  destruct (String.eqb_spec k' k) as [->|]; auto.
  intros H. now rewrite IH.
Qed.

Lemma keys_set (k : string) (v : value) (l : list (string * value)) :
  map fst (set k v l) =
  if has_key k l then map fst l else (map fst l ++ [k])%list.
Proof.
  induction l as [|[k' v'] l IH]; simpl; auto.
  destruct (String.eqb_spec k' k) as [->|]; simpl; auto.
  rewrite IH. now destruct (has_key k l).
Qed.

Lemma NoDup_keys_set (k : string) (v : value) (l : list (string * value)) :
  NoDup (map fst l) -> NoDup (map fst (set k v l)).
Proof.
  intros H. rewrite keys_set. destruct (has_key k l) eqn:E; auto.
  apply has_key_false in E.
  apply (Permutation_NoDup (l := k :: map fst l)).
  - apply Permutation_cons_append.
  - now constructor.
Qed.

Lemma lookup_Permutation (k : string) (l l' : list (string * value)) :
  NoDup (map fst l) -> Permutation l l' -> lookup k l = lookup k l'.
Proof.
  intros Hnd Hp. induction Hp as [|[k0 v0] l l' Hp IH
                                 |[k1 v1] [k2 v2] l|l l' l'' Hp1 IH1 Hp2 IH2].
  - reflexivity.
  - simpl in *. inversion Hnd; subst. now rewrite IH.
  - simpl in *. inversion Hnd as [|? ? Hin _]; subst.
    destruct (String.eqb_spec k1 k), (String.eqb_spec k2 k); auto.
    subst. simpl in Hin. tauto.
  - rewrite IH1; auto. apply IH2.
    eapply Permutation_NoDup; [|exact Hnd]. now apply Permutation_map.
Qed.

(* ================================================================== *)
(** ** The order in which own properties are listed *)

Section OwnOrder.

Context {A : Type}.

Implicit Types (l : list (string * A)) (kv : string * A).

Lemma insert_index_Permutation kv l :
  Permutation (insert_index kv l) (kv :: l).
Proof.
  induction l as [|y l IH]; cbn [insert_index]; auto.
  destruct (_ <=? _)%N; auto.
  rewrite IH. apply perm_swap.
Qed.

Lemma by_index_Permutation l :
  Permutation (fold_right insert_index [] l) l.
Proof.
  induction l as [|kv l IH]; cbn [fold_right]; auto.
  rewrite insert_index_Permutation. now constructor.
Qed.

Lemma filter_split_Permutation (p : string * A -> bool) l :
  Permutation (filter p l ++ filter (fun kv => negb (p kv)) l)%list l.
Proof.
  induction l as [|kv l IH]; cbn [filter app]; auto.
  destruct (p kv); cbn [negb app].
  - now constructor.
  - rewrite <- Permutation_middle. now constructor.
Qed.

Lemma own_order_Permutation l : Permutation (own_order l) l.
Proof.
  unfold own_order. rewrite by_index_Permutation.
  apply filter_split_Permutation.
Qed.

Lemma keys_own_order_Permutation l :
  Permutation (map fst (own_order l)) (map fst l).
Proof. apply Permutation_map, own_order_Permutation. Qed.

Lemma NoDup_own_order l :
  NoDup (map fst l) -> NoDup (map fst (own_order l)).
Proof.
  apply Permutation_NoDup. symmetry. apply keys_own_order_Permutation.
Qed.

Lemma in_keys_own_order (k : string) l :
  In k (map fst (own_order l)) <-> In k (map fst l).
Proof.
  split; apply Permutation_in;
    [|symmetry]; apply keys_own_order_Permutation.
Qed.

(** A list without array indices is listed as it was created. *)
Lemma own_order_plain l :
  forallb (fun kv => negb (is_index (fst kv))) l = true -> own_order l = l.
Proof.
  intros H. unfold own_order.
  assert (filter (fun kv => is_index (fst kv)) l = [] /\
          filter (fun kv => negb (is_index (fst kv))) l = l) as [-> ->].
  { induction l as [|kv l IH]; [now split|].
    cbn [forallb filter] in *. apply andb_true_iff in H. destruct H as [H1 H2].
    destruct (IH H2) as [-> ->]. rewrite H1.
    apply negb_true_iff in H1. now rewrite H1. }
  reflexivity.
Qed.

(** *** Insertion by index and sorted lists *)

Lemma insert_index_first kv l :
  Forall (index_le kv) l -> insert_index kv l = kv :: l.
Proof.
  destruct l as [|y l]; [reflexivity|]. intros H. inversion H; subst.
  cbn [insert_index]. unfold index_le in *.
  now destruct (N.leb_spec (index_value (fst kv)) (index_value (fst y))); [|lia].
Qed.

Lemma insert_index_sorted kv l :
  StronglySorted index_le l -> StronglySorted index_le (insert_index kv l).
Proof.
  induction 1 as [|y l Hs IH Hy]; cbn [insert_index].
  - repeat constructor.
  - destruct (N.leb_spec (index_value (fst kv)) (index_value (fst y))).
    + constructor; [now constructor|]. constructor; [assumption|].
      eapply Forall_impl; [|exact Hy]. unfold index_le. intros; lia.
    + constructor; [assumption|].
      apply (Permutation_Forall (x := kv :: l)).
      * symmetry. apply insert_index_Permutation.
      * constructor; [unfold index_le; lia|assumption].
Qed.

Lemma by_index_sorted l :
  StronglySorted index_le (fold_right insert_index [] l).
Proof.
  induction l as [|kv l IH]; cbn [fold_right]; [constructor|].
  now apply insert_index_sorted.
Qed.

Lemma by_index_of_sorted l :
  StronglySorted index_le l -> fold_right insert_index [] l = l.
Proof.
  induction 1 as [|y l Hs IH Hy]; cbn [fold_right]; [reflexivity|].
  rewrite IH. now apply insert_index_first.
Qed.

Lemma filter_insert_index (p : string * A -> bool) kv l :
  StronglySorted index_le l ->
  filter p (insert_index kv l) =
  if p kv then insert_index kv (filter p l) else filter p l.
Proof.
  induction 1 as [|y l Hs IH Hy]; cbn [insert_index filter].
  - now destruct (p kv).
  - destruct (N.leb_spec (index_value (fst kv)) (index_value (fst y)))
      as [Hle|Hlt]; cbn [filter].
    + destruct (p kv); [|reflexivity].
      symmetry. apply insert_index_first.
      assert (Forall (index_le kv) (y :: l)) as Hall.
      { constructor; [exact Hle|].
        eapply Forall_impl; [|exact Hy]. unfold index_le. intros; lia. }
      apply Forall_forall. intros x Hx.
      rewrite Forall_forall in Hall. apply Hall.
      change (In x (filter p (y :: l))) in Hx.
      now apply filter_In in Hx.
    + rewrite IH. destruct (p y), (p kv); cbn [insert_index]; auto.
      now destruct (N.leb_spec (index_value (fst kv)) (index_value (fst y)));
        [lia|].
Qed.

Lemma filter_by_index (p : string * A -> bool) l :
  filter p (fold_right insert_index [] l) =
  fold_right insert_index [] (filter p l).
Proof.
  induction l as [|kv l IH]; cbn [fold_right filter]; [reflexivity|].
  rewrite filter_insert_index by apply by_index_sorted.
  rewrite IH. now destruct (p kv).
Qed.

Lemma filter_comm (p q : string * A -> bool) l :
  filter p (filter q l) = filter q (filter p l).
Proof.
  induction l as [|kv l IH]; cbn [filter]; [reflexivity|].
  destruct (q kv) eqn:Hq, (p kv) eqn:Hp; cbn [filter];
    rewrite ?Hq, ?Hp, IH; reflexivity.
Qed.

(** Listing commutes with leaving properties out. *)
Lemma filter_own_order (p : string * A -> bool) l :
  filter p (own_order l) = own_order (filter p l).
Proof.
  unfold own_order. rewrite filter_app, filter_by_index.
  now rewrite !(filter_comm p).
Qed.

Lemma own_order_app_plain l r :
  forallb (fun kv => negb (is_index (fst kv))) r = true ->
  own_order (l ++ r)%list = (own_order l ++ r)%list.
Proof.
  intros H. unfold own_order. rewrite !filter_app.
  assert (filter (fun kv => is_index (fst kv)) r = [] /\
          filter (fun kv => negb (is_index (fst kv))) r = r) as [-> ->].
  { clear l. induction r as [|kv r IH]; [now split|].
    cbn [forallb filter] in *. apply andb_true_iff in H. destruct H as [H1 H2].
    destruct (IH H2) as [-> ->]. rewrite H1.
    apply negb_true_iff in H1. now rewrite H1. }
  now rewrite app_nil_r, app_assoc.
Qed.

Lemma filter_filter_same (p : string * A -> bool) l :
  filter p (filter p l) = filter p l.
Proof.
  induction l as [|kv l IH]; cbn [filter]; [reflexivity|].
  destruct (p kv) eqn:Hp; cbn [filter]; rewrite ?Hp, IH; reflexivity.
Qed.

Lemma filter_filter_none (p : string * A -> bool) l :
  filter p (filter (fun kv => negb (p kv)) l) = [].
Proof.
  induction l as [|kv l IH]; cbn [filter]; [reflexivity|].
  destruct (p kv) eqn:Hp; cbn [negb filter]; rewrite ?Hp; exact IH.
Qed.

Lemma by_index_keeps_index l :
  filter (fun kv => is_index (fst kv)) (fold_right insert_index [] l) =
  fold_right insert_index [] (filter (fun kv => is_index (fst kv)) l).
Proof. apply filter_by_index. Qed.

Lemma filter_nonindex_index l :
  filter (fun kv => negb (is_index (fst kv)))
         (filter (fun kv => is_index (fst kv)) l) = [].
Proof.
  induction l as [|kv l IH]; cbn [filter]; [reflexivity|].
  destruct (is_index (fst kv)) eqn:Hp; cbn [negb filter];
    rewrite ?Hp; cbn [negb]; exact IH.
Qed.

(** Listing a listing changes nothing. *)
Lemma own_order_again l : own_order (own_order l) = own_order l.
Proof.
  unfold own_order at 1. rewrite !filter_own_order.
  unfold own_order at 1 2.
  rewrite filter_filter_same, filter_nonindex_index, app_nil_r.
  rewrite filter_filter_none, filter_filter_same. cbn [fold_right app].
  unfold own_order. f_equal.
  apply by_index_of_sorted, by_index_sorted.
Qed.

End OwnOrder.

(* ================================================================== *)
(** ** Reading and writing properties *)

Lemma lookup_own_order (k : string) (l : list (string * value)) :
  NoDup (map fst l) -> lookup k (own_order l) = lookup k l.
Proof.
  intros Hnd. apply lookup_Permutation.
  - now apply NoDup_own_order.
  - apply own_order_Permutation.
Qed.

Lemma has_key_own_order (k : string) (l : list (string * value)) :
  has_key k (own_order l) = has_key k l.
Proof.
  destruct (has_key k l) eqn:E.
  - apply has_key_In. apply in_keys_own_order. now apply has_key_In.
  - apply has_key_false. rewrite in_keys_own_order. now apply has_key_false.
Qed.

Lemma lookup_has_key (k : string) (l : list (string * value)) :
  has_key k l = false -> lookup k l = Undefined.
Proof. intros H. apply lookup_not_in. now apply has_key_false. Qed.

Lemma lookup_defined_has_key (k : string) (l : list (string * value)) :
  lookup k l <> Undefined -> has_key k l = true.
Proof.
  intros H. destruct (has_key k l) eqn:E; auto.
  now rewrite lookup_has_key in H.
Qed.

(** A name that [Object.prototype] does not have is read from the own
    properties alone. *)
Lemma get_plain (props : list (string * value)) (k : string) :
  inherited k = Undefined -> get (Obj props) k = lookup k props.
Proof.
  intros H. cbn [get]. destruct (has_key k props) eqn:E; auto.
  now rewrite lookup_has_key.
Qed.

Lemma get_own_key (props : list (string * value)) (k : string) :
  has_key k props = true -> get (Obj props) k = lookup k props.
Proof. intros H. cbn [get]. now rewrite H. Qed.

Lemma put_plain (k : string) (v : value) (l : list (string * value)) :
  (k =? "__proto__") = false -> put k v l = set k v l.
Proof. intros H. unfold put. now rewrite H. Qed.

Lemma put_own_key (k : string) (v : value) (l : list (string * value)) :
  has_key k l = true -> put k v l = set k v l.
Proof. intros H. unfold put. now rewrite H, andb_false_r. Qed.

(** *** The [forEach] of [normalizeParams] on a plain object *)

Lemma typeof_stringified (v : value) :
  (typeof (stringified v) =? "object")%string = false.
Proof.
  unfold stringified, json.
  destruct v as [| |[|]| | | | | | |]; try reflexivity;
    cbn [typeof String.eqb Ascii.eqb Bool.eqb];
    now destruct (JSON_stringify _).
Qed.

Lemma stringified_again (v : value) : stringified (stringified v) = stringified v.
Proof.
  unfold stringified at 1. now rewrite typeof_stringified.
Qed.

Lemma set_map (g : value -> value) (k : string) (l : list (string * value)) :
  NoDup (map fst l) -> has_key k l = true ->
  set k (g (lookup k l)) l =
  map (fun kv => (fst kv, if fst kv =? k then g (snd kv) else snd kv)) l.
Proof.
  induction l as [|[k' v] l IH]; cbn [map fst snd set lookup has_key];
    [discriminate|].
  intros Hnd Hk. inversion Hnd as [|? ? Hout Hnd']; subst.
  destruct (String.eqb_spec k' k) as [->|Hne].
  - f_equal. transitivity (map (fun kv : string * value => kv) l);
      [now rewrite map_id|].
    apply map_ext_in. intros [k1 v1] Hin. cbn [fst snd].
    destruct (String.eqb_spec k1 k) as [->|]; auto.
    exfalso. apply Hout. apply in_map_iff. now exists (k, v1).
  - now rewrite IH.
Qed.

Lemma stringify_member_own (l : list (string * value)) (k : string) :
  has_key k l = true ->
  stringify_member (Obj l) k = Obj (set k (stringified (lookup k l)) l).
Proof.
  intros Hk. unfold stringify_member, stringified.
  rewrite get_own_key by assumption. cbn [assign].
  destruct (typeof (lookup k l) =? "object").
  - now rewrite put_own_key.
  - now rewrite set_same.
Qed.

Lemma keys_stringified_at (ks : list string) (l : list (string * value)) :
  map fst (stringified_at ks l) = map fst l.
Proof. unfold stringified_at. rewrite map_map. reflexivity. Qed.

Lemma has_key_map_values (f : string * value -> value) (k : string)
      (l : list (string * value)) :
  has_key k (map (fun kv => (fst kv, f kv)) l) = has_key k l.
Proof.
  induction l as [|[k' v] l IH]; cbn [map has_key fst]; auto.
  now rewrite IH.
Qed.

Lemma stringify_members (ks : list string) (l : list (string * value)) :
  NoDup (map fst l) -> (forall k, In k ks -> has_key k l = true) ->
  fold_left stringify_member ks (Obj l) = Obj (stringified_at ks l).
Proof.
  revert l. induction ks as [|k ks IH]; intros l Hnd Hks; cbn [fold_left].
  - unfold stringified_at. cbn [existsb]. f_equal.
    transitivity (map (fun kv : string * value => kv) l);
      [now rewrite map_id|].
    apply map_ext. now intros [k v].
  - rewrite stringify_member_own by (apply Hks; now left).
    rewrite (set_map stringified) by (auto; apply Hks; now left).
    rewrite IH.
    + f_equal. unfold stringified_at. rewrite map_map. apply map_ext.
      intros [k' v]. cbn [fst snd existsb]. f_equal.
      destruct (k' =? k), (existsb (String.eqb k') ks); cbn [orb]; auto.
      apply stringified_again.
    + rewrite map_map. exact Hnd.
    + intros k' Hk'. rewrite has_key_map_values. apply Hks. now right.
Qed.

Lemma stringified_at_all (ks : list string) (l : list (string * value)) :
  (forall k, In k (map fst l) -> In k ks) ->
  stringified_at ks l = stringified_props l.
Proof.
  intros H. unfold stringified_at, stringified_props.
  apply map_ext_in. intros [k v] Hin. cbn [fst snd].
  assert (existsb (String.eqb k) ks = true) as ->; [|reflexivity].
  apply existsb_exists. exists k. split; [|apply String.eqb_refl].
  apply H. apply in_map_iff. exists (k, v). split; [reflexivity|exact Hin].
Qed.

Lemma stringify_members_obj (props : list (string * value)) :
  NoDup (map fst props) ->
  fold_left stringify_member (own_keys (Obj props)) (Obj props) =
  Obj (stringified_props props).
Proof.
  intros Hnd. unfold own_keys. cbn [enumerate].
  rewrite stringify_members.
  - f_equal. apply stringified_at_all. intros k Hk.
    exact (proj2 (in_keys_own_order k props) Hk).
  - exact Hnd.
  - intros k Hk. apply has_key_In.
    exact (proj1 (in_keys_own_order k props) Hk).
Qed.

(** *** The [reduce] of [_sortObject] *)

Lemma sort_reduce_fold (g : string -> value)
      (children : list (string * result value)) (ks : list string)
      (acc : list (string * value)) :
  NoDup (map fst acc ++ ks) ->
  has_key "__proto__" acc = false ->
  (forall k, In k ks -> assoc (Ok Undefined) k children = Ok (g k)) ->
  fold_left (store_member children) ks (Ok acc) =
  Ok (acc ++ map (fun k => (k, g k))
                 (filter (fun k => negb (k =? "__proto__")) ks))%list.
Proof.
  revert acc. induction ks as [|k ks IH]; intros acc Hnd Hp Hg;
    cbn [fold_left filter map].
  - now rewrite app_nil_r.
  - unfold store_member at 2. cbn [bind]. rewrite (Hg k) by now left.
    cbn [bind].
    assert (~ In k (map fst acc)) as Hk.
    { apply NoDup_remove_2 in Hnd. rewrite in_app_iff in Hnd. tauto. }
    assert (NoDup (map fst acc ++ ks)) as Hnd'.
    { now apply NoDup_remove_1 in Hnd. }
    unfold put.
    destruct (String.eqb_spec k "__proto__") as [->|Hne];
      cbn [andb negb map].
    + rewrite Hp. cbn [negb]. apply IH; auto.
      intros k' Hk'. apply Hg. now right.
    + replace (set k (g k) acc) with (acc ++ [(k, g k)])%list.
      * rewrite IH.
        -- now rewrite <- app_assoc.
        -- rewrite map_app, <- app_assoc. exact Hnd.
        -- rewrite <- (app_nil_r acc).
           destruct (has_key "__proto__" ((acc ++ []) ++ [(k, g k)])) eqn:E;
             auto.
           apply has_key_In in E. rewrite app_nil_r, map_app, in_app_iff in E.
           cbn [map fst In] in E. destruct E as [E|[E|[]]]; [|congruence].
           apply has_key_In in E. congruence.
        -- intros k' Hk'. apply Hg. now right.
      * rewrite <- (app_nil_r acc) at 2. rewrite set_app_skip by auto.
        reflexivity.
Qed.

Lemma _sortObject_stringified (props : list (string * value)) :
  NoDup (map fst props) ->
  _sortObject (Obj (stringified_props props)) = Ok (Obj (canonical props)).
Proof.
  intros Hnd. cbn [_sortObject]. unfold sort_reduce, stringified_props.
  rewrite !map_map. cbn [fst snd].
  rewrite (sort_reduce_fold (fun k => stringified (lookup k props))).
  - reflexivity.
  - cbn [map app]. eapply Permutation_NoDup; [|exact Hnd].
    symmetry. apply sort_Permutation.
  - reflexivity.
  - intros k Hk.
    assert (In k (map fst props)) as Hin.
    { eapply Permutation_in; [apply sort_Permutation|exact Hk]. }
    clear Hk Hnd.
    induction props as [|[k' v] props IH]; cbn [map fst snd assoc lookup In] in *;
      [tauto|].
    destruct (String.eqb_spec k' k) as [->|Hne].
    + pose proof (typeof_stringified v) as Ht.
      destruct (stringified v); cbn in Ht; try discriminate; reflexivity.
    + apply IH. tauto.
Qed.

(** [normalizeParams] on a plain object: nested values become JSON text
    in place, and the string lists the fields of the sorted object. *)
Lemma normalizeParams_obj (props : list (string * value)) :
  NoDup (map fst props) ->
  normalizeParams (Obj props) =
  Ok (Obj (stringified_props props), canonical_string props).
Proof.
  intros Hnd. pose proof (stringify_members_obj props Hnd) as H.
  unfold normalizeParams, keys. cbn [nullish bind].
  fold (own_keys (Obj props)). rewrite H.
  rewrite (_sortObject_stringified props Hnd). reflexivity.
Qed.

Lemma canonical_Permutation (props props' : list (string * value)) :
  NoDup (map fst props) -> Permutation props props' ->
  canonical props = canonical props'.
Proof.
  intros Hnd Hp. unfold canonical.
  rewrite (sort_Permutation_eq (map fst props) (map fst props'))
    by now apply Permutation_map.
  apply map_ext. intros k. now rewrite (lookup_Permutation k props props').
Qed.

Lemma canonicalize_obj (props : list (string * value)) :
  NoDup (map fst props) ->
  canonicalize (Obj props) = Ok (canonical_string props).
Proof.
  intros Hnd. unfold canonicalize. now rewrite normalizeParams_obj.
Qed.

Lemma canonicalize_Permutation (props props' : list (string * value)) :
  NoDup (map fst props) -> Permutation props props' ->
  canonicalize (Obj props') = canonicalize (Obj props).
Proof.
  intros Hnd Hp.
  assert (NoDup (map fst props')) as Hnd'.
  { eapply Permutation_NoDup; [|exact Hnd]. now apply Permutation_map. }
  rewrite !canonicalize_obj by auto. unfold canonical_string.
  now rewrite (canonical_Permutation props props').
Qed.

(* ================================================================== *)
(** ** [encodeURIComponent] is injective and keeps separators out *)

Lemma encode_char_safe (c : ascii) : all_safe (encode_char c) = true.
Proof. destruct c as [[|] [|] [|] [|] [|] [|] [|] [|]]; reflexivity. Qed.

Lemma decode_first_encode_char (c : ascii) (rest : string) :
  decode_first (encode_char c ++ rest) = Some (c, rest).
Proof. destruct c as [[|] [|] [|] [|] [|] [|] [|] [|]]; reflexivity. Qed.

Lemma all_safe_app (a b : string) :
  all_safe (a ++ b) = (all_safe a && all_safe b)%bool.
Proof.
  induction a as [|c a IH]; simpl; auto. now rewrite IH, andb_assoc.
Qed.

Lemma encode_safe (s : string) : all_safe (encode s) = true.
Proof.
  induction s as [|c s IH]; simpl; auto.
  now rewrite all_safe_app, encode_char_safe, IH.
Qed.

Lemma all_safe_occurs (c : ascii) (s : string) :
  safe c = false -> all_safe s = true -> occurs c s = false.
Proof.
  intros Hc. induction s as [|c' s IH]; simpl; auto.
  rewrite andb_true_iff. intros [H1 H2]. rewrite (IH H2), orb_false_r.
  apply Ascii.eqb_neq. congruence.
Qed.

Lemma encode_inj (a b : string) : encode a = encode b -> a = b.
Proof.
  revert b. induction a as [|c a IH]; intros [|d b] H; auto.
  - apply (f_equal decode_first) in H. simpl in H.
    rewrite decode_first_encode_char in H. discriminate.
  - apply (f_equal decode_first) in H. simpl in H.
    rewrite decode_first_encode_char in H. discriminate.
  - apply (f_equal decode_first) in H. simpl in H.
    rewrite !decode_first_encode_char in H. inversion H; subst.
    f_equal. now apply IH.
Qed.

Lemma occurs_app (c : ascii) (a b : string) :
  occurs c (a ++ b) = (occurs c a || occurs c b)%bool.
Proof.
  induction a as [|c' a IH]; simpl; auto. now rewrite IH, orb_assoc.
Qed.

(** Splitting at the first separator *)
Lemma split_at_separator (c : ascii) (x y r r' : string) :
  occurs c x = false -> occurs c y = false ->
  (x ++ String c r = y ++ String c r')%string -> x = y /\ r = r'.
Proof.
  revert y. induction x as [|a x IH]; intros [|b y]; simpl; intros Hx Hy H.
  - inversion H. auto.
  - inversion H; subst. now rewrite Ascii.eqb_refl in Hy.
  - inversion H; subst. now rewrite Ascii.eqb_refl in Hx.
  - inversion H; subst. apply orb_false_iff in Hx, Hy.
    destruct (IH y) as [-> ->]; tauto.
Qed.

Lemma join_cons (c : ascii) (x : string) (xs : list string) :
  join (String c "") (x :: xs) =
  match xs with
  | [] => x
  | _ => (x ++ String c (join (String c "") xs))%string
  end.
Proof. destruct xs; reflexivity. Qed.

Lemma join_inj (c : ascii) (xs ys : list string) :
  Forall (fun x => occurs c x = false /\ x <> ""%string) xs ->
  Forall (fun x => occurs c x = false /\ x <> ""%string) ys ->
  join (String c "") xs = join (String c "") ys -> xs = ys.
Proof.
  intros Hxs. revert ys.
  induction Hxs as [|x xs [Hx Hx0] Hxs IH]; intros ys Hys H.
  - destruct Hys as [|y ys [Hy Hy0] Hys]; auto.
    rewrite join_cons in H. simpl in H.
    destruct ys; [congruence|]. destruct y; [congruence|discriminate].
  - destruct Hys as [|y ys [Hy Hy0] Hys].
    + rewrite join_cons in H. simpl in H.
      destruct xs; [congruence|]. destruct x; [congruence|discriminate].
    + rewrite !join_cons in H. destruct xs as [|x' xs], ys as [|y' ys].
      * congruence.
      * subst x. rewrite occurs_app in Hx. simpl in Hx.
        rewrite Ascii.eqb_refl, orb_true_r in Hx. discriminate.
      * subst y. rewrite occurs_app in Hy. simpl in Hy.
        rewrite Ascii.eqb_refl, orb_true_r in Hy. discriminate.
      * apply split_at_separator in H; auto. destruct H as [-> H].
        f_equal. now apply IH.
Qed.

Lemma field_shape (kv : string * value) :
  occurs "&" (querystring.field kv) = false /\
  querystring.field kv <> ""%string.
Proof.
  unfold querystring.field. split.
  - rewrite !occurs_app. simpl.
    now rewrite !(all_safe_occurs "&") by (auto using encode_safe).
  - destruct (encode (fst kv)); discriminate.
Qed.

Lemma field_inj (k k' : string) (v v' : value) :
  querystring.field (k, v) = querystring.field (k', v') ->
  k = k' /\ querystring.stringifyPrimitive v = querystring.stringifyPrimitive v'.
Proof.
  unfold querystring.field. simpl. intros H.
  apply split_at_separator in H;
    try (apply all_safe_occurs; auto using encode_safe).
  destruct H as [H1 H2]. split; now apply encode_inj.
Qed.

(** Different methods, urls or canonical strings give different
    fingerprints. *)
Lemma fingerprint_inj (m u m' u' h b h' b' : string) :
  fingerprint (Str m) (Str u) h b = fingerprint (Str m') (Str u') h' b' ->
  m = m' /\ u = u' /\ h = h' /\ b = b'.
Proof.
  unfold fingerprint, encodeURIComponent. simpl. intros H.
  apply split_at_separator in H;
    try (apply all_safe_occurs; auto using encode_safe).
  destruct H as [Hm H].
  apply split_at_separator in H;
    try (apply all_safe_occurs; auto using encode_safe).
  destruct H as [Hu H].
  apply split_at_separator in H;
    try (apply all_safe_occurs; auto using encode_safe).
  destruct H as [Hh Hb].
  repeat split; now apply encode_inj.
Qed.

(** *** Canonical strings and fingerprints *)

Lemma deriveKey_fingerprint (method url headers body : value) :
  deriveKey method url headers body =
  (fp <- fingerprint_of method url headers body ;;
   Ok (string_hash.stringHash fp)).
Proof.
  unfold deriveKey, requestKey, fingerprint_of, canonicalize.
  cbn [member nullish get has_key lookup String.eqb Ascii.eqb
       Bool.eqb bind].
  destruct (normalizeParams headers) as [[h hs]|]; cbn [bind]; auto.
  destruct (normalizeParams body) as [[b bs]|]; cbn [bind]; auto.
Qed.

Lemma props_of_lookup (props : list (string * value)) :
  NoDup (map fst props) ->
  map (fun k => (k, lookup k props)) (map fst props) = props.
Proof.
  induction props as [|[k v] props IH]; simpl; intros Hnd; auto.
  inversion Hnd as [|? ? Hk Hnd']; subst.
  rewrite String.eqb_refl. f_equal.
  rewrite <- (IH Hnd') at 2. apply map_ext_in. intros k' Hk'.
  destruct (String.eqb_spec k k'); congruence.
Qed.

Lemma lookup_all_strings (k : string) (props : list (string * value)) :
  all_strings props = true -> In k (map fst props) ->
  is_string (lookup k props) = true.
Proof.
  induction props as [|[k' v] props IH]; simpl; [tauto|].
  rewrite andb_true_iff. intros [Hv Hall] Hin.
  destruct (String.eqb_spec k' k); auto. apply IH; tauto.
Qed.

Lemma fields_inj (l l' : list (string * value)) :
  map querystring.field l = map querystring.field l' ->
  map fst l = map fst l' /\
  forall k, querystring.stringifyPrimitive (lookup k l) =
            querystring.stringifyPrimitive (lookup k l').
Proof.
  revert l'. induction l as [|[k v] l IH]; intros [|[k' v'] l'] H;
    try discriminate.
  - split; reflexivity.
  - cbn [map] in H. inversion H as [[H1 H2]].
    apply field_inj in H1. destruct H1 as [<- H1].
    destruct (IH _ H2) as [Hk Hv]. split.
    + cbn [map fst]. now rewrite Hk.
    + intros k0. cbn [lookup]. destruct (k =? k0); auto.
Qed.

Lemma filter_all {X : Type} (p : X -> bool) (l : list X) :
  (forall x, In x l -> p x = true) -> filter p l = l.
Proof.
  induction l as [|x l IH]; intros H; cbn [filter]; [reflexivity|].
  rewrite (H x) by now left. f_equal. apply IH. intros y Hy. apply H.
  now right.
Qed.

Lemma keys_canonical (props : list (string * value)) :
  map fst (canonical props) =
  filter (fun k => negb (k =? "__proto__")) (sort (map fst props)).
Proof. unfold canonical. rewrite map_map. cbn [fst]. apply map_id. Qed.

Lemma keys_canonical_no_proto (props : list (string * value)) :
  no_proto props = true ->
  map fst (canonical props) = sort (map fst props).
Proof.
  intros H. rewrite keys_canonical. apply filter_all. intros k Hk.
  apply negb_true_iff. apply String.eqb_neq. intros ->.
  unfold no_proto in H. apply negb_true_iff in H. apply has_key_false in H.
  apply H. eapply Permutation_in; [apply sort_Permutation|exact Hk].
Qed.

Lemma NoDup_keys_canonical (props : list (string * value)) :
  NoDup (map fst props) -> NoDup (map fst (canonical props)).
Proof.
  intros H. rewrite keys_canonical. apply NoDup_filter.
  eapply Permutation_NoDup; [|exact H]. symmetry. apply sort_Permutation.
Qed.

Lemma lookup_keyed (g : string -> value) (k : string) (ks : list string) :
  In k ks -> lookup k (map (fun k => (k, g k)) ks) = g k.
Proof.
  induction ks as [|a ks IH]; [intros []|]. cbn [map lookup].
  destruct (String.eqb_spec a k) as [->|Hne]; auto.
  intros [|H]; [congruence|auto].
Qed.

Lemma lookup_canonical (k : string) (props : list (string * value)) :
  In k (map fst (canonical props)) ->
  lookup k (canonical props) = stringified (lookup k props).
Proof.
  rewrite keys_canonical. intros H. unfold canonical.
  now rewrite (lookup_keyed (fun k => stringified (lookup k props))).
Qed.

Lemma canonicalize_flat_inj (props props' : list (string * value)) :
  NoDup (map fst props) -> NoDup (map fst props') ->
  all_strings props = true -> all_strings props' = true ->
  no_proto props = true -> no_proto props' = true ->
  canonicalize (Obj props) = canonicalize (Obj props') ->
  Permutation props props'.
Proof.
  intros Hnd Hnd' Hs Hs' Hp Hp' H.
  rewrite !canonicalize_obj in H by assumption. inversion H as [H0].
  unfold canonical_string in H0.
  apply join_inj in H0;
    try (apply Forall_forall; intros x Hx; apply in_map_iff in Hx;
         destruct Hx as [kv [<- _]]; apply field_shape).
  apply fields_inj in H0. destruct H0 as [Hks Hvs].
  assert (Permutation (map fst props) (map fst props')) as Hperm.
  { rewrite <- (sort_Permutation (map fst props)).
    rewrite <- (sort_Permutation (map fst props')).
    rewrite <- (keys_canonical_no_proto props Hp).
    rewrite <- (keys_canonical_no_proto props' Hp').
    rewrite <- (keys_own_order_Permutation (canonical props)).
    rewrite <- (keys_own_order_Permutation (canonical props')).
    now rewrite Hks. }
  rewrite <- (props_of_lookup props Hnd), <- (props_of_lookup props' Hnd').
  apply Permutation_trans
    with (map (fun k => (k, lookup k props)) (map fst props')).
  - now apply Permutation_map.
  - apply Permutation_refl'. apply map_ext_in. intros k Hk. f_equal.
    assert (In k (map fst props)) as Hk'.
    { eapply Permutation_in; [symmetry; exact Hperm|exact Hk]. }
    specialize (Hvs k).
    rewrite !lookup_own_order in Hvs by now apply NoDup_keys_canonical.
    rewrite !lookup_canonical in Hvs.
    + pose proof (lookup_all_strings k props Hs Hk') as H1.
      pose proof (lookup_all_strings k props' Hs' Hk) as H2.
      destruct (lookup k props), (lookup k props'); try discriminate.
      unfold stringified in Hvs. cbn in Hvs. congruence.
    + rewrite keys_canonical_no_proto by assumption.
      eapply Permutation_in; [symmetry; apply sort_Permutation|exact Hk].
    + rewrite keys_canonical_no_proto by assumption.
      eapply Permutation_in; [symmetry; apply sort_Permutation|exact Hk'].
Qed.

(** *** [normalizeParams] on any value *)

Lemma nonobj_json (v : value) : nonobj (json v).
Proof. unfold nonobj, json. now destruct (JSON_stringify v). Qed.

Lemma string_of_Z_not_length (i : Z) : string_of_Z i <> "length".
Proof.
  unfold string_of_Z. destruct (Z.to_int i) as [d|d]; destruct d; discriminate.
Qed.

Lemma lookup_length_indexed {X : Type} (i : Z) (items : list X) :
  ~ In "length" (map fst (indexed i items)).
Proof.
  revert i. induction items as [|x items IH]; intros i; cbn [indexed map fst In];
    [tauto|].
  intros [E|H]; [now apply string_of_Z_not_length in E|now apply IH in H].
Qed.

(** A key that [Object.keys] lists is read from the own properties. *)
Lemma get_own_property (p : value) (k : string) :
  In k (map fst (own_props p)) -> get p k = lookup k (own_props p).
Proof.
  intros Hk.
  destruct p as [| |b|n|s|items|props|src|[key|item]|]; cbn [own_props] in *;
    try (now destruct Hk); cbn [get].
  - destruct (String.eqb_spec k "length") as [->|]; [|reflexivity].
    now apply lookup_length_indexed in Hk.
  - destruct (String.eqb_spec k "length") as [->|]; [|reflexivity].
    now apply lookup_length_indexed in Hk.
  - apply has_key_In in Hk. now rewrite Hk.
Qed.

Lemma own_keys_own (p : value) (k : string) :
  In k (own_keys p) <-> In k (map fst (own_props p)).
Proof.
  unfold own_keys. destruct p; cbn [enumerate own_props]; try tauto.
  apply in_keys_own_order.
Qed.

Lemma stringify_member_settled (p : value) (k : string) :
  settled p -> In k (map fst (own_props p)) -> stringify_member p k = p.
Proof.
  intros H Hk. unfold stringify_member.
  rewrite get_own_property by assumption. now rewrite (H k).
Qed.

Lemma stringify_members_settled (p : value) (ks : list string) :
  settled p -> (forall k, In k ks -> In k (map fst (own_props p))) ->
  fold_left stringify_member ks p = p.
Proof.
  intros H. induction ks as [|k ks IH]; intros Hks; cbn [fold_left]; auto.
  rewrite stringify_member_settled by (auto; apply Hks; now left).
  apply IH. intros k' Hk'. apply Hks. now right.
Qed.

Lemma stringify_members_props (ks : list string) (l : list (string * value)) :
  (forall k, In k ks -> has_key k l = true) ->
  exists l',
    fold_left stringify_member ks (Obj l) = Obj l' /\
    map fst l' = map fst l /\
    forall k, In k ks \/ nonobj (lookup k l) -> nonobj (lookup k l').
Proof.
  revert l. induction ks as [|k0 ks IH]; intros l Hks; cbn [fold_left].
  - exists l. split; [reflexivity|]. split; [reflexivity|].
    now intros k [[]|H].
  - rewrite stringify_member_own by (apply Hks; now left).
    assert (has_key k0 l = true) as Hk0 by (apply Hks; now left).
    destruct (IH (set k0 (stringified (lookup k0 l)) l)) as (l' & -> & Hkeys & H').
    { intros k Hk. rewrite has_key_set. rewrite (Hks k) by now right.
      apply orb_true_r. }
    exists l'. split; [reflexivity|]. split.
    + rewrite Hkeys, keys_set. now rewrite Hk0.
    + intros k [[<-|Hk]|Hk]; apply H'; auto; right; rewrite lookup_set.
      * rewrite String.eqb_refl. apply typeof_stringified.
      * destruct (k0 =? k); [apply typeof_stringified|exact Hk].
Qed.

Lemma indexed_set_item (k : string) (v : value) (i : Z) (items : list value) :
  indexed i (set_item k v i items) =
  if has_key k (indexed i items) then set k v (indexed i items)
  else indexed i items.
Proof.
  revert i. induction items as [|x items IH]; intros i;
    cbn [indexed set_item has_key set]; auto.
  destruct (String.eqb_spec (string_of_Z i) k) as [E|Hne];
    cbn [indexed]; [now rewrite E|].
  rewrite IH. now destruct (has_key k (indexed (i + 1) items)).
Qed.

Lemma stringify_members_items (ks : list string) (items : list value) :
  (forall k, In k ks -> has_key k (indexed 0 items) = true) ->
  exists items',
    fold_left stringify_member ks (Arr items) = Arr items' /\
    map fst (indexed 0 items') = map fst (indexed 0 items) /\
    forall k, In k ks \/ nonobj (lookup k (indexed 0 items)) ->
              nonobj (lookup k (indexed 0 items')).
Proof.
  revert items. induction ks as [|k0 ks IH]; intros items Hks; cbn [fold_left].
  - exists items. split; [reflexivity|]. split; [reflexivity|].
    now intros k [[]|H].
  - assert (has_key k0 (indexed 0 items) = true) as Hk0 by (apply Hks; now left).
    assert (stringify_member (Arr items) k0 =
            Arr (set_item k0 (stringified (lookup k0 (indexed 0 items))) 0 items))
      as ->.
    { unfold stringify_member, stringified.
      rewrite get_own_property
        by (cbn [own_props]; now apply has_key_In).
      cbn [own_props assign].
      destruct (typeof (lookup k0 (indexed 0 items)) =? "object"); auto.
      f_equal.
      assert (forall i l, has_key k0 (indexed i l) = true ->
                          set_item k0 (lookup k0 (indexed i l)) i l = l) as Hid.
      { intros i l. revert i. induction l as [|x l IHl]; intros i;
          cbn [indexed has_key lookup set_item]; [discriminate|].
        destruct (string_of_Z i =? k0); auto. intros H. now rewrite IHl. }
      symmetry. now apply Hid. }
    set (items1 := set_item k0 _ 0 items).
    assert (indexed 0 items1 =
            set k0 (stringified (lookup k0 (indexed 0 items))) (indexed 0 items))
      as Hitems1.
    { subst items1. now rewrite indexed_set_item, Hk0. }
    destruct (IH items1) as (items' & -> & Hkeys & H').
    { intros k Hk. rewrite Hitems1, has_key_set. rewrite (Hks k) by now right.
      apply orb_true_r. }
    exists items'. split; [reflexivity|]. split.
    + rewrite Hkeys, Hitems1, keys_set. now rewrite Hk0.
    + intros k [[<-|Hk]|Hk]; apply H'; auto; right;
        rewrite Hitems1, lookup_set.
      * rewrite String.eqb_refl. apply typeof_stringified.
      * destruct (k0 =? k); [apply typeof_stringified|exact Hk].
Qed.

Lemma lookup_indexed_nonobj (k : string) (i : Z) (items : list value) :
  Forall nonobj items -> nonobj (lookup k (indexed i items)).
Proof.
  intros H. revert i.
  induction H as [|x items Hx _ IH]; intros i; cbn [indexed lookup].
  - reflexivity.
  - destruct (string_of_Z i =? k); auto.
Qed.

Lemma chars_nonobj (s : string) : Forall nonobj (chars s).
Proof. induction s; simpl; constructor; auto. reflexivity. Qed.

Lemma in_keys_lookup (k : string) (l : list (string * value)) :
  ~ In k (map fst l) -> nonobj (lookup k l).
Proof. intros H. now rewrite lookup_not_in. Qed.

Lemma stringify_members_all (p : value) :
  nullish p = false ->
  exists p',
    fold_left stringify_member (own_keys p) p = p' /\
    settled p' /\ nullish p' = false /\
    map fst (own_props p') = map fst (own_props p).
Proof.
  intros Hp. destruct p as [| |b|n|s|items|props|src|sc|];
    try discriminate; unfold own_keys; cbn [enumerate own_props].
  - exists (Bool b). repeat split; auto; intros k; reflexivity.
  - exists (Num n). repeat split; auto; intros k; reflexivity.
  - assert (settled (Str s)) as Hs.
    { intros k. cbn [own_props].
      apply lookup_indexed_nonobj, chars_nonobj. }
    rewrite stringify_members_settled by (auto; cbn [own_props]; auto).
    exists (Str s). repeat split; auto.
  - destruct (stringify_members_items (map fst (indexed 0 items)) items)
      as (items' & -> & Hkeys & H); [intros k Hk; now apply has_key_In|].
    exists (Arr items'). repeat split; auto; intros k; cbn [own_props].
    apply H. destruct (in_dec string_dec k (map fst (indexed 0 items))); auto.
    right. now apply in_keys_lookup.
  - destruct (stringify_members_props (map fst (own_order props)) props)
      as (props' & -> & Hkeys & H).
    { intros k Hk. apply has_key_In.
      exact (proj1 (in_keys_own_order k props) Hk). }
    exists (Obj props'). repeat split; auto; intros k; cbn [own_props].
    apply H. destruct (in_dec string_dec k (map fst props)) as [Hin|Hout].
    + left. exact (proj2 (in_keys_own_order k props) Hin).
    + right. now apply in_keys_lookup.
  - exists (Fn src). repeat split; auto; intros k; reflexivity.
  - exists (SchemaObj sc). repeat split; auto; intros k; reflexivity.
  - exists ObjectPrototype. repeat split; auto; intros k; reflexivity.
Qed.

(** [_sortObject] on a value whose properties hold no object *)

Lemma sort_reduce_ok (children : list (string * result value)) :
  (forall k, exists v, assoc (Ok Undefined) k children = Ok v) ->
  exists r, sort_reduce children = Ok r.
Proof.
  intros H. unfold sort_reduce.
  assert (forall ks acc, exists r,
             fold_left (store_member children) ks (Ok acc) = Ok r) as Hfold.
  { induction ks as [|k ks IH]; intros acc; cbn [fold_left]; eauto.
    unfold store_member at 2. cbn [bind].
    destruct (H k) as [v ->]. cbn [bind]. apply IH. }
  destruct (Hfold (sort (map fst children)) []) as [r ->]. cbn [bind]. eauto.
Qed.

Lemma assoc_map_children (f : value -> result value) (k : string)
      (l : list (string * value)) :
  f Undefined = Ok Undefined ->
  assoc (Ok Undefined) k (map (fun kv => (fst kv, f (snd kv))) l) =
  f (lookup k l).
Proof.
  intros Hf. induction l as [|[k' v] l IH]; simpl; auto.
  now destruct (k' =? k).
Qed.

Lemma indexed_map {A B : Type} (f : A -> B) (i : Z) (l : list A) :
  indexed i (map f l) = map (fun kv => (fst kv, f (snd kv))) (indexed i l).
Proof.
  revert i. induction l as [|x l IH]; intros i; cbn [map indexed]; auto.
  now rewrite IH.
Qed.

Lemma _sortObject_eq (obj : value) :
  _sortObject obj =
  match obj with
  | Null => Throw TypeError
  | Obj props =>
      sort_reduce (map (fun kv => (fst kv, sorted_member (snd kv))) props)
  | Arr items =>
      sort_reduce (map (fun kv => (fst kv, sorted_member (snd kv)))
                       (indexed 0 items))
  | Str s =>
      sort_reduce (map (fun kv => (fst kv, Ok (snd kv))) (indexed 0 (chars s)))
  | _ => sort_reduce []
  end.
Proof.
  destruct obj; try reflexivity; cbn [_sortObject]; now rewrite indexed_map.
Qed.

Lemma sorted_member_nonobj (v : value) : nonobj v -> sorted_member v = Ok v.
Proof. unfold nonobj. now destruct v. Qed.

Lemma _sortObject_settled (p : value) :
  settled p -> p <> Null -> exists r, _sortObject p = Ok r.
Proof.
  intros Hs Hn. rewrite _sortObject_eq.
  destruct p as [| |b|n|s|items|props|src|sc|];
    try congruence; apply sort_reduce_ok; intros k; try (simpl; eauto; fail).
  - rewrite (assoc_map_children (fun v => Ok v)) by reflexivity. eauto.
  - rewrite (assoc_map_children sorted_member) by reflexivity.
    rewrite sorted_member_nonobj by apply (Hs k). eauto.
  - rewrite (assoc_map_children sorted_member) by reflexivity.
    rewrite sorted_member_nonobj by apply (Hs k). eauto.
Qed.

Lemma normalizeParams_defined (params : value) :
  nullish params = false ->
  normalizeParams params =
  (sorted <- _sortObject (fold_left stringify_member (own_keys params) params) ;;
   Ok (fold_left stringify_member (own_keys params) params,
       querystring.stringify sorted)).
Proof.
  intros H. unfold normalizeParams, keys, own_keys.
  destruct params; try discriminate; reflexivity.
Qed.

(** [normalizeParams] returns on every value but [null], and a second
    call on what it leaves changes nothing. *)
Lemma normalizeParams_total (params : value) :
  params <> Null -> exists ps, normalizeParams params = Ok ps.
Proof.
  intros Hn. destruct (nullish params) eqn:Hp.
  - destruct params; try discriminate; [|congruence].
    eexists. reflexivity.
  - rewrite normalizeParams_defined by assumption.
    destruct (stringify_members_all params Hp) as (p' & -> & Hs & Hp' & _).
    destruct (_sortObject_settled p' Hs) as [r ->]; [now destruct p'|].
    cbn [bind]. eauto.
Qed.

Lemma normalizeParams_again (params params' : value) (s : string) :
  normalizeParams params = Ok (params', s) ->
  normalizeParams params' = Ok (params', s).
Proof.
  intros H. destruct (nullish params) eqn:Hp.
  - destruct params; try discriminate. inversion H. subst. reflexivity.
  - rewrite normalizeParams_defined in H by assumption.
    destruct (stringify_members_all params Hp) as (p' & Hp' & Hs & Hn & _).
    rewrite Hp' in H.
    destruct (_sortObject p') as [r|] eqn:Hr; [|discriminate].
    cbn [bind] in H. inversion H. subst params' s.
    rewrite normalizeParams_defined by assumption.
    rewrite stringify_members_settled; [now rewrite Hr|assumption|].
    intros k. apply own_keys_own.
Qed.

(* ================================================================== *)
(** ** The resolver: [findInState] *)

Lemma member_defined (v : value) (k : string) :
  nullish v = false -> member v k = Ok (get v k).
Proof. unfold member. now intros ->. Qed.

Lemma is_object_defined (v : value) : is_object v = true -> nullish v = false.
Proof. now destruct v. Qed.

Lemma truthy_defined (v : value) : truthy v = true -> nullish v = false.
Proof. now destruct v. Qed.

Lemma schemaKey_defined (rd : value) (key : value) :
  schemaKey rd = Ok key -> nullish rd = false.
Proof. unfold schemaKey, member. now destruct (nullish rd). Qed.

Lemma findInState_well_formed (state rd : value) (key : string) :
  well_formed state rd key = true ->
  schemaKey rd = Ok (Str key) ->
  findInState state rd =
  match recorded state rd key with
  | Undefined => Ok (Bool false)
  | _ =>
      if truthy (get (meta_of state rd) "didInvalidate")
      then Ok (Bool false)
      else Ok (Obj [("meta", meta_of state rd);
                    ("value", resolved state rd key)])
  end.
Proof.
  intros Hwf Hkey. pose proof (schemaKey_defined _ _ Hkey) as Hrd.
  unfold well_formed in Hwf.
  repeat (apply andb_true_iff in Hwf; destruct Hwf as [Hwf ?]).
  unfold findInState.
  rewrite (member_defined state) by now apply is_object_defined.
  cbn [bind].
  rewrite !(member_defined (get state "connect")) by now apply is_object_defined.
  cbn [bind]. rewrite !(member_defined rd) by assumption. cbn [bind].
  rewrite Hkey. cbn [bind to_string].
  fold (or_empty (get (get state "connect") "paramsToResources")).
  fold (or_empty (get (get state "connect") "resources")).
  fold (ledger state). fold (entities state).
  assert (nullish (ledger state) = false) as Hl.
  { unfold ledger. now destruct (get (get state "connect") "paramsToResources"). }
  assert (nullish (entities state) = false) as He.
  { unfold entities. now destruct (get (get state "connect") "resources"). }
  rewrite !(member_defined (ledger state)) by assumption.
  fold (entry_of state rd). cbn [bind].
  unfold recorded, meta_of, resolved, joined, recorded in *.
  destruct (entry_of state rd) as [| | | | | |eprops| | |] eqn:Hentry;
    try discriminate; [reflexivity|].
  repeat (apply andb_true_iff in H; destruct H as [H ?]).
  apply negb_true_iff in H.
  cbn [truthy bind]. rewrite (member_defined (Obj eprops)) by reflexivity.
  cbn [bind]. rewrite member_defined by now apply is_object_defined.
  cbn [bind].
  destruct (get (get (Obj eprops) "data") key) as [| | | | |ids| | | |] eqn:Hids;
    try discriminate; [reflexivity|].
  cbn [truthy negb bind]. rewrite (member_defined (Obj eprops)) by reflexivity.
  cbn [bind]. rewrite member_defined by assumption. cbn [bind].
  destruct (truthy (get (get (Obj eprops) "meta") "didInvalidate"));
    [reflexivity|].
  rewrite (member_defined (entities state)) by assumption. cbn [bind].
  destruct (truthy (get (entities state) key)).
  - cbn [bind truthy negb].
    destruct (truthy (get rd "isArray")); cbn [negb bind];
      [reflexivity|].
    now rewrite member_defined by reflexivity.
  - cbn [bind truthy negb].
    destruct (truthy (get rd "isArray")); cbn [negb bind];
      [reflexivity|].
    now rewrite member_defined by reflexivity.
Qed.

(** What the resolver does on a state with plain tables, step by step *)
Lemma findInState_plain (state rd r : value) :
  plain_tables state rd = true ->
  findInState state rd = Ok r ->
  exists key,
    schemaKey rd = Ok (Str key) /\
    ((guard state rd key = true /\ r = Bool false) \/
     (guard state rd key = false /\
      exists v, r = Obj [("meta", meta_of state rd); ("value", v)])).
Proof.
  intros _ H. unfold findInState in H.
  destruct (nullish state) eqn:Hstate;
    [unfold member in H; rewrite Hstate in H; discriminate|].
  rewrite (member_defined state) in H by assumption. cbn [bind] in H.
  destruct (nullish (get state "connect")) eqn:Hconnect;
    [unfold member in H; rewrite Hconnect in H; discriminate|].
  rewrite !(member_defined (get state "connect")) in H by assumption.
  cbn [bind] in H.
  destruct (nullish rd) eqn:Hrd;
    [unfold member in H; rewrite Hrd in H; discriminate|].
  rewrite !(member_defined rd) in H by assumption. cbn [bind] in H.
  destruct (schemaKey rd) as [k|] eqn:Hkey; [|discriminate].
  assert (exists key, k = Str key) as [key ->].
  { unfold schemaKey in Hkey. rewrite member_defined in Hkey by assumption.
    cbn [bind] in Hkey.
    destruct (get rd "schema") as [| | | | | | | |[?|[?|?]]|];
      try discriminate; inversion Hkey; eauto. }
  exists key. split; [reflexivity|]. cbn [bind to_string] in H.
  fold (or_empty (get (get state "connect") "paramsToResources")) in H.
  fold (or_empty (get (get state "connect") "resources")) in H.
  fold (ledger state) in H. fold (entities state) in H.
  destruct (nullish (ledger state)) eqn:Hl;
    [unfold member in H; rewrite Hl in H; discriminate|].
  rewrite !(member_defined (ledger state)) in H by assumption.
  fold (entry_of state rd) in H. cbn [bind] in H.
  unfold guard, recorded, meta_of.
  destruct (truthy (entry_of state rd)) eqn:Hentry.
  - pose proof (truthy_defined _ Hentry) as Hen.
    rewrite (member_defined (entry_of state rd)) in H by assumption.
    cbn [bind] in H.
    destruct (nullish (get (entry_of state rd) "data")) eqn:Hdata;
      [unfold member in H; rewrite Hdata in H; discriminate|].
    rewrite member_defined in H by assumption. cbn [bind] in H.
    destruct (truthy (get (get (entry_of state rd) "data") key)) eqn:Hrec;
      cbn [negb bind orb] in *.
    + rewrite (member_defined (entry_of state rd)) in H by assumption.
      cbn [bind] in H.
      destruct (nullish (get (entry_of state rd) "meta")) eqn:Hmeta;
        [unfold member in H; rewrite Hmeta in H; discriminate|].
      rewrite member_defined in H by assumption. cbn [bind] in H.
      destruct (truthy (get (get (entry_of state rd) "meta") "didInvalidate"));
        [inversion H; now left|].
      right. split; [reflexivity|].
      repeat match type of H with
             | bind (member (entry_of state rd) _) _ = Ok _ =>
                 rewrite (member_defined (entry_of state rd)) in H
                   by assumption;
                 cbn [bind] in H
             | bind ?m _ = Ok _ =>
                 let v := fresh "v" in
                 destruct m as [v|]; cbn [bind] in H; [|discriminate]
             end.
      inversion H. eauto.
    + inversion H. now left.
  - left. cbn [bind] in H.
    assert (truthy (get (get (entry_of state rd) "data") key) = false) as ->.
    { destruct (entry_of state rd) as [| |b|n|s| | | | |]; try discriminate;
        try reflexivity.
      cbn [truthy] in Hentry. apply negb_false_iff in Hentry.
      apply String.eqb_eq in Hentry. subst s. reflexivity. }
    rewrite Hentry in H. cbn [negb bind orb] in *. now inversion H.
Qed.

Lemma entry_of_user_state (rk meta ids bucket schema dv : value) (a : bool) :
  entry_of (user_state rk meta ids bucket) (user_definition schema a dv rk) =
  Obj [("meta", meta); ("data", Obj [("user", ids)])].
Proof.
  unfold entry_of, ledger, user_state, user_definition.
  cbn [get has_key lookup String.eqb Ascii.eqb Bool.eqb or_empty].
  now rewrite String.eqb_refl.
Qed.

Lemma entities_user_state (rk meta ids bucket : value) :
  get (entities (user_state rk meta ids bucket)) "user" = bucket.
Proof. reflexivity. Qed.

(** C3. With ids [1, 2] recorded under "user" for the request and the
    entities [A] and [B] stored under those ids, the resolver returns a
    hit whose value is [[A, B]] for the collection schema and [A] alone
    for the singular schema. *)
Theorem resolver_joins_recorded_ids (rk meta A B dv : value) :
  nullish meta = false ->
  truthy (get meta "didInvalidate") = false ->
  let state :=
    user_state rk meta (Arr [Num 1; Num 2]) (Obj [("1", A); ("2", B)]) in
  findInState state (user_definition usersSchema true dv rk) =
    Ok (Obj [("meta", meta); ("value", Arr [A; B])]) /\
  findInState state (user_definition userSchema false dv rk) =
    Ok (Obj [("meta", meta); ("value", A)]).
Proof.
  intros Hmeta Hvalid state. subst state.
  split.
  - rewrite (findInState_well_formed _ _ "user").
    + unfold recorded, meta_of, resolved, joined, recorded.
      rewrite entities_user_state, entry_of_user_state.
      cbn [get has_key lookup String.eqb Ascii.eqb Bool.eqb].
      rewrite Hvalid. reflexivity.
    + unfold well_formed, recorded, meta_of.
      rewrite entry_of_user_state.
      cbn [get has_key lookup String.eqb Ascii.eqb Bool.eqb].
      now rewrite Hmeta.
    + reflexivity.
  - rewrite (findInState_well_formed _ _ "user").
    + unfold recorded, meta_of, resolved, joined, recorded.
      rewrite entities_user_state, entry_of_user_state.
      cbn [get has_key lookup String.eqb Ascii.eqb Bool.eqb].
      rewrite Hvalid. reflexivity.
    + unfold well_formed, recorded, meta_of.
      rewrite entry_of_user_state.
      cbn [get has_key lookup String.eqb Ascii.eqb Bool.eqb].
      now rewrite Hmeta.
    + reflexivity.
Qed.

Lemma resolver_joins_recorded_ids_witness :
  let alice := Obj [("id", Num 1); ("name", Str "Alice")] in
  let bob := Obj [("id", Num 2); ("name", Str "Bob")] in
  let state :=
    user_state (Num 3901600212) fresh_meta (Arr [Num 1; Num 2])
               (Obj [("1", alice); ("2", bob)]) in
  findInState state (user_definition usersSchema true (Arr []) (Num 3901600212)) =
    Ok (Obj [("meta", fresh_meta); ("value", Arr [alice; bob])]) /\
  findInState state (user_definition userSchema false (Obj []) (Num 3901600212)) =
    Ok (Obj [("meta", fresh_meta); ("value", alice)]).
Proof.
  intros alice bob state. split.
  - apply (resolver_joins_recorded_ids (Num 3901600212) fresh_meta alice bob
                                        (Arr [])); reflexivity.
  - apply (resolver_joins_recorded_ids (Num 3901600212) fresh_meta alice bob
                                        (Obj [])); reflexivity.
Defined.

(** C4, as amended.  On a state as the reducer keeps it, where the
    ledger entry of the definition records a list of ids or nothing
    under the entity type, the resolver misses exactly when the ledger
    has no entry under the request key, or the entry's data has nothing
    under the entity type, or the entry's [meta.didInvalidate] is set;
    otherwise it returns a hit that carries the entry's meta. *)
Theorem resolver_miss_iff (state resourceDefinition : value) (key : string) :
  well_formed state resourceDefinition key = true ->
  schemaKey resourceDefinition = Ok (Str key) ->
  (findInState state resourceDefinition = Ok (Bool false) <->
   miss state resourceDefinition key) /\
  (~ miss state resourceDefinition key ->
   exists v,
     findInState state resourceDefinition =
     Ok (Obj [("meta", meta_of state resourceDefinition); ("value", v)])).
Proof.
  intros Hwf Hkey. rewrite (findInState_well_formed _ _ key Hwf Hkey).
  unfold miss.
  assert (entry_of state resourceDefinition = Undefined ->
          recorded state resourceDefinition key = Undefined) as Hentry.
  { unfold recorded. now intros ->. }
  destruct (recorded state resourceDefinition key) eqn:Hrec;
    try (split; [split; [intros _|reflexivity]; tauto|tauto]);
    destruct (truthy (get (meta_of state resourceDefinition)
                          "didInvalidate")) eqn:Hinv;
    (split;
     [split; [try discriminate; tauto
             |try reflexivity; intros [H|[H|H]];
              try discriminate; apply Hentry in H; discriminate]
     |intros Hmiss; try tauto; eexists; reflexivity]).
Qed.

Lemma resolver_miss_iff_witness :
  let state := user_state (Num 7) fresh_meta (Arr [Num 1]) (Obj [("1", Str "A")]) in
  let definition := user_definition userSchema false (Obj []) (Num 7) in
  (findInState state definition = Ok (Bool false) <->
   miss state definition "user") /\
  (~ miss state definition "user" ->
   exists v,
     findInState state definition =
     Ok (Obj [("meta", meta_of state definition); ("value", v)])).
Proof.
  intros state definition.
  apply (resolver_miss_iff state definition "user"); reflexivity.
Defined.

(** C4 fails as stated when the ledger entry records a single id, which
    the data model allows.  With the id [0] recorded, none of the three
    conditions holds and the resolver misses all the same; with the id
    [1] recorded and a bucket for the entity type in the store, none of
    them holds and the resolver returns neither a miss nor a hit: it
    raises a [TypeError]. *)
Lemma resolver_miss_iff_counterexample :
  let definition := user_definition userSchema false (Obj []) (Num 7) in
  let zero := user_state (Num 7) fresh_meta (Num 0) (Obj [("1", Str "A")]) in
  let one := user_state (Num 7) fresh_meta (Num 1) (Obj [("1", Str "A")]) in
  (~ miss zero definition "user" /\
   findInState zero definition = Ok (Bool false)) /\
  (~ miss one definition "user" /\
   findInState one definition = Throw TypeError).
Proof.
  intros definition zero one.
  split; (split; [intros [H|[H|H]]; vm_compute in H; discriminate|reflexivity]).
Qed.

(** On a state as the reducer keeps it the test of the resolver holds
    exactly under the Miss conditions. *)
Lemma guard_miss (state resourceDefinition : value) (key : string) :
  well_formed state resourceDefinition key = true ->
  guard state resourceDefinition key = true <->
  miss state resourceDefinition key.
Proof.
  intros Hwf. unfold guard, miss. unfold well_formed in Hwf.
  apply andb_true_iff in Hwf. destruct Hwf as [_ Hwf].
  unfold recorded, meta_of in *.
  destruct (entry_of state resourceDefinition) as [| | | | | |eprops| | |];
    try discriminate.
  - cbn. tauto.
  - apply andb_true_iff in Hwf. destruct Hwf as [_ Hwf].
    destruct (get (get (Obj eprops) "data") key); try discriminate.
    + cbn [truthy negb orb]. split; auto.
    + cbn [truthy negb orb]. split; [tauto|].
      intros [H|[H|H]]; [discriminate|discriminate|exact H].
Qed.

(** C10.  On a state whose tables are plain objects, a result of the
    resolver takes one of two shapes.  When the test
    [!resourceKeys || resourceMap.meta.didInvalidate] holds, which is
    the Miss, the result is the boolean [false] itself; when it fails,
    which is the Hit, the result is an object whose properties are
    [meta], which is the [meta] of the ledger entry, and [value], and
    no other.  The first is falsy and the second truthy.  On a state as
    the reducer keeps it the resolver does return a result, and the test
    holds exactly under the Miss conditions: no ledger entry, nothing
    recorded under the entity type, or [meta.didInvalidate] set. *)
Theorem resolver_result_shape (state resourceDefinition : value) :
  plain_tables state resourceDefinition = true ->
  (forall r,
      findInState state resourceDefinition = Ok r ->
      exists key,
        schemaKey resourceDefinition = Ok (Str key) /\
        ((guard state resourceDefinition key = true /\
          r = Bool false /\ truthy r = false) \/
         (guard state resourceDefinition key = false /\
          (exists v,
              r = Obj [("meta", meta_of state resourceDefinition);
                       ("value", v)]) /\
          own_keys r = ["meta"; "value"] /\ truthy r = true))) /\
  (forall key,
      well_formed state resourceDefinition key = true ->
      schemaKey resourceDefinition = Ok (Str key) ->
      (exists r, findInState state resourceDefinition = Ok r) /\
      (guard state resourceDefinition key = true <->
       miss state resourceDefinition key)).
Proof.
  intros Hpt. split.
  - intros r H.
    destruct (findInState_plain _ _ _ Hpt H) as (key & Hkey & Hr).
    exists key. split; [exact Hkey|].
    destruct Hr as [[Hg ->]|[Hg [v ->]]]; [left|right]; repeat split; eauto.
  - intros key Hwf Hkey. split; [|now apply guard_miss].
    rewrite (findInState_well_formed _ _ key Hwf Hkey).
    destruct (recorded state resourceDefinition key); eauto;
      destruct (truthy _); eauto.
Qed.

Lemma resolver_result_shape_witness :
  let hit := user_state (Num 7) fresh_meta (Arr [Num 1]) (Obj [("1", Str "A")]) in
  let stale :=
    user_state (Num 7) (Obj [("didInvalidate", Bool true)]) (Arr [Num 1])
               (Obj [("1", Str "A")]) in
  let definition := user_definition userSchema false (Obj []) (Num 7) in
  findInState hit definition =
    Ok (Obj [("meta", fresh_meta); ("value", Str "A")]) /\
  guard hit definition "user" = false /\
  findInState stale definition = Ok (Bool false) /\
  guard stale definition "user" = true /\
  miss stale definition "user".
Proof.
  intros hit stale definition.
  destruct (resolver_result_shape hit definition eq_refl) as [Hhit _].
  destruct (resolver_result_shape stale definition eq_refl) as [Hstale Hwf].
  destruct (Hhit (Obj [("meta", fresh_meta); ("value", Str "A")]) eq_refl)
    as (key & Hkey & Hr).
  destruct (Hstale (Bool false) eq_refl) as (key' & Hkey' & Hr').
  inversion Hkey. inversion Hkey'. subst key key'.
  destruct Hr as [(_ & Hr & _)|(Hg & _)]; [discriminate|].
  destruct Hr' as [(Hg' & _)|(_ & [v Hr'] & _)]; [|discriminate].
  destruct (Hwf "user" eq_refl eq_refl) as [_ Hmiss].
  repeat split; try assumption. now apply Hmiss.
Defined.

(** C6. An empty id list resolves to an empty collection, which is
    truthy, so the default value is not substituted: the singular read
    yields [undefined] and the collection read the empty array, whatever
    [defaultValue] the definition carries. *)
Theorem resolver_empty_id_list :
  let state := user_state (Num 7) fresh_meta (Arr []) (Obj []) in
  findInState state (user_definition userSchema false (Obj []) (Num 7)) =
    Ok (Obj [("meta", fresh_meta); ("value", Undefined)]) /\
  findInState state (user_definition usersSchema true (Str "none") (Num 7)) =
    Ok (Obj [("meta", fresh_meta); ("value", Arr [])]).
Proof. split; reflexivity. Qed.

(* ================================================================== *)
(** ** The canonicalizer and the key deriver *)

Ltac distinct_keys :=
  repeat constructor; simpl; intuition discriminate.

(** C1, as amended.  Permuting the top-level keys of an object leaves
    its canonical string unchanged, and the canonicalizer always
    returns on an object; conversely, two objects whose values are all
    strings, that have no property named [__proto__], and whose
    canonical strings agree hold the same values under the same
    keys. *)
Theorem canonicalize_key_order (o o' : list (string * value)) :
  NoDup (map fst o) -> NoDup (map fst o') ->
  (Permutation o o' -> canonicalize (Obj o) = canonicalize (Obj o')) /\
  (exists s, canonicalize (Obj o) = Ok s) /\
  (all_strings o = true -> all_strings o' = true ->
   no_proto o = true -> no_proto o' = true ->
   canonicalize (Obj o) = canonicalize (Obj o') -> Permutation o o').
Proof.
  intros Hnd Hnd'. split; [|split].
  - intros Hp. symmetry. now apply canonicalize_Permutation.
  - rewrite canonicalize_obj by assumption. eauto.
  - intros Hs Hs' Hp Hp'. now apply canonicalize_flat_inj.
Qed.

Lemma canonicalize_key_order_witness :
  canonicalize (Obj accept_first) = canonicalize (Obj accept_last) /\
  (exists s, canonicalize (Obj accept_first) = Ok s) /\
  Permutation accept_first accept_last.
Proof.
  destruct (canonicalize_key_order accept_first accept_last)
    as [H1 [H2 H3]]; [distinct_keys|distinct_keys|].
  split; [|split].
  - apply H1. apply perm_swap.
  - exact H2.
  - apply H3; reflexivity.
Defined.

(** C1 fails as stated: a permutation of the keys of a nested object
    changes the canonical string; a number and its decimal text are
    canonicalized alike although they are not deeply equal; and so are
    an object whose only property is named [__proto__] and the empty
    object. *)
Lemma canonicalize_counterexample :
  (deep_eqb (Obj nested_xy) (Obj nested_yx) = true /\
   canonicalize (Obj nested_xy) <> canonicalize (Obj nested_yx)) /\
  (canonicalize (Obj flat_number) = canonicalize (Obj flat_text) /\
   deep_eqb (Obj flat_number) (Obj flat_text) = false) /\
  (canonicalize (Obj proto_only) = canonicalize (Obj []) /\
   deep_eqb (Obj proto_only) (Obj []) = false).
Proof.
  split; [split|split; split]; try reflexivity. vm_compute. discriminate.
Qed.

Lemma lookup_stringified_props (k : string) (props : list (string * value)) :
  lookup k (stringified_props props) = stringified (lookup k props).
Proof.
  induction props as [|[k' v] props IH]; cbn [stringified_props map lookup fst snd];
    auto.
  destruct (k' =? k); auto.
Qed.

Lemma keys_stringified_props (props : list (string * value)) :
  map fst (stringified_props props) = map fst props.
Proof. unfold stringified_props. now rewrite map_map. Qed.

Lemma canonicalize_stringified (props : list (string * value)) :
  NoDup (map fst props) ->
  canonicalize (Obj (stringified_props props)) = canonicalize (Obj props).
Proof.
  intros Hnd.
  rewrite !canonicalize_obj by now rewrite ?keys_stringified_props.
  unfold canonical_string, canonical. rewrite keys_stringified_props.
  do 4 f_equal. apply map_ext. intros k.
  now rewrite lookup_stringified_props, stringified_again.
Qed.

(** C9.  Permuting the top-level keys of the headers or of the body
    leaves the request key unchanged, and the key deriver returns a key
    on every pair of objects.  A nested object is not sorted: it enters
    the key as its JSON text, which lists its members in the order the
    object has them, so that the key of a request is the key of the
    request in which every such value is replaced by that text. *)
Theorem requestKey_top_level_order
        (method url : value) (headers headers' body body' : list (string * value)) :
  NoDup (map fst headers) -> NoDup (map fst body) ->
  Permutation headers headers' -> Permutation body body' ->
  deriveKey method url (Obj headers') (Obj body') =
    deriveKey method url (Obj headers) (Obj body) /\
  (exists key, deriveKey method url (Obj headers) (Obj body) = Ok key) /\
  deriveKey method url (Obj headers) (Obj body) =
    deriveKey method url (Obj (stringified_props headers))
              (Obj (stringified_props body)).
Proof.
  intros Hh Hb Ph Pb.
  pose proof (canonicalize_Permutation headers headers' Hh Ph) as Eh.
  pose proof (canonicalize_Permutation body body' Hb Pb) as Eb.
  rewrite !deriveKey_fingerprint. unfold fingerprint_of.
  rewrite Eh, Eb, !canonicalize_stringified by assumption.
  split; [reflexivity|]. split; [|reflexivity].
  rewrite !canonicalize_obj by assumption. cbn [bind]. eauto.
Qed.

Lemma requestKey_top_level_order_witness :
  deriveKey (Str "GET") (Str "http://a/users") (Obj accept_last) (Obj nested_xy) =
    deriveKey (Str "GET") (Str "http://a/users") (Obj accept_first) (Obj nested_xy) /\
  (exists key,
    deriveKey (Str "GET") (Str "http://a/users") (Obj accept_first)
              (Obj nested_xy) = Ok key) /\
  deriveKey (Str "GET") (Str "http://a/users") (Obj accept_first) (Obj nested_xy) =
    deriveKey (Str "GET") (Str "http://a/users")
              (Obj (stringified_props accept_first))
              (Obj (stringified_props nested_xy)).
Proof.
  apply (requestKey_top_level_order
           (Str "GET") (Str "http://a/users")
           accept_first accept_last nested_xy nested_xy).
  - distinct_keys.
  - distinct_keys.
  - apply perm_swap.
  - apply Permutation_refl.
Defined.

(** C5, as amended.  Two requests with the same method and url whose
    headers and bodies agree up to the order of their top-level keys
    get the same key.  The key is the 32-bit hash of a fingerprint
    string, and two requests that differ in the method, in the url, or
    in the bindings of string-valued headers or bodies without a
    property named [__proto__] have different fingerprints. *)
Theorem deriveKey_determinism
        (m u m' u' : string) (h h' b b' : list (string * value)) :
  NoDup (map fst h) -> NoDup (map fst h') ->
  NoDup (map fst b) -> NoDup (map fst b') ->
  (m = m' -> u = u' -> Permutation h h' -> Permutation b b' ->
   deriveKey (Str m) (Str u) (Obj h) (Obj b) =
   deriveKey (Str m') (Str u') (Obj h') (Obj b')) /\
  exists fp fp',
    fingerprint_of (Str m) (Str u) (Obj h) (Obj b) = Ok fp /\
    fingerprint_of (Str m') (Str u') (Obj h') (Obj b') = Ok fp' /\
    deriveKey (Str m) (Str u) (Obj h) (Obj b) =
      Ok (string_hash.stringHash fp) /\
    deriveKey (Str m') (Str u') (Obj h') (Obj b') =
      Ok (string_hash.stringHash fp') /\
    (m <> m' \/ u <> u' \/
     (all_strings h = true /\ all_strings h' = true /\
      no_proto h = true /\ no_proto h' = true /\ ~ Permutation h h') \/
     (all_strings b = true /\ all_strings b' = true /\
      no_proto b = true /\ no_proto b' = true /\ ~ Permutation b b') ->
     fp <> fp').
Proof.
  intros Hh Hh' Hb Hb'. split.
  - intros <- <- Ph Pb.
    pose proof (canonicalize_Permutation h h' Hh Ph) as Eh.
    pose proof (canonicalize_Permutation b b' Hb Pb) as Eb.
    rewrite !deriveKey_fingerprint. unfold fingerprint_of.
    now rewrite Eh, Eb.
  - rewrite !deriveKey_fingerprint. unfold fingerprint_of.
    pose proof (canonicalize_obj h Hh) as Eh.
    pose proof (canonicalize_obj h' Hh') as Eh'.
    pose proof (canonicalize_obj b Hb) as Eb.
    pose proof (canonicalize_obj b' Hb') as Eb'.
    rewrite Eh, Eh', Eb, Eb'. cbn [bind].
    do 2 eexists. repeat (split; [reflexivity|]).
    intros Hdiff Hfp. apply fingerprint_inj in Hfp.
    destruct Hfp as (Hm & Hu & Hhs & Hbs).
    destruct Hdiff
      as [H|[H|[(Hs & Hs' & Hp & Hp' & H)|(Hs & Hs' & Hp & Hp' & H)]]]; auto.
    + apply H. apply canonicalize_flat_inj; auto. congruence.
    + apply H. apply canonicalize_flat_inj; auto. congruence.
Qed.

Lemma deriveKey_determinism_witness :
  deriveKey (Str "GET") (Str "http://a/users") (Obj accept_first) (Obj []) =
  deriveKey (Str "GET") (Str "http://a/users") (Obj accept_last) (Obj []) /\
  exists fp fp',
    fingerprint_of (Str "GET") (Str "http://a/users") (Obj accept_first) (Obj []) = Ok fp /\
    fingerprint_of (Str "POST") (Str "http://a/users") (Obj accept_first) (Obj []) = Ok fp' /\
    fp <> fp'.
Proof.
  split.
  - destruct (deriveKey_determinism
                "GET" "http://a/users" "GET" "http://a/users"
                accept_first accept_last [] [])
      as [Hsame _]; [distinct_keys|distinct_keys|constructor|constructor|].
    apply Hsame; [reflexivity|reflexivity|apply perm_swap|apply perm_nil].
  - destruct (deriveKey_determinism
                "GET" "http://a/users" "POST" "http://a/users"
                accept_first accept_first [] [])
      as [_ (fp & fp' & Hf & Hf' & _ & _ & Hne)];
      [distinct_keys|distinct_keys|constructor|constructor|].
    exists fp, fp'. repeat split; auto. apply Hne. left. discriminate.
Defined.

(** C5 fails as stated: two headers that differ in the key order of a
    nested object only get different keys, two different urls get the
    same key, and so do a header value and its decimal text. *)
Lemma deriveKey_counterexample :
  (deep_eqb (Obj nested_xy) (Obj nested_yx) = true /\
   deriveKey (Str "GET") (Str "http://a/users") (Obj nested_xy) (Obj []) <>
   deriveKey (Str "GET") (Str "http://a/users") (Obj nested_yx) (Obj [])) /\
  deriveKey (Str "GET") (Str "http://a/users/83/posts/1780") (Obj []) (Obj []) =
  deriveKey (Str "GET") (Str "http://a/users/113/posts/446") (Obj []) (Obj []) /\
  deriveKey (Str "GET") (Str "http://a/users") (Obj flat_number) (Obj []) =
  deriveKey (Str "GET") (Str "http://a/users") (Obj flat_text) (Obj []).
Proof.
  split; [split|split]; try reflexivity. vm_compute. discriminate.
Qed.

(* ================================================================== *)
(** ** The normalizer: [normalizeResourceDefinition] *)

Lemma written_write_back (l : list (string * value)) (k : string) (v : value) :
  written (Obj l) k v = Obj (write_back k v l).
Proof. unfold written, write_back. now destruct (has_key k l). Qed.

Lemma lookup_write_back_gen (l : list (string * value)) (k k' : string) (v : value) :
  lookup k' (write_back k v l) =
  if (has_key k l && (k =? k'))%bool then v else lookup k' l.
Proof.
  unfold write_back. destruct (has_key k l); cbn [andb]; auto.
  apply lookup_set.
Qed.

Lemma has_key_write_back (l : list (string * value)) (k k' : string) (v : value) :
  has_key k' (write_back k v l) = has_key k' l.
Proof.
  unfold write_back. destruct (has_key k l) eqn:E; auto. rewrite has_key_set.
  destruct (String.eqb_spec k k'); subst; auto.
Qed.

Lemma lookup_write_back (l : list (string * value)) (k k' : string) (v : value) :
  (k =? k') = false -> lookup k' (write_back k v l) = lookup k' l.
Proof.
  intros H. rewrite lookup_write_back_gen, H. now rewrite andb_false_r.
Qed.

Lemma written_shared_share (raw : value) (l : list (string * value)) (k : string) :
  inherited k = Undefined ->
  written_shared raw (Obj l) k = Obj (share raw k l).
Proof.
  intros Hk. unfold written_shared, share. destruct (shares raw k); auto.
  rewrite (get_plain l "extends") by reflexivity.
  rewrite (get_plain l k) by assumption.
  cbn [assign]. now rewrite put_plain by reflexivity.
Qed.

Lemma lookup_share (raw : value) (k k' : string) (l : list (string * value)) :
  lookup k' (share raw k l) =
  if (shares raw k && ("extends" =? k'))%bool
  then assign (lookup "extends" l) k (lookup k l)
  else lookup k' l.
Proof.
  unfold share. destruct (shares raw k); cbn [andb]; auto. apply lookup_set.
Qed.

Lemma has_key_share (raw : value) (k k' : string) (l : list (string * value)) :
  has_key k' (share raw k l) =
  ((shares raw k && ("extends" =? k')) || has_key k' l)%bool.
Proof.
  unfold share. destruct (shares raw k); cbn [andb orb]; auto.
  apply has_key_set.
Qed.

Lemma lookup_with_default_value (k : string) (l : list (string * value)) :
  lookup k (with_default_value l) =
  if "defaultValue" =? k then
    match lookup "defaultValue" l with
    | Undefined => if truthy (lookup "isArray" l) then Arr [] else Obj []
    | v => v
    end
  else lookup k l.
Proof.
  unfold with_default_value.
  destruct (lookup "defaultValue" l) eqn:E; rewrite ?lookup_set;
    destruct (String.eqb_spec "defaultValue" k); subst; congruence.
Qed.

Lemma has_key_with_default_value (k : string) (l : list (string * value)) :
  has_key k (with_default_value l) = (("defaultValue" =? k) || has_key k l)%bool.
Proof.
  unfold with_default_value.
  destruct (lookup "defaultValue" l) eqn:E; rewrite ?has_key_set; auto;
    (destruct (String.eqb_spec "defaultValue" k); subst; auto;
     apply lookup_defined_has_key; congruence).
Qed.

Lemma lookup_with_flag (f k : string) (l : list (string * value)) :
  lookup k (with_flag f l) =
  if f =? k then
    match lookup f l with
    | Undefined => Bool true
    | v => v
    end
  else lookup k l.
Proof.
  unfold with_flag.
  destruct (lookup f l) eqn:E; rewrite ?lookup_set;
    destruct (String.eqb_spec f k); subst; congruence.
Qed.

Lemma has_key_with_flag (f k : string) (l : list (string * value)) :
  has_key k (with_flag f l) = ((f =? k) || has_key k l)%bool.
Proof.
  unfold with_flag.
  destruct (lookup f l) eqn:E; rewrite ?has_key_set; auto;
    (destruct (String.eqb_spec f k); subst; auto;
     apply lookup_defined_has_key; congruence).
Qed.

Lemma lookup_set_same (k : string) (v : value) (l : list (string * value)) :
  lookup k (set k v l) = v.
Proof. now rewrite lookup_set, String.eqb_refl. Qed.

Lemma lookup_set_other (k k' : string) (v : value) (l : list (string * value)) :
  (k =? k') = false -> lookup k' (set k v l) = lookup k' l.
Proof. intros H. now rewrite lookup_set, H. Qed.

Lemma lookup_share_other (raw : value) (k k' : string)
      (l : list (string * value)) :
  ("extends" =? k') = false -> lookup k' (share raw k l) = lookup k' l.
Proof. intros H. now rewrite lookup_share, H, andb_false_r. Qed.

Lemma lookup_with_default_value_other (k : string) (l : list (string * value)) :
  ("defaultValue" =? k) = false -> lookup k (with_default_value l) = lookup k l.
Proof. intros H. now rewrite lookup_with_default_value, H. Qed.

Lemma lookup_with_flag_other (f k : string) (l : list (string * value)) :
  (f =? k) = false -> lookup k (with_flag f l) = lookup k l.
Proof. intros H. now rewrite lookup_with_flag, H. Qed.

(** Reading a field of a definition through the writes made to it *)
Ltac skip_writes :=
  repeat first
    [ rewrite lookup_set_same
    | rewrite lookup_set_other by reflexivity
    | rewrite lookup_share_other by reflexivity
    | rewrite lookup_write_back by reflexivity
    | rewrite lookup_with_default_value_other by reflexivity
    | rewrite lookup_with_flag_other by reflexivity ].

Ltac read_derived :=
  repeat (skip_writes;
          rewrite ?lookup_with_flag, ?lookup_with_default_value,
            ?lookup_write_back_gen, ?has_key_write_back,
            ?has_key_share, ?has_key_set, ?andb_false_r, ?andb_true_r;
          cbn [String.eqb Ascii.eqb Bool.eqb orb]).

(** The last statements of the normalizer, on a definition [L] *)
Lemma defaults_steps (L : list (string * value)) :
  (let definition := Obj L in
   let definition :=
     match get definition "defaultValue" with
     | Undefined =>
         assign definition "defaultValue"
                (if truthy (get definition "isArray") then Arr [] else Obj [])
     | _ => definition
     end in
   let definition :=
     if strict_eq_string (get definition "method") "GET" then
       let definition :=
         match get definition "auto" with
         | Undefined => assign definition "auto" (Bool true)
         | _ => definition
         end in
       match get definition "store" with
       | Undefined => assign definition "store" (Bool true)
       | _ => definition
       end
     else definition in
   definition) = Obj (with_get_defaults (with_default_value L)).
Proof.
  cbv zeta. rewrite !(get_plain L) by reflexivity.
  unfold with_get_defaults, with_default_value, with_flag.
  destruct (lookup "defaultValue" L) eqn:Hdv; cbn [assign];
    rewrite ?put_plain by reflexivity;
    rewrite ?(get_plain (set "defaultValue" _ L)) by reflexivity;
    rewrite ?(get_plain L) by reflexivity;
    match goal with
    | |- context [strict_eq_string ?x "GET"] =>
        destruct (strict_eq_string x "GET"); try reflexivity
    end;
    match goal with
    | |- context [lookup "auto" ?l] =>
        destruct (lookup "auto" l) eqn:Hauto
    end; cbn [assign]; rewrite ?put_plain by reflexivity;
    match goal with
    | |- context [get (Obj ?l) "store"] =>
        rewrite (get_plain l "store") by reflexivity;
        destruct (lookup "store" l) eqn:Hstore
    end; cbn [assign]; rewrite ?put_plain by reflexivity; reflexivity.
Qed.

Section Normalizer.
Variable nu : string -> result string.

Lemma normalize_steps (d : value) (mprops : list (string * value)) :
  nullish d = false -> merged d = Obj mprops ->
  normalizeResourceDefinition nu d =
  (_ <- invariant
         (match lookup "schema" mprops with Undefined => false | _ => true end)
         schema_message ;;
   _ <- invariant (negb (test_query (to_string (lookup "url" mprops))))
         query_message ;;
   pu <- fullUrl nu (lookup "url" mprops) (lookup "params" mprops) ;;
   method <- match lookup "method" mprops with
             | Str m => Ok (toUpperCase m)
             | _ => Throw TypeError
             end ;;
   getKey <- member (lookup "schema" mprops) "getKey" ;;
   hs <- normalizeParams (lookup "headers" mprops) ;;
   bs <- normalizeParams (lookup "body" mprops) ;;
   Ok (Obj (derived d mprops (fst pu) (snd pu) method (negb (truthy getKey))
                    (fst hs) (fst bs)
                    (string_hash.stringHash
                       (fingerprint (Str method) (Str (snd pu))
                                    (snd hs) (snd bs)))))).
Proof.
  intros Hd HM. unfold normalizeResourceDefinition.
  rewrite member_defined by assumption. cbn [bind].
  fold (merged d). rewrite HM.
  rewrite !(get_plain mprops) by reflexivity.
  destruct (invariant _ schema_message); cbn [bind]; [|reflexivity].
  destruct (invariant _ query_message); cbn [bind]; [|reflexivity].
  destruct (fullUrl nu _ _) as [pu|]; cbn [bind]; [|reflexivity].
  rewrite written_write_back, written_shared_share by reflexivity.
  cbn [assign]. rewrite (put_plain "url") by reflexivity.
  set (L1 := set "url" _ _).
  rewrite (get_plain L1 "method") by reflexivity.
  assert (lookup "method" L1 = lookup "method" mprops) as -> by (subst L1; now read_derived).
  destruct (lookup "method" mprops) as [| | | |m| | | | |]; cbn [bind];
    try reflexivity.
  cbn [assign]. rewrite (put_plain "method") by reflexivity.
  set (L2 := set "method" _ _).
  rewrite (get_plain L2 "schema") by reflexivity.
  assert (lookup "schema" L2 = lookup "schema" mprops) as -> by (subst L2 L1; now read_derived).
  destruct (member (lookup "schema" mprops) "getKey") as [getKey|]; cbn [bind];
    [|reflexivity].
  cbn [assign]. rewrite (put_plain "isArray") by reflexivity.
  set (L3 := set "isArray" _ _).
  unfold requestKey. cbn [member nullish bind].
  rewrite !(get_plain L3) by reflexivity.
  assert (lookup "url" L3 = Str (snd pu)) as -> by (subst L3 L2 L1; now read_derived).
  assert (lookup "method" L3 = Str (toUpperCase m)) as -> by (subst L3 L2 L1; now read_derived).
  assert (lookup "headers" L3 = lookup "headers" mprops) as -> by (subst L3 L2 L1; now read_derived).
  assert (lookup "body" L3 = lookup "body" mprops) as -> by (subst L3 L2 L1; now read_derived).
  destruct (normalizeParams (lookup "headers" mprops)) as [hs|]; cbn [bind];
    [|reflexivity].
  destruct (normalizeParams (lookup "body" mprops)) as [bs|]; cbn [bind];
    [|reflexivity].
  rewrite !written_write_back. cbn [fst snd].
  rewrite !written_shared_share by reflexivity.
  cbn [assign]. rewrite (put_plain "requestKey") by reflexivity.
  f_equal. etransitivity; [apply defaults_steps|]. reflexivity.
Qed.
End Normalizer.

(** *** Steps that change nothing *)

Lemma set_id (k : string) (v : value) (l : list (string * value)) :
  has_key k l = true -> lookup k l = v -> set k v l = l.
Proof. intros H <-. now apply set_same. Qed.

Lemma write_back_id (k : string) (v : value) (l : list (string * value)) :
  lookup k l = v -> write_back k v l = l.
Proof.
  intros H. unfold write_back. destruct (has_key k l) eqn:E; auto.
  now apply set_id.
Qed.

Lemma with_default_value_id (l : list (string * value)) :
  lookup "defaultValue" l <> Undefined -> with_default_value l = l.
Proof.
  unfold with_default_value. now destruct (lookup "defaultValue" l).
Qed.

Lemma with_flag_id (f : string) (l : list (string * value)) :
  lookup f l <> Undefined -> with_flag f l = l.
Proof. unfold with_flag. now destruct (lookup f l). Qed.

Lemma share_id (raw : value) (k : string) (l : list (string * value)) :
  shares raw k = false -> share raw k l = l.
Proof. unfold share. now intros ->. Qed.

(** *** Keys only grow *)

Lemma grows_refl (l : list (string * value)) : grows l l.
Proof. split; auto. exists []. now rewrite app_nil_r. Qed.

Lemma grows_trans (a b c : list (string * value)) :
  grows a b -> grows b c -> grows a c.
Proof.
  intros [[r Hr] Hn] [[r' Hr'] Hn']. split; auto.
  exists (r ++ r')%list. now rewrite Hr', Hr, app_assoc.
Qed.

Lemma grows_set (k : string) (v : value) (l : list (string * value)) :
  grows l (set k v l).
Proof.
  split; [|apply NoDup_keys_set]. rewrite keys_set.
  destruct (has_key k l); eauto. exists []. now rewrite app_nil_r.
Qed.

Lemma grows_write_back (k : string) (v : value) (l : list (string * value)) :
  grows l (write_back k v l).
Proof.
  unfold write_back. destruct (has_key k l);
    [apply grows_set|apply grows_refl].
Qed.

Lemma grows_with_default_value (l : list (string * value)) :
  grows l (with_default_value l).
Proof.
  unfold with_default_value.
  destruct (lookup "defaultValue" l); auto using grows_set, grows_refl.
Qed.

Lemma grows_with_flag (f : string) (l : list (string * value)) :
  grows l (with_flag f l).
Proof.
  unfold with_flag. destruct (lookup f l); auto using grows_set, grows_refl.
Qed.

Lemma grows_with_get_defaults (l : list (string * value)) :
  grows l (with_get_defaults l).
Proof.
  unfold with_get_defaults. destruct (strict_eq_string _ _);
    [|apply grows_refl].
  eapply grows_trans; apply grows_with_flag.
Qed.

Lemma grows_share (raw : value) (k : string) (l : list (string * value)) :
  grows l (share raw k l).
Proof.
  unfold share. destruct (shares raw k); [apply grows_set|apply grows_refl].
Qed.

Lemma grows_fold_set (src target : list (string * value)) :
  grows target
        (fold_left (fun acc kv => set (fst kv) (snd kv) acc) src target).
Proof.
  revert target. induction src as [|[k v] src IH]; intros target; simpl.
  - apply grows_refl.
  - eapply grows_trans; [apply grows_set|apply IH].
Qed.

Lemma grows_spread (target : list (string * value)) (source : value) :
  grows target (spread target source).
Proof. apply grows_fold_set. Qed.

Lemma grows_derived (raw : value) (props : list (string * value))
      (params : value) (url method : string) (isArray : bool)
      (headers body : value) (key : Z) :
  grows props (derived raw props params url method isArray headers body key).
Proof.
  unfold derived.
  repeat (eapply grows_trans;
          [|first [apply grows_with_get_defaults
                  |apply grows_with_default_value
                  |apply grows_set|apply grows_write_back
                  |apply grows_share]]).
  apply grows_refl.
Qed.

Lemma lookup_fold_set (k : string) (target src : list (string * value)) :
  NoDup (map fst src) ->
  lookup k (fold_left (fun acc kv => set (fst kv) (snd kv) acc) src target) =
  if has_key k src then lookup k src else lookup k target.
Proof.
  revert target.
  induction src as [|[k0 v0] src IH]; intros target Hnd; simpl; auto.
  inversion Hnd as [|? ? Hk Hnd']; subst. rewrite IH by assumption.
  rewrite lookup_set. destruct (String.eqb_spec k0 k) as [->|Hne]; auto.
  apply has_key_false in Hk. now rewrite Hk.
Qed.

Lemma lookup_spread (k : string) (target src : list (string * value)) :
  NoDup (map fst src) ->
  lookup k (spread target (Obj src)) =
  if has_key k src then lookup k src else lookup k target.
Proof.
  intros Hnd. unfold spread. cbn [enumerate].
  rewrite lookup_fold_set by now apply NoDup_own_order.
  now rewrite has_key_own_order, lookup_own_order.
Qed.

Lemma has_key_fold_set (k : string) (target src : list (string * value)) :
  has_key k (fold_left (fun acc kv => set (fst kv) (snd kv) acc) src target) =
  (has_key k src || has_key k target)%bool.
Proof.
  revert target.
  induction src as [|[k0 v0] src IH]; intros target; simpl; auto.
  rewrite IH, has_key_set.
  destruct (k0 =? k); cbn [orb]; auto. now rewrite orb_true_r.
Qed.

Lemma has_key_spread (k : string) (target src : list (string * value)) :
  has_key k (spread target (Obj src)) = (has_key k src || has_key k target)%bool.
Proof.
  unfold spread. cbn [enumerate].
  now rewrite has_key_fold_set, has_key_own_order.
Qed.

Lemma toUpperCase_app (a b : string) :
  toUpperCase (a ++ b) = toUpperCase a ++ toUpperCase b.
Proof.
  induction a as [|c a IH]; cbn [append toUpperCase]; auto.
  rewrite IH. clear. induction (upper_char c); cbn [append]; congruence.
Qed.

Lemma toUpperCase_idempotent (s : string) :
  toUpperCase (toUpperCase s) = toUpperCase s.
Proof.
  induction s as [|c s IH]; cbn [toUpperCase]; auto.
  rewrite toUpperCase_app, IH. f_equal.
  destruct c as [[|] [|] [|] [|] [|] [|] [|] [|]]; reflexivity.
Qed.

Lemma normalize_ok (nu : string -> result string) (d n : value) :
  normalizeResourceDefinition nu d = Ok n ->
  exists mprops pu m getKey hs bs,
    nullish d = false /\
    merged d = Obj mprops /\
    lookup "schema" mprops <> Undefined /\
    test_query (to_string (lookup "url" mprops)) = false /\
    fullUrl nu (lookup "url" mprops) (lookup "params" mprops) = Ok pu /\
    lookup "method" mprops = Str m /\
    member (lookup "schema" mprops) "getKey" = Ok getKey /\
    normalizeParams (lookup "headers" mprops) = Ok hs /\
    normalizeParams (lookup "body" mprops) = Ok bs /\
    n = Obj (derived d mprops (fst pu) (snd pu) (toUpperCase m)
                     (negb (truthy getKey)) (fst hs) (fst bs)
                     (string_hash.stringHash
                        (fingerprint (Str (toUpperCase m)) (Str (snd pu))
                                     (snd hs) (snd bs)))).
Proof.
  intros H.
  assert (nullish d = false) as Hd.
  { unfold normalizeResourceDefinition, member in H. now destruct (nullish d). }
  assert (exists mprops, merged d = Obj mprops) as [mprops HM]
      by (eexists; reflexivity).
  rewrite (normalize_steps nu d mprops Hd HM) in H.
  destruct (lookup "schema" mprops) eqn:Hs; cbn [invariant bind] in H;
    try discriminate.
  all: destruct (test_query (to_string (lookup "url" mprops))) eqn:Hq;
     cbn [invariant negb bind] in H; [discriminate|].
  all: destruct (fullUrl nu _ _) as [pu|] eqn:Hpu; [|discriminate];
     cbn [bind] in H.
  all: destruct (lookup "method" mprops) as [| | | |m| | | | |] eqn:Hm;
     try discriminate; cbn [bind] in H.
  all: destruct (member _ "getKey") as [getKey|] eqn:Hg; [|discriminate];
     cbn [bind] in H.
  all: destruct (normalizeParams (lookup "headers" mprops)) as [hs|] eqn:Hhs;
     [|discriminate]; cbn [bind] in H.
  all: destruct (normalizeParams (lookup "body" mprops)) as [bs|] eqn:Hbs;
     [|discriminate]; cbn [bind] in H.
  all: inversion H; exists mprops, pu, m, getKey, hs, bs.
  all: repeat (split; [first [assumption|reflexivity|congruence]|]).
  all: reflexivity.
Qed.

(** C8.  The normalized method is the merged method in upper case.
    When it is GET, [auto] and [store] are [true] unless the merged
    definition sets them; for every other method both are left as
    merged, so a flag that is not set stays [undefined], the falsy
    value a caller reads as not-auto. *)
Theorem auto_store_defaults (nu : string -> result string) (d n : value) :
  normalizeResourceDefinition nu d = Ok n ->
  exists m,
    get (merged d) "method" = Str m /\
    get n "method" = Str (toUpperCase m) /\
    (toUpperCase m = "GET" ->
     get n "auto" =
       match get (merged d) "auto" with Undefined => Bool true | v => v end /\
     get n "store" =
       match get (merged d) "store" with Undefined => Bool true | v => v end) /\
    (toUpperCase m <> "GET" ->
     get n "auto" = get (merged d) "auto" /\
     get n "store" = get (merged d) "store").
Proof.
  intros H.
  destruct (normalize_ok nu d n H)
    as (mprops & pu & m & getKey & hs & bs & Hd & HM & _ & _ & _ & Hm & _ & _ & _ & ->).
  rewrite HM, !get_plain by reflexivity. exists m. split; [assumption|].
  unfold derived, with_get_defaults.
  set (L := with_default_value _).
  assert (lookup "method" L = Str (toUpperCase m)) as HM'
      by (subst L; now read_derived).
  rewrite HM'. cbn [strict_eq_string].
  destruct (String.eqb_spec (toUpperCase m) "GET") as [E|E].
  - split; [rewrite !lookup_with_flag; cbn [String.eqb Ascii.eqb Bool.eqb];
             exact HM'|].
    split; [intros _|congruence].
    subst L. split; now read_derived.
  - split; [exact HM'|]. split; [congruence|intros _].
    subst L. split; now read_derived.
Qed.

Lemma normalizeParams_throws (params : value) (e : error) :
  normalizeParams params = Throw e -> params = Null /\ e = TypeError.
Proof.
  intros H. destruct params; try (now inversion H);
    match type of H with
    | normalizeParams ?p = _ =>
        destruct (normalizeParams_total p) as [ps Hps]; congruence
    end.
Qed.



Lemma derived_reads (raw : value) (mprops : list (string * value))
      (p : value) (u M : string) (a : bool) (h b : value) (key : Z) :
  let N := derived raw mprops p u M a h b key in
  lookup "params" N = (if has_key "params" mprops then p
                       else lookup "params" mprops) /\
  lookup "url" N = Str u /\
  lookup "method" N = Str M /\
  lookup "isArray" N = Bool a /\
  lookup "headers" N = (if has_key "headers" mprops then h
                        else lookup "headers" mprops) /\
  lookup "body" N = (if has_key "body" mprops then b
                     else lookup "body" mprops) /\
  lookup "requestKey" N = Num key /\
  lookup "defaultValue" N <> Undefined /\
  (M = "GET" ->
   lookup "auto" N <> Undefined /\ lookup "store" N <> Undefined) /\
  lookup "schema" N = lookup "schema" mprops.
Proof.
  intros N. subst N. unfold derived, with_get_defaults.
  set (L := set "requestKey" _ _).
  assert (lookup "method" (with_default_value L) = Str M) as HM
      by (subst L; now read_derived).
  rewrite HM. cbn [strict_eq_string].
  assert (lookup "defaultValue" (with_default_value L) <> Undefined) as Hdv.
  { rewrite lookup_with_default_value. cbn [String.eqb Ascii.eqb Bool.eqb].
    destruct (lookup "defaultValue" L); try discriminate.
    destruct (truthy _); discriminate. }
  destruct (String.eqb_spec M "GET") as [E|E].
  - repeat split; try (subst L; read_derived;
                       rewrite ?has_key_write_back, ?has_key_set;
                       cbn [String.eqb Ascii.eqb Bool.eqb orb];
                       reflexivity).
    + rewrite !lookup_with_flag. cbn [String.eqb Ascii.eqb Bool.eqb].
      exact Hdv.
    + rewrite !lookup_with_flag. cbn [String.eqb Ascii.eqb Bool.eqb].
      destruct (lookup "auto" (with_default_value L)); discriminate.
    + rewrite !lookup_with_flag. cbn [String.eqb Ascii.eqb Bool.eqb].
      destruct (lookup "store" (with_default_value L)); discriminate.
  - repeat split; try (subst L; read_derived;
                       rewrite ?has_key_write_back, ?has_key_set;
                       cbn [String.eqb Ascii.eqb Bool.eqb orb];
                       reflexivity); try assumption; try congruence.
Qed.

Lemma fullUrl_fst_falsy (nu : string -> result string) (url params : value)
      (pu : value * string) :
  truthy params = false -> fullUrl nu url params = Ok pu -> fst pu = params.
Proof.
  unfold fullUrl. intros Ht H. rewrite Ht in H.
  destruct url; try discriminate.
  destruct (nu _); inversion H. reflexivity.
Qed.

Lemma fullUrl_fst_again (nu : string -> result string)
      (url url2 params : value) (pu pu2 : value * string) :
  fullUrl nu url params = Ok pu -> fullUrl nu url2 (fst pu) = Ok pu2 ->
  fst pu2 = fst pu.
Proof.
  intros H H2. destruct (truthy (fst pu)) eqn:Ht2;
    [|now apply (fullUrl_fst_falsy nu url2)].
  destruct (truthy params) eqn:Ht.
  - unfold fullUrl in H, H2. rewrite Ht in H. rewrite Ht2 in H2.
    destruct url; try discriminate. destruct url2; try discriminate.
    destruct (normalizeParams params) as [[p q]|] eqn:Hp; [|discriminate].
    cbn [bind fst snd] in H. destruct (nu _); [|discriminate].
    inversion H; subst pu. cbn [fst] in *.
    rewrite (normalizeParams_again _ _ _ Hp) in H2. cbn [bind fst snd] in H2.
    destruct (nu _); inversion H2. reflexivity.
  - rewrite (fullUrl_fst_falsy nu url params pu Ht H) in Ht2. congruence.
Qed.

Lemma has_key_grows (k : string) (l l' : list (string * value)) :
  grows l l' -> has_key k l = true -> has_key k l' = true.
Proof.
  intros [[r Hr] _]. rewrite !has_key_In, Hr, in_app_iff. tauto.
Qed.

Lemma normalizeParams_written (k : string) (mprops : list (string * value))
      (ps : value * string) :
  normalizeParams (lookup k mprops) = Ok ps ->
  (if has_key k mprops then fst ps else lookup k mprops) = fst ps /\
  normalizeParams (fst ps) = Ok ps.
Proof.
  intros H. split.
  - destruct (has_key k mprops) eqn:E; auto.
    rewrite (lookup_has_key _ _ E) in *. now inversion H.
  - destruct ps as [p q]. now apply (normalizeParams_again (lookup k mprops)).
Qed.

Lemma merged_obj (props : list (string * value)) :
  merged (Obj props) =
  Obj (spread (spread (spread [] definitionDefaults)
                 (if truthy (lookup "extends" props)
                  then lookup "extends" props else Obj []))
         (Obj props)).
Proof. unfold merged. now rewrite !get_plain by reflexivity. Qed.

Lemma NoDup_keys_base (e : value) :
  NoDup (map fst (spread (spread [] definitionDefaults) e)).
Proof.
  apply (grows_spread (spread [] definitionDefaults) e).
  apply (grows_spread [] definitionDefaults). constructor.
Qed.

(** *** The keys of a spread *)

Lemma filter_map_pairs {A B : Type} (g : A -> B) (p : A -> bool)
      (q : B -> bool) (l : list A) :
  (forall x, q (g x) = p x) -> filter q (map g l) = map g (filter p l).
Proof.
  intros H. induction l as [|x l IH]; simpl; auto.
  rewrite H, IH. now destruct (p x).
Qed.

Lemma insert_index_map {A B : Type} (f : A -> B) (kv : string * A)
      (l : list (string * A)) :
  insert_index (fst kv, f (snd kv)) (map (fun kv => (fst kv, f (snd kv))) l) =
  map (fun kv => (fst kv, f (snd kv))) (insert_index kv l).
Proof.
  induction l as [|kv' l IH]; simpl; auto.
  destruct (_ <=? _)%N; simpl; congruence.
Qed.

Lemma own_order_map {A B : Type} (f : A -> B) (l : list (string * A)) :
  own_order (map (fun kv => (fst kv, f (snd kv))) l) =
  map (fun kv => (fst kv, f (snd kv))) (own_order l).
Proof.
  unfold own_order. rewrite map_app. f_equal.
  - rewrite (filter_map_pairs _ (fun kv => is_index (fst kv))) by reflexivity.
    induction (filter _ l) as [|kv r IH]; simpl; auto.
    now rewrite IH, insert_index_map.
  - now apply filter_map_pairs.
Qed.

Lemma keys_own_order_ext {A B : Type} (l : list (string * A))
      (l' : list (string * B)) :
  map fst l = map fst l' -> map fst (own_order l) = map fst (own_order l').
Proof.
  intros H.
  assert (forall C (x : list (string * C)),
             map fst (own_order x) =
             map fst (own_order (map (fun k => (k, tt)) (map fst x)))) as E.
  { intros C x. rewrite map_map.
    rewrite (own_order_map (fun _ => tt) x), map_map. reflexivity. }
  now rewrite (E A l), (E B l'), H.
Qed.

Lemma has_key_keys (k : string) (l l' : list (string * value)) :
  map fst l = map fst l' -> has_key k l = has_key k l'.
Proof.
  intros H. apply eq_true_iff_eq. now rewrite !has_key_In, H.
Qed.

Lemma keys_fold_set_ext (src src' target target' : list (string * value)) :
  map fst src = map fst src' -> map fst target = map fst target' ->
  map fst (fold_left (fun acc kv => set (fst kv) (snd kv) acc) src target) =
  map fst (fold_left (fun acc kv => set (fst kv) (snd kv) acc) src' target').
Proof.
  revert src' target target'.
  induction src as [|[k v] src IH]; intros [|[k' v'] src'] target target' Hs Ht;
    try discriminate; simpl; auto.
  simpl in Hs. inversion Hs; subst. apply IH; auto.
  now rewrite !keys_set, (has_key_keys _ _ _ Ht), Ht.
Qed.

(** The keys a spread leaves: those of the target, then the new ones
    in the order of the source *)
Lemma keys_fold_set (src target : list (string * value)) :
  NoDup (map fst src) ->
  map fst (fold_left (fun acc kv => set (fst kv) (snd kv) acc) src target) =
  (map fst target ++
   map fst (filter (fun kv => negb (has_key (fst kv) target)) src))%list.
Proof.
  revert target.
  induction src as [|[k v] src IH]; intros target Hnd; simpl.
  - now rewrite app_nil_r.
  - inversion Hnd as [|? ? Hk Hnd']; subst. rewrite IH by assumption.
    assert (filter (fun kv => negb (has_key (fst kv) (set k v target))) src =
            filter (fun kv => negb (has_key (fst kv) target)) src) as ->.
    { apply filter_ext_in. intros [k' v'] Hin. cbn [fst].
      rewrite has_key_set. destruct (String.eqb_spec k k') as [->|]; auto.
      exfalso. apply Hk. apply in_map_iff. now exists (k', v'). }
    rewrite keys_set. destruct (has_key k target); cbn [negb map fst]; auto.
    now rewrite <- app_assoc.
Qed.

Lemma list_ext (l l' : list (string * value)) :
  NoDup (map fst l) -> map fst l = map fst l' ->
  (forall k, lookup k l = lookup k l') -> l = l'.
Proof.
  revert l'.
  induction l as [|[k v] l IH]; intros [|[k' v'] l'] Hnd Hk Hl;
    try discriminate; auto.
  simpl in Hk. inversion Hk; subst k'.
  inversion Hnd as [|? ? Hin Hnd']; subst.
  pose proof (Hl k) as Hv. simpl in Hv. rewrite String.eqb_refl in Hv.
  subst v'. f_equal. apply IH; auto.
  intros k'. destruct (String.eqb_spec k k') as [<-|Hne].
  - rewrite !lookup_not_in; auto. congruence.
  - specialize (Hl k'). simpl in Hl.
    apply String.eqb_neq in Hne. now rewrite Hne in Hl.
Qed.

Lemma filter_none {X : Type} (p : X -> bool) (l : list X) :
  (forall x, In x l -> p x = false) -> filter p l = [].
Proof.
  induction l as [|x l IH]; intros H; simpl; auto.
  rewrite (H x) by now left. apply IH. intros y Hy. apply H. now right.
Qed.

Lemma NoDup_app_disjoint {X : Type} (l l' : list X) (x : X) :
  NoDup (l ++ l') -> In x l -> ~ In x l'.
Proof.
  induction l as [|y l IH]; simpl; intros Hnd [].
  - subst y. inversion Hnd as [|? ? Hin _]. subst. intros Hx. apply Hin.
    apply in_or_app. now right.
  - inversion Hnd; subst. now apply IH.
Qed.

(** Merging a definition that grew out of a merge of [props] over
    [X], by keys that are no array indices, over a target with the keys
    of [X], leaves its keys as they are. *)
Lemma keys_spread_again (X X' props N : list (string * value))
      (r : list string) :
  NoDup (map fst props) ->
  NoDup (map fst N) ->
  map fst X' = map fst X ->
  map fst N = (map fst (spread X (Obj props)) ++ r)%list ->
  forallb (fun k => negb (is_index k)) r = true ->
  map fst (spread X' (Obj N)) = map fst N.
Proof.
  intros Hnd HndN HX HN Hr. unfold spread in *. cbn [enumerate] in *.
  set (p := fun kv : string * value => negb (has_key (fst kv) X)).
  set (q := fun k : string => negb (has_key k X)).
  rewrite keys_fold_set in HN by now apply NoDup_own_order.
  fold p in HN.
  rewrite keys_fold_set by now apply NoDup_own_order.
  assert (filter (fun kv => negb (has_key (fst kv) X')) (own_order N) =
          filter p (own_order N)) as ->.
  { apply filter_ext. intros kv. unfold p. now rewrite (has_key_keys _ _ _ HX). }
  rewrite HX, filter_own_order.
  set (R := map (fun k => (k, Undefined)) r).
  assert (map fst R = r) as HR.
  { subst R. rewrite map_map. cbn [fst]. apply map_id. }
  assert (map fst (filter p N) = map fst (filter p (own_order props) ++ R)%list)
    as Hkeys.
  { rewrite <- (filter_map_pairs fst p q N) by reflexivity.
    rewrite HN, !filter_app, map_app, HR.
    rewrite (filter_map_pairs fst p q (filter p (own_order props)))
      by reflexivity.
    rewrite filter_filter_same.
    rewrite (filter_none q (map fst X)).
    2:{ intros k Hk. unfold q. apply has_key_In in Hk. now rewrite Hk. }
    rewrite (filter_all q r); auto.
    intros k Hk. unfold q. apply negb_true_iff, has_key_false.
    intros HkX. rewrite HN in HndN.
    apply (NoDup_app_disjoint _ _ k HndN); auto.
    apply in_or_app. now left. }
  rewrite (keys_own_order_ext _ _ Hkeys).
  rewrite own_order_app_plain.
  2:{ subst R. clear - Hr. induction r as [|k r IH]; simpl in *; auto.
      apply andb_true_iff in Hr. destruct Hr as [-> Hr]. now apply IH. }
  rewrite filter_own_order, own_order_again, <- filter_own_order.
  now rewrite map_app, HR, HN, app_assoc.
Qed.

(** *** Normalizing a normalized definition *)

Lemma same_keys_truthy (a b : value) : same_keys a b -> truthy a = truthy b.
Proof. now intros [->|(l & l' & -> & -> & _)]. Qed.

Lemma same_keys_enumerate (a b : value) :
  same_keys a b -> map fst (enumerate a) = map fst (enumerate b).
Proof.
  intros [->|(l & l' & -> & -> & H)]; auto. now apply keys_own_order_ext.
Qed.

Lemma same_keys_assign (e : value) (ep l : list (string * value))
      (k : string) (v : value) :
  e = Obj ep -> has_key k ep = true -> same_keys e (Obj l) ->
  same_keys e (assign (Obj l) k v).
Proof.
  intros -> Hk H. right. exists ep, (put k v l).
  assert (map fst ep = map fst l) as Hl.
  { destruct H as [H|(l1 & l2 & H1 & H2 & H)]; congruence. }
  repeat split; auto.
  rewrite put_own_key, keys_set by now rewrite <- (has_key_keys _ _ _ Hl).
  now rewrite <- (has_key_keys _ _ _ Hl), Hk.
Qed.

Lemma same_keys_share (props l : list (string * value)) (k : string) :
  same_keys (lookup "extends" props) (lookup "extends" l) ->
  same_keys (lookup "extends" props)
            (lookup "extends" (share (Obj props) k l)).
Proof.
  intros H. unfold share. destruct (shares (Obj props) k) eqn:Hs; auto.
  rewrite lookup_set_same. unfold shares in Hs.
  apply andb_true_iff in Hs. destruct Hs as [_ Hs].
  destruct (lookup "extends" props) as [| | | | | |ep| | |] eqn:He;
    try discriminate.
  assert (exists el, lookup "extends" l = Obj el) as [el Hel].
  { destruct H as [<-|(l1 & l2 & _ & -> & _)]; eauto. }
  rewrite Hel in *. now apply (same_keys_assign _ ep).
Qed.

(** What [extends] holds after the derivation: the object the raw
    definition gave, or the empty one of the defaults, with the same
    keys *)
Lemma extends_derived (props mprops : list (string * value)) (p : value)
      (u M : string) (a : bool) (h b : value) (key : Z) :
  lookup "extends" mprops =
    (if has_key "extends" props then lookup "extends" props else Obj []) ->
  same_keys (if has_key "extends" props then lookup "extends" props else Obj [])
            (lookup "extends" (derived (Obj props) mprops p u M a h b key)).
Proof.
  intros H. destruct (has_key "extends" props) eqn:Hk.
  - assert (same_keys (lookup "extends" props) (lookup "extends" mprops)) as H0
        by (left; congruence).
    unfold derived, with_get_defaults.
    destruct (strict_eq_string _ _);
      repeat first
        [ rewrite lookup_set_other by reflexivity
        | rewrite lookup_write_back by reflexivity
        | rewrite lookup_with_default_value_other by reflexivity
        | rewrite lookup_with_flag_other by reflexivity
        | apply same_keys_share ];
      exact H0.
  - assert (forall k, shares (Obj props) k = false) as Hs.
    { intros k. unfold shares. rewrite (lookup_has_key _ _ Hk).
      apply andb_false_r. }
    unfold derived, with_get_defaults. rewrite !share_id by apply Hs.
    destruct (strict_eq_string _ _); skip_writes; left; congruence.
Qed.

Lemma has_key_derived (raw : value) (mprops : list (string * value))
      (p : value) (u M : string) (a : bool) (h b : value) (key : Z)
      (k : string) :
  has_key k (derived raw mprops p u M a h b key) = true ->
  In k derived_names \/ has_key k mprops = true.
Proof.
  unfold derived, with_get_defaults.
  destruct (strict_eq_string _ _);
    rewrite ?has_key_with_flag, ?has_key_with_default_value;
    repeat (rewrite ?has_key_set, ?has_key_share, ?has_key_write_back);
    intros H;
    repeat match type of H with
           | (_ || _)%bool = true =>
               apply orb_true_iff in H; destruct H as [H|H]
           | (_ && _)%bool = true =>
               apply andb_true_iff in H; destruct H as [_ H]
           end;
    try (apply String.eqb_eq in H; subst k; left; cbn; tauto);
    now right.
Qed.

Lemma derived_names_plain :
  forallb (fun k => negb (is_index k)) derived_names = true.
Proof. vm_compute. reflexivity. Qed.

(** The second merge gives the normalized definition back, and shares
    nothing with its [extends] *)
Lemma merged_derived (props mprops : list (string * value)) (p : value)
      (u M : string) (a : bool) (h b : value) (key : Z) :
  NoDup (map fst props) ->
  merged (Obj props) = Obj mprops ->
  let N := derived (Obj props) mprops p u M a h b key in
  merged (Obj N) = Obj N /\ forall k, shares (Obj N) k = false.
Proof.
  intros Hnd HM N. rewrite merged_obj in HM. inversion HM as [HM']. clear HM.
  set (E := if truthy (lookup "extends" props) then _ else _) in HM'.
  set (X := spread (spread [] definitionDefaults) E) in HM'.
  set (e := if has_key "extends" props then lookup "extends" props else Obj []).
  assert (lookup "extends" mprops = e) as He.
  { rewrite <- HM', lookup_spread by assumption. subst e.
    destruct (has_key "extends" props) eqn:Hk; auto.
    subst X E. rewrite (lookup_has_key _ _ Hk). reflexivity. }
  assert (E = if truthy e then e else Obj []) as HE.
  { subst E e. destruct (has_key "extends" props) eqn:Hk; auto.
    now rewrite (lookup_has_key _ _ Hk). }
  pose proof (extends_derived props mprops p u M a h b key He) as Hsame.
  fold N e in Hsame.
  set (E' := if truthy (lookup "extends" N) then lookup "extends" N else Obj []).
  set (X' := spread (spread [] definitionDefaults) E').
  assert (same_keys E E') as HEE.
  { subst E'. rewrite HE, <- (same_keys_truthy _ _ Hsame).
    destruct (truthy e); [assumption|now left]. }
  assert (map fst X' = map fst X) as HX.
  { apply keys_fold_set_ext; auto. symmetry. now apply same_keys_enumerate. }
  assert (NoDup (map fst mprops)) as Hndm.
  { rewrite <- HM'. apply grows_spread. apply NoDup_keys_base. }
  destruct (grows_derived (Obj props) mprops p u M a h b key) as [[r Hr] HndN].
  fold N in Hr, HndN. specialize (HndN Hndm).
  assert (forall k, has_key k X' = true -> has_key k N = true) as HXN.
  { intros k Hk. rewrite (has_key_keys _ _ _ HX) in Hk.
    apply has_key_In. rewrite Hr. apply in_or_app. left.
    apply has_key_In. rewrite <- HM', has_key_spread, Hk.
    apply orb_true_r. }
  split.
  - rewrite merged_obj. fold E' X'. f_equal. symmetry. apply list_ext; auto.
    + symmetry. apply (keys_spread_again X X' props N r); auto.
      * now rewrite HM'.
      * apply forallb_forall. intros k Hk.
        assert (In k derived_names) as Hin.
        { destruct (has_key_derived (Obj props) mprops p u M a h b key k)
            as [Hin|Hin]; auto.
          - apply has_key_In. fold N. rewrite Hr. apply in_or_app. now right.
          - exfalso. rewrite Hr in HndN. apply has_key_In in Hin.
            now apply (NoDup_app_disjoint _ _ k HndN). }
        pose proof derived_names_plain as Hp.
        rewrite forallb_forall in Hp. now apply Hp.
    + intros k. rewrite lookup_spread by assumption.
      destruct (has_key k N) eqn:Hk; auto.
      rewrite (lookup_has_key _ _ Hk). symmetry. apply lookup_has_key.
      destruct (has_key k X') eqn:Hk'; auto.
      rewrite (HXN k Hk') in Hk. discriminate.
  - intros k. unfold shares. destruct (has_key k N) eqn:Hk; auto.
    cbn [negb andb].
    destruct (lookup "extends" N) as [| | | | | |el| | |] eqn:Hel; auto.
    destruct (has_key k el) eqn:Hkel; auto.
    rewrite (HXN k) in Hk; [discriminate|].
    subst X' E'. rewrite ?Hel. cbn [truthy].
    now rewrite has_key_spread, Hkel.
Qed.

(** *** Urls *)

Lemma test_query_app (a t : string) :
  test_query a = true -> test_query (a ++ t) = true.
Proof.
  induction a as [|c a IH]; [discriminate|].
  destruct a as [|d a]; [discriminate|].
  cbn [append test_query] in *.
  destruct ((c =? "?")%char && negb (d =? "#")%char)%bool; auto.
Qed.

Lemma strip_trailing_slashes_prefix (u : string) :
  exists t, u = strip_trailing_slashes u ++ t.
Proof.
  induction u as [|c u [t IH]]; [now exists ""|].
  cbn [strip_trailing_slashes].
  destruct ((c =? "/")%char && (strip_trailing_slashes u =? ""))%bool.
  - now exists (String c u).
  - exists t. cbn [append]. congruence.
Qed.

(** A url without a query string has none once its trailing slashes are
    stripped *)
Lemma test_query_strip (u : string) :
  test_query u = false -> test_query (strip_trailing_slashes u) = false.
Proof.
  intros H. destruct (test_query (strip_trailing_slashes u)) eqn:E; auto.
  destruct (strip_trailing_slashes_prefix u) as [t Ht].
  rewrite Ht, (test_query_app _ t E) in H. discriminate.
Qed.

Lemma strip_trailing_slashes_idempotent (u : string) :
  strip_trailing_slashes (strip_trailing_slashes u) = strip_trailing_slashes u.
Proof.
  induction u as [|c u IH]; auto. cbn [strip_trailing_slashes].
  destruct ((c =? "/")%char && (strip_trailing_slashes u =? ""))%bool eqn:E;
    auto.
  cbn [strip_trailing_slashes]. now rewrite IH, E.
Qed.

Lemma occurs_path_of (s : string) :
  occurs "?" (normalize_url.path_of s) = false.
Proof.
  induction s as [|c s IH]; auto. cbn [normalize_url.path_of].
  destruct (c =? "?")%char eqn:E; auto. cbn [occurs]. now rewrite E.
Qed.

Lemma occurs_strip (c : ascii) (s : string) :
  occurs c s = false -> occurs c (strip_trailing_slashes s) = false.
Proof.
  induction s as [|d s IH]; auto. cbn [occurs strip_trailing_slashes].
  intros H. apply orb_false_iff in H. destruct H as [Hd Hs].
  destruct ((d =? "/")%char && _)%bool; auto.
  cbn [occurs]. now rewrite Hd, IH.
Qed.

Lemma test_query_plain (s : string) :
  occurs "?" s = false -> test_query s = false.
Proof.
  induction s as [|c s IH]; auto. cbn [occurs]. intros H.
  apply orb_false_iff in H. destruct H as [Hc Hs].
  destruct s as [|d s]; auto.
  change (test_query (String c (String d s))) with
    (if ((c =? "?")%char && negb (d =? "#")%char)%bool then true
     else test_query (String d s)).
  rewrite Hc. cbn [andb]. now apply IH.
Qed.

Lemma path_of_plain (s : string) :
  occurs "?" s = false -> normalize_url.path_of s = s.
Proof.
  induction s as [|c s IH]; auto. cbn [occurs normalize_url.path_of].
  intros H. apply orb_false_iff in H. destruct H as [-> Hs].
  now rewrite IH.
Qed.

(** The stand-in returns canonical urls *)
Lemma normalize_url_canonical : canonical_urls normalize_url.normalizeUrl.
Proof.
  intros u u' Hu Hq H. unfold normalize_url.normalizeUrl in *.
  rewrite Hu, Hq in H. inversion H; subst u'; clear H.
  set (o := strip_trailing_slashes (normalize_url.path_of _)).
  assert (occurs "?" o = false) as Ho
      by (apply occurs_strip, occurs_path_of).
  assert (strip_trailing_slashes o = o) as Hs
      by apply strip_trailing_slashes_idempotent.
  rewrite Hs, (test_query_plain o Ho), (path_of_plain o Ho), Hs.
  repeat split; auto.
Qed.

(** C2, as amended.  Let [n] be the normalized form of a raw
    definition [d].  When the url of [n] carries a query string,
    normalizing [n] fails with the definition error about query
    parameters.  When the merge of [d] has no [params] (none, or a falsy
    value) and the url package returns canonical urls for urls without
    a query string, normalizing [n] returns [n]: the second application
    does not fail and changes nothing, [url] and [requestKey]
    included. *)
Theorem normalize_twice (nu : string -> result string)
        (props : list (string * value)) (n : value) :
  NoDup (map fst props) ->
  normalizeResourceDefinition nu (Obj props) = Ok n ->
  exists u,
    get n "url" = Str u /\
    (test_query u = true ->
     normalizeResourceDefinition nu n =
       Throw (InvariantViolation query_message)) /\
    (canonical_urls nu ->
     truthy (get (merged (Obj props)) "params") = false ->
     normalizeResourceDefinition nu n = Ok n).
Proof.
  intros Hnd H.
  destruct (normalize_ok nu _ n H)
    as (mprops & pu & m & getKey & hs & bs & _ & HM & Hs & Hq & Hpu & Hm
        & Hg & Hhs & Hbs & ->).
  set (key := string_hash.stringHash _).
  set (N := derived _ _ _ _ _ _ _ _ _).
  destruct (derived_reads (Obj props) mprops (fst pu) (snd pu) (toUpperCase m)
                          (negb (truthy getKey)) (fst hs) (fst bs) key)
    as (Rp & Ru & Rm & Ra & Rh & Rb & Rk & Rd & Rf & Rs).
  fold N in Rp, Ru, Rm, Ra, Rh, Rb, Rk, Rd, Rf, Rs.
  destruct (merged_derived props mprops (fst pu) (snd pu) (toUpperCase m)
                           (negb (truthy getKey)) (fst hs) (fst bs) key
                           Hnd HM) as [HN Hshare].
  fold N in HN, Hshare.
  destruct (normalizeParams_written "headers" mprops hs Hhs) as [Hh1 Hh2].
  destruct (normalizeParams_written "body" mprops bs Hbs) as [Hb1 Hb2].
  rewrite Hh1 in Rh. rewrite Hb1 in Rb.
  exists (snd pu). rewrite get_plain by reflexivity. split; [exact Ru|].
  rewrite (normalize_steps nu (Obj N) N eq_refl HN).
  rewrite Rs, Ru, Rm, Rh, Rb, Hg, Hh2, Hb2. cbn [to_string].
  split.
  - intros ->. destruct (lookup "schema" mprops); try congruence; reflexivity.
  - intros Hnu Hp. rewrite HM, get_plain in Hp by reflexivity.
    assert (lookup "params" N = lookup "params" mprops) as Rp'.
    { rewrite Rp. destruct (has_key "params" mprops) eqn:Hk; auto.
      now apply (fullUrl_fst_falsy nu (lookup "url" mprops)). }
    rewrite Rp'. unfold fullUrl in Hpu |- *. rewrite Hp in Hpu |- *.
    destruct (lookup "url" mprops) as [| | | |u0| | | | |]; try discriminate.
    cbn [to_string] in Hq.
    destruct (nu (strip_trailing_slashes u0)) as [u1|] eqn:Hu1;
      [|discriminate].
    cbn [bind] in Hpu. inversion Hpu; subst pu. cbn [fst snd] in *.
    destruct (Hnu _ _ (strip_trailing_slashes_idempotent u0)
                  (test_query_strip u0 Hq) Hu1) as (Hagain & Hstrip & Hquery).
    rewrite Hquery, Hstrip, Hagain.
    assert (derived (Obj N) N (lookup "params" mprops) u1 (toUpperCase m)
                    (negb (truthy getKey)) (fst hs) (fst bs) key = N) as HD.
    { unfold derived at 1. rewrite !share_id by apply Hshare.
      rewrite (write_back_id "params") by assumption.
      rewrite (set_id "url")
        by (auto; apply lookup_defined_has_key; congruence).
      rewrite (set_id "method")
        by (auto; apply lookup_defined_has_key; congruence).
      rewrite (set_id "isArray")
        by (auto; apply lookup_defined_has_key; congruence).
      rewrite (write_back_id "headers") by assumption.
      rewrite (write_back_id "body") by assumption.
      rewrite (set_id "requestKey")
        by (auto; apply lookup_defined_has_key; congruence).
      rewrite with_default_value_id by assumption.
      unfold with_get_defaults. rewrite Rm. cbn [strict_eq_string].
      destruct (String.eqb_spec (toUpperCase m) "GET") as [Eq|]; auto.
      destruct (Rf Eq) as [Rauto Rstore].
      now rewrite (with_flag_id "auto"), (with_flag_id "store"). }
    destruct (lookup "schema" mprops); try congruence;
      cbn [invariant negb bind fst snd];
      rewrite toUpperCase_idempotent; fold key; now rewrite HD.
Qed.

(** *** The normalizer on the example definitions *)


Lemma normalize_twice_witness :
  NoDup (map fst user_seven) /\
  normalizeResourceDefinition normalize_url.normalizeUrl (Obj user_seven)
  = Ok normalized_user_seven /\
  truthy (get (merged (Obj user_seven)) "params") = false /\
  normalizeResourceDefinition normalize_url.normalizeUrl normalized_user_seven
  = Ok normalized_user_seven.
Proof.
  assert (NoDup (map fst user_seven)) as Hnd by distinct_keys.
  assert (normalizeResourceDefinition normalize_url.normalizeUrl
            (Obj user_seven) = Ok normalized_user_seven) as Hn
      by (vm_compute; reflexivity).
  assert (truthy (get (merged (Obj user_seven)) "params") = false) as Hp
      by (vm_compute; reflexivity).
  repeat (split; [assumption|]).
  destruct (normalize_twice normalize_url.normalizeUrl user_seven
                            normalized_user_seven Hnd Hn)
    as (u & _ & _ & Hsame).
  exact (Hsame normalize_url_canonical Hp).
Defined.

(** C2 fails as stated: a definition with [params] normalizes to a url
    with a query string, which the normalizer then rejects. *)
Lemma normalize_twice_counterexample :
  exists n,
    normalizeResourceDefinition normalize_url.normalizeUrl (Obj paged_users)
    = Ok n /\
    get n "url" = Str "http://a/users/?page=1" /\
    normalizeResourceDefinition normalize_url.normalizeUrl n
    = Throw (InvariantViolation query_message).
Proof.
  eexists. split; [vm_compute; reflexivity|].
  split; vm_compute; reflexivity.
Qed.



Lemma auto_store_defaults_witness :
  normalizeResourceDefinition normalize_url.normalizeUrl (Obj user_seven)
  = Ok normalized_user_seven /\
  exists m,
    get (merged (Obj user_seven)) "method" = Str m /\
    get normalized_user_seven "method" = Str (toUpperCase m) /\
    (toUpperCase m = "GET" ->
     get normalized_user_seven "auto" =
       match get (merged (Obj user_seven)) "auto" with
       | Undefined => Bool true
       | v => v
       end /\
     get normalized_user_seven "store" =
       match get (merged (Obj user_seven)) "store" with
       | Undefined => Bool true
       | v => v
       end) /\
    (toUpperCase m <> "GET" ->
     get normalized_user_seven "auto" =
       get (merged (Obj user_seven)) "auto" /\
     get normalized_user_seven "store" =
       get (merged (Obj user_seven)) "store").
Proof.
  assert (normalizeResourceDefinition normalize_url.normalizeUrl
            (Obj user_seven) = Ok normalized_user_seven) as Hn
      by (vm_compute; reflexivity).
  split; [exact Hn|].
  exact (auto_store_defaults normalize_url.normalizeUrl (Obj user_seven)
                             normalized_user_seven Hn).
Defined.

(** The method is tested once it is in upper case: a merged method
    [get] gets both flags, and for POST they stay [undefined]. *)
Lemma auto_store_examples :
  (exists n,
      normalizeResourceDefinition normalize_url.normalizeUrl (Obj get_lower)
      = Ok n /\
      get n "method" = Str "GET" /\
      get n "auto" = Bool true /\ get n "store" = Bool true) /\
  (exists n,
      normalizeResourceDefinition normalize_url.normalizeUrl (Obj post_user)
      = Ok n /\
      get n "auto" = Undefined /\ get n "store" = Undefined /\
      truthy (get n "auto") = false /\ truthy (get n "store") = false).
Proof.
  split; eexists; (split; [vm_compute; reflexivity|]); repeat split.
Qed.

(* ================================================================== *)
(** ** Further properties of the helpers *)

(** *** [_sortObject] *)

Lemma value_induction (P : value -> Prop) :
  P Undefined -> P Null -> (forall b, P (Bool b)) -> (forall n, P (Num n)) ->
  (forall s, P (Str s)) ->
  (forall items, Forall P items -> P (Arr items)) ->
  (forall props, Forall (fun kv => P (snd kv)) props -> P (Obj props)) ->
  (forall src, P (Fn src)) -> (forall s, P (SchemaObj s)) ->
  P ObjectPrototype ->
  forall v, P v.
Proof.
  intros Hu Hn Hb Hz Hs Ha Ho Hf Hc Hp. fix IH 1.
  intros [| |b|n|s|items|props|src|sc|].
  - exact Hu.
  - exact Hn.
  - apply Hb.
  - apply Hz.
  - apply Hs.
  - apply Ha. induction items as [|x items IHl]; constructor.
    + apply IH.
    + exact IHl.
  - apply Ho. induction props as [|kv props IHl]; constructor.
    + apply IH.
    + exact IHl.
  - apply Hf.
  - apply Hc.
  - exact Hp.
Qed.

Lemma sorted_deep_obj (props : list (string * value)) :
  sorted_deep (Obj props) <->
  sorted_listing (map fst (own_order props)) = true /\
  Forall (fun kv => sorted_deep (snd kv)) props.
Proof.
  cbn [sorted_deep]. 
  assert ((fix all (l : list (string * value)) : Prop :=
         match l with
         | [] => True
         | kv :: l' => sorted_deep (snd kv) /\ all l'
         end) props <-> Forall (fun kv => sorted_deep (snd kv)) props) as H.
  { induction props as [|kv props IH]; split; auto.
    - intros [H1 H2]. constructor; tauto.
    - intros H. inversion H; subst. tauto. }
  tauto.
Qed.

Lemma ascending_cons (k k' : string) (ks : list string) :
  ascending (k :: k' :: ks) = ((k <=? k') && ascending (k' :: ks))%bool.
Proof. reflexivity. Qed.

Lemma ascending_tail (k : string) (ks : list string) :
  ascending (k :: ks) = true -> ascending ks = true.
Proof.
  destruct ks as [|k' ks]; auto. rewrite ascending_cons, andb_true_iff. tauto.
Qed.

Lemma ascending_app_last (ks : list string) (k : string) :
  ascending ks = true -> (forall k', In k' ks -> (k' <=? k) = true) ->
  ascending (ks ++ [k]) = true.
Proof.
  induction ks as [|a ks IH]; intros Hs Hle; auto.
  destruct ks as [|b ks].
  - cbn [app]. rewrite ascending_cons, Hle by now left. reflexivity.
  - cbn [app] in *. rewrite ascending_cons in *.
    apply andb_true_iff in Hs. destruct Hs as [H1 H2].
    rewrite H1. cbn [andb]. apply IH; auto. intros k' Hk'. apply Hle. now right.
Qed.

Lemma insert_sorted_ascending (k : string) (ks : list string) :
  ascending ks = true -> ascending (insert_sorted k ks) = true.
Proof.
  induction ks as [|a ks IH]; intros Hs; auto.
  cbn [insert_sorted]. destruct (k <=? a) eqn:E.
  - now rewrite ascending_cons, E, Hs.
  - apply string_leb_false in E.
    specialize (IH (ascending_tail _ _ Hs)).
    destruct ks as [|b ks].
    + cbn [insert_sorted]. now rewrite ascending_cons, E.
    + rewrite ascending_cons in Hs. apply andb_true_iff in Hs.
      destruct Hs as [Hab Hs]. cbn [insert_sorted] in *.
      destruct (k <=? b) eqn:E2.
      * now rewrite ascending_cons, E, IH.
      * now rewrite ascending_cons, Hab, IH.
Qed.

Lemma sort_ascending (ks : list string) : ascending (sort ks) = true.
Proof.
  induction ks as [|k ks IH]; auto. cbn [sort fold_right].
  now apply insert_sorted_ascending.
Qed.

Lemma ascending_head (k : string) (ks : list string) :
  ascending (k :: ks) = true ->
  forall k', In k' ks -> (k <=? k') = true.
Proof.
  revert k. induction ks as [|a ks IH]; intros k Hs; [intros ? []|].
  rewrite ascending_cons in Hs. apply andb_true_iff in Hs.
  destruct Hs as [H1 H2]. intros k' [<-|Hin]; auto.
  eapply string_leb_trans; eauto.
Qed.

Lemma Forall_values_set (P : value -> Prop) (k : string) (v : value)
      (l : list (string * value)) :
  P v -> Forall (fun kv => P (snd kv)) l ->
  Forall (fun kv => P (snd kv)) (set k v l).
Proof.
  intros Hv H. induction H as [|[k' v'] l Hx Hl IH]; cbn [set].
  - now constructor.
  - destruct (k' =? k); constructor; auto.
Qed.

Lemma ascending_keys_set (k : string) (v : value) (l : list (string * value)) :
  ascending (map fst l) = true ->
  (forall k', In k' (map fst l) -> (k' <=? k) = true) ->
  ascending (map fst (set k v l)) = true.
Proof.
  intros Hs Hle. rewrite keys_set. destruct (has_key k l); auto.
  now apply ascending_app_last.
Qed.

Lemma in_keys_set (k k' : string) (v : value) (l : list (string * value)) :
  In k' (map fst (set k v l)) -> k' = k \/ In k' (map fst l).
Proof.
  rewrite keys_set. destruct (has_key k l); auto.
  rewrite in_app_iff. cbn [In]. intros [H|[H|[]]]; auto.
Qed.

(** The listing of an object created with its keys in ascending order *)
Lemma StronglySorted_filter {X : Type} (R : X -> X -> Prop) (p : X -> bool)
      (l : list X) :
  StronglySorted R l -> StronglySorted R (filter p l).
Proof.
  induction 1 as [|x l Hs IH Hall]; simpl; [constructor|].
  destruct (p x); auto. constructor; auto.
  rewrite Forall_forall in *. intros y Hy. apply filter_In in Hy.
  apply Hall. tauto.
Qed.

Lemma ascending_StronglySorted (l : list (string * value)) :
  ascending (map fst l) = true ->
  StronglySorted (fun kv kv' => (fst kv <=? fst kv') = true) l.
Proof.
  induction l as [|kv l IH]; intros H; constructor.
  - apply IH. now apply ascending_tail in H.
  - apply Forall_forall. intros kv' Hin.
    apply (ascending_head (fst kv) (map fst l) H). now apply in_map.
Qed.

Lemma sorted_listing_cons (k k' : string) (ks : list string) :
  sorted_listing (k :: k' :: ks) =
  (may_follow k k' && sorted_listing (k' :: ks))%bool.
Proof. reflexivity. Qed.

Lemma sorted_listing_plain (l : list (string * value)) :
  StronglySorted (fun kv kv' => (fst kv <=? fst kv') = true) l ->
  Forall (fun kv => is_index (fst kv) = false) l ->
  sorted_listing (map fst l) = true.
Proof.
  induction 1 as [|kv l Hs IH Hall]; intros Hp; auto.
  inversion Hp as [|? ? Hkv Hl]; subst.
  destruct l as [|kv' l]; auto. cbn [map]. rewrite sorted_listing_cons.
  apply andb_true_iff. split; [|now apply IH].
  inversion Hall; subst. inversion Hl; subst.
  unfold may_follow. rewrite Hkv. apply andb_true_iff. split; auto.
  apply negb_true_iff. assumption.
Qed.

Lemma sorted_listing_app (a b : list (string * value)) :
  StronglySorted index_le a ->
  Forall (fun kv => is_index (fst kv) = true) a ->
  StronglySorted (fun kv kv' => (fst kv <=? fst kv') = true) b ->
  Forall (fun kv => is_index (fst kv) = false) b ->
  sorted_listing (map fst (a ++ b)) = true.
Proof.
  intros Ha Hia Hb Hib. induction Ha as [|kv a Hs IH Hall]; cbn [app].
  - now apply sorted_listing_plain.
  - inversion Hia as [|? ? Hkv Hia']; subst. specialize (IH Hia').
    destruct a as [|kv' a]; cbn [app map] in *.
    + destruct b as [|kv' b]; auto. cbn [map] in *.
      rewrite sorted_listing_cons, IH, andb_true_r.
      inversion Hib; subst. unfold may_follow. rewrite Hkv.
      now replace (is_index (fst kv')) with false.
    + rewrite sorted_listing_cons, IH, andb_true_r.
      inversion Hall; subst. inversion Hia'; subst.
      unfold may_follow. rewrite Hkv.
      replace (is_index (fst kv')) with true. now apply N.leb_le.
Qed.

Lemma sorted_listing_own_order (l : list (string * value)) :
  ascending (map fst l) = true ->
  sorted_listing (map fst (own_order l)) = true.
Proof.
  intros H. unfold own_order. apply sorted_listing_app.
  - apply by_index_sorted.
  - apply Forall_forall. intros kv Hin.
    apply (Permutation_in _ (by_index_Permutation _)) in Hin.
    apply filter_In in Hin. tauto.
  - apply StronglySorted_filter. now apply ascending_StronglySorted.
  - apply Forall_forall. intros kv Hin. apply filter_In in Hin.
    now apply negb_true_iff.
Qed.

Lemma Forall_values_put (P : value -> Prop) (k : string) (v : value)
      (l : list (string * value)) :
  P v -> Forall (fun kv => P (snd kv)) l ->
  Forall (fun kv => P (snd kv)) (put k v l).
Proof.
  intros Hv H. unfold put. destruct (_ && _)%bool; auto.
  now apply Forall_values_set.
Qed.

Lemma ascending_keys_put (k : string) (v : value) (l : list (string * value)) :
  ascending (map fst l) = true ->
  (forall k', In k' (map fst l) -> (k' <=? k) = true) ->
  ascending (map fst (put k v l)) = true.
Proof.
  intros Hs Hle. unfold put. destruct (_ && _)%bool; auto.
  now apply ascending_keys_set.
Qed.

Lemma in_keys_put (k k' : string) (v : value) (l : list (string * value)) :
  In k' (map fst (put k v l)) -> k' = k \/ In k' (map fst l).
Proof.
  unfold put. destruct (_ && _)%bool; auto. apply in_keys_set.
Qed.

Lemma fold_reduce_throw (children : list (string * result value))
      (ks : list string) (e : error) :
  fold_left (store_member children) ks (Throw e) = Throw e.
Proof. induction ks as [|k ks IH]; cbn [fold_left store_member bind]; auto. Qed.

Lemma fold_reduce_cons (children : list (string * result value))
      (k : string) (ks : list string) (acc : list (string * value)) :
  fold_left (store_member children) (k :: ks) (Ok acc) =
  match assoc (Ok Undefined) k children with
  | Ok v => fold_left (store_member children) ks (Ok (put k v acc))
  | Throw e => Throw e
  end.
Proof.
  cbn [fold_left]. unfold store_member at 2. cbn [bind].
  destruct (assoc (Ok Undefined) k children); cbn [bind]; auto.
  apply fold_reduce_throw.
Qed.

Lemma sort_reduce_fold_sorted (P : value -> Prop)
      (children : list (string * result value)) (ks : list string)
      (acc r : list (string * value)) :
  (forall k v, assoc (Ok Undefined) k children = Ok v -> P v) ->
  ascending ks = true ->
  ascending (map fst acc) = true ->
  (forall a k, In a (map fst acc) -> In k ks -> (a <=? k) = true) ->
  Forall (fun kv => P (snd kv)) acc ->
  fold_left (store_member children) ks (Ok acc) = Ok r ->
  ascending (map fst r) = true /\ Forall (fun kv => P (snd kv)) r.
Proof.
  intros HP. revert acc. induction ks as [|k ks IH];
    intros acc Hks Hacc Hle Hall H.
  - cbn [fold_left] in H. now inversion H; subst.
  - rewrite fold_reduce_cons in H.
    destruct (assoc (Ok Undefined) k children) as [v|e] eqn:Hv;
      [|discriminate].
    apply (IH (put k v acc)); auto.
    + now apply ascending_tail in Hks.
    + apply ascending_keys_put; auto. intros a Ha.
      apply Hle; [assumption|now left].
    + intros a k' Ha Hk'. apply in_keys_put in Ha. destruct Ha as [->|Ha].
      * now apply (ascending_head k ks).
      * apply Hle; auto. now right.
    + apply Forall_values_put; eauto.
Qed.

Lemma sort_reduce_sorted (P : value -> Prop)
      (children : list (string * result value)) (r : value) :
  (forall k v, assoc (Ok Undefined) k children = Ok v -> P v) ->
  sort_reduce children = Ok r ->
  exists props, r = Obj props /\ ascending (map fst props) = true /\
                Forall (fun kv => P (snd kv)) props.
Proof.
  intros HP H. unfold sort_reduce in H.
  destruct (fold_left _ _ _) as [props|] eqn:Hf; [|discriminate].
  cbn [bind] in H. inversion H; subst. exists props. split; auto.
  apply (sort_reduce_fold_sorted P children (sort (map fst children)) []
                                 props HP (sort_ascending _) eq_refl);
    [intros a k []|constructor|exact Hf].
Qed.

Lemma assoc_children_inv (f : value -> result value) (k : string)
      (l : list (string * value)) (v : value) :
  assoc (Ok Undefined) k (map (fun kv => (fst kv, f (snd kv))) l) = Ok v ->
  v = Undefined \/ exists x, In x (map snd l) /\ f x = Ok v.
Proof.
  induction l as [|[k' x] l IH]; cbn [map assoc fst snd].
  - intros H. inversion H. now left.
  - destruct (k' =? k).
    + intros H. right. exists x. split; auto. now left.
    + intros H. destruct (IH H) as [|[y [Hy Hf]]]; auto.
      right. exists y. split; auto. now right.
Qed.

Lemma sorted_member_sorted (x v : value) :
  (forall r, _sortObject x = Ok r -> sorted_deep r) ->
  sorted_member x = Ok v -> sorted_deep v.
Proof.
  intros IH H. destruct x; cbn [sorted_member] in H; try discriminate;
    try (inversion H; subst; exact I); now apply IH.
Qed.

Lemma Forall_snd (P : value -> Prop) (l : list (string * value)) :
  Forall (fun kv => P (snd kv)) l -> forall x, In x (map snd l) -> P x.
Proof.
  intros H x Hx. apply in_map_iff in Hx. destruct Hx as [kv [<- Hin]].
  rewrite Forall_forall in H. now apply H.
Qed.

Lemma indexed_values {A : Type} (i : Z) (items : list A) :
  map snd (indexed i items) = items.
Proof.
  revert i. induction items as [|x items IH]; intros i; cbn [indexed map snd];
    auto. now rewrite IH.
Qed.

Lemma _sortObject_result_sorted (obj r : value) :
  _sortObject obj = Ok r -> sorted_deep r.
Proof.
  revert r. induction obj using value_induction; intros r Hr;
    rewrite _sortObject_eq in Hr; try discriminate;
    try (inversion Hr; subst; cbn; tauto).
  - apply (sort_reduce_sorted sorted_deep) in Hr.
    + destruct Hr as (props & -> & Hs & Hall). apply sorted_deep_obj.
      split; [now apply sorted_listing_own_order|assumption].
    + intros k v Hv. apply assoc_children_inv in Hv.
      destruct Hv as [->|[x [Hx Hf]]]; [exact I|]. inversion Hf; subst.
      rewrite indexed_values in Hx. clear -Hx.
      induction s as [|c s IH]; [destruct Hx|].
      destruct Hx as [<-|Hx]; [exact I|exact (IH Hx)].
  - apply (sort_reduce_sorted sorted_deep) in Hr.
    + destruct Hr as (props & -> & Hs & Hall). apply sorted_deep_obj.
      split; [now apply sorted_listing_own_order|assumption].
    + intros k v Hv. apply assoc_children_inv in Hv.
      destruct Hv as [->|[x [Hx Hf]]]; [exact I|].
      rewrite indexed_values in Hx. rewrite Forall_forall in H.
      apply (sorted_member_sorted x v (H x Hx) Hf).
  - apply (sort_reduce_sorted sorted_deep) in Hr.
    + destruct Hr as (props' & -> & Hs & Hall). apply sorted_deep_obj.
      split; [now apply sorted_listing_own_order|assumption].
    + intros k v Hv. apply assoc_children_inv in Hv.
      destruct Hv as [->|[x [Hx Hf]]]; [exact I|].
      apply (sorted_member_sorted x v); [|exact Hf].
      apply (Forall_snd (fun x => forall r, _sortObject x = Ok r ->
                                            sorted_deep r) props H x Hx).
Qed.

(** Whatever [_sortObject] returns is an object whose keys are listed
    sorted, array indices first in numeric order and then the other keys
    in ascending order of their code units, and so is every object
    nested in it, at any depth. *)
Theorem _sortObject_sorted (obj r : value) :
  _sortObject obj = Ok r -> sorted_deep r.
Proof. apply _sortObject_result_sorted. Qed.

Lemma fold_reduce_error (children : list (string * result value))
      (ks : list string) (acc : list (string * value)) (e : error) :
  fold_left (store_member children) ks (Ok acc) = Throw e ->
  exists k, In k ks /\ assoc (Ok Undefined) k children = Throw e.
Proof.
  revert acc. induction ks as [|k ks IH]; intros acc H;
    [discriminate|]. rewrite fold_reduce_cons in H.
  destruct (assoc (Ok Undefined) k children) as [v|e'] eqn:Hv.
  - destruct (IH _ H) as [k' [Hin Hk']]. exists k'. split; auto. now right.
  - inversion H; subst. exists k. split; auto. now left.
Qed.

Lemma fold_reduce_member (children : list (string * result value))
      (ks : list string) (acc r : list (string * value)) (k : string) :
  fold_left (store_member children) ks (Ok acc) = Ok r ->
  In k ks -> exists v, assoc (Ok Undefined) k children = Ok v.
Proof.
  revert acc. induction ks as [|k0 ks IH]; intros acc H Hin;
    [destruct Hin|]. rewrite fold_reduce_cons in H.
  destruct (assoc (Ok Undefined) k0 children) as [v|e'] eqn:Hv;
    [|discriminate].
  destruct Hin as [<-|Hin]; eauto.
Qed.

Lemma sort_reduce_error (children : list (string * result value)) (e : error) :
  sort_reduce children = Throw e ->
  exists k, assoc (Ok Undefined) k children = Throw e.
Proof.
  unfold sort_reduce. intros H.
  destruct (fold_left _ _ _) as [r|e'] eqn:Hf; [discriminate|].
  cbn [bind] in H. inversion H; subst.
  destruct (fold_reduce_error _ _ _ _ Hf) as [k [_ Hk]]. eauto.
Qed.

Lemma assoc_children_throw (f : value -> result value) (k : string)
      (l : list (string * value)) (e : error) :
  assoc (Ok Undefined) k (map (fun kv => (fst kv, f (snd kv))) l) = Throw e ->
  exists x, In x (map snd l) /\ f x = Throw e.
Proof.
  induction l as [|[k' x] l IH]; cbn [map assoc fst snd]; [discriminate|].
  destruct (k' =? k).
  - intros H. exists x. split; auto. now left.
  - intros H. destruct (IH H) as [y [Hy Hf]]. exists y. split; auto. now right.
Qed.

Lemma _sortObject_error (obj : value) (e : error) :
  _sortObject obj = Throw e -> e = TypeError.
Proof.
  revert e. induction obj using value_induction; intros e He;
    rewrite _sortObject_eq in He; try discriminate;
    try (now inversion He).
  - apply sort_reduce_error in He. destruct He as [k Hk].
    apply assoc_children_throw in Hk. destruct Hk as [x [_ Hx]]. discriminate.
  - apply sort_reduce_error in He. destruct He as [k Hk].
    apply assoc_children_throw in Hk. destruct Hk as [x [Hx Hf]].
    rewrite indexed_values in Hx. rewrite Forall_forall in H.
    destruct x; cbn [sorted_member] in Hf; try discriminate;
      try (now inversion Hf); now apply (H _ Hx).
  - apply sort_reduce_error in He. destruct He as [k Hk].
    apply assoc_children_throw in Hk. destruct Hk as [x [Hx Hf]].
    pose proof (Forall_snd (fun x => forall e, _sortObject x = Throw e ->
                                               e = TypeError) props H x Hx)
      as IHx.
    destruct x; cbn [sorted_member] in Hf; try discriminate;
      try (now inversion Hf); now apply IHx.
Qed.

(** A [null] member makes [_sortObject] throw: [typeof null] is
    ["object"], and [Object.keys(null)] raises a [TypeError]. *)
Theorem _sortObject_null_member (props : list (string * value)) (k : string) :
  lookup k props = Null -> _sortObject (Obj props) = Throw TypeError.
Proof.
  intros Hk. destruct (_sortObject (Obj props)) as [r|e] eqn:Hr.
  - exfalso. rewrite _sortObject_eq in Hr. unfold sort_reduce in Hr.
    destruct (fold_left _ _ _) as [r'|] eqn:Hf; [|discriminate].
    assert (In k (sort (map fst
              (map (fun kv => (fst kv, sorted_member (snd kv))) props))))
      as Hin.
    { rewrite map_map. cbn [fst].
      eapply Permutation_in; [symmetry; apply sort_Permutation|].
      apply has_key_In. apply lookup_defined_has_key. congruence. }
    destruct (fold_reduce_member _ _ _ _ k Hf Hin) as [v Hv].
    rewrite (assoc_map_children sorted_member) in Hv by reflexivity.
    rewrite Hk in Hv. discriminate.
  - now rewrite (_sortObject_error _ _ Hr).
Qed.

(** On an object with distinct keys [_sortObject] returns an object
    with the same keys in ascending order; a member that is not an
    object is kept as it is, a member that is one is sorted in turn. *)

(** On an object with distinct keys [_sortObject] returns an object
    that holds the keys of the argument other than [__proto__], created
    in ascending order of their code units and so listed with the array
    indices first; a member that is not an object is kept as it is, a
    member that is one is sorted in turn.  The assignment to
    [__proto__] creates no property. *)
Theorem _sortObject_members (props : list (string * value)) (r : value) :
  NoDup (map fst props) ->
  _sortObject (Obj props) = Ok r ->
  exists props',
    r = Obj props' /\
    map fst props' =
      filter (fun k => negb (k =? "__proto__")) (sort (map fst props)) /\
    sorted_listing (own_keys r) = true /\
    (forall k, In k (map fst props) -> k <> "__proto__" ->
               sorted_member (lookup k props) = Ok (lookup k props')) /\
    (forall k, k <> "__proto__" -> nonobj (lookup k props) ->
               lookup k props' = lookup k props) /\
    has_key "__proto__" props' = false.
Proof.
  intros Hnd Hr.
  pose proof (_sortObject_result_sorted _ _ Hr) as Hsorted.
  rewrite _sortObject_eq in Hr. unfold sort_reduce in Hr.
  destruct (fold_left _ _ _) as [props'|] eqn:Hf; [|discriminate].
  cbn [bind] in Hr. inversion Hr; subst r. clear Hr.
  rewrite map_map in Hf. cbn [fst] in Hf.
  set (g := fun k => match sorted_member (lookup k props) with
                     | Ok v => v
                     | Throw _ => Undefined
                     end).
  assert (forall k, In k (sort (map fst props)) ->
                    assoc (Ok Undefined) k
                      (map (fun kv => (fst kv, sorted_member (snd kv))) props)
                    = Ok (g k)) as Hg.
  { intros k Hk. destruct (fold_reduce_member _ _ _ _ k Hf Hk) as [v Hv].
    rewrite Hv. rewrite (assoc_map_children sorted_member) in Hv
      by reflexivity.
    unfold g. now rewrite Hv. }
  rewrite (sort_reduce_fold g) in Hf; auto.
  2:{ cbn [map app]. eapply Permutation_NoDup; [|exact Hnd].
      symmetry. apply sort_Permutation. }
  inversion Hf; subst props'. cbn [app].
  set (ks := filter (fun k => negb (k =? "__proto__")) (sort (map fst props))).
  exists (map (fun k => (k, g k)) ks).
  assert (forall k, In k ks <-> In k (map fst props) /\ k <> "__proto__")
    as Hks.
  { intros k. subst ks. rewrite filter_In, negb_true_iff, String.eqb_neq.
    split; intros [H1 H2]; split; auto.
    - eapply Permutation_in; [apply sort_Permutation|auto].
    - eapply Permutation_in; [symmetry; apply sort_Permutation|auto]. }
  assert (forall k, In k ks ->
                    lookup k (map (fun k => (k, g k)) ks) = g k) as Hlook.
  { intros k. clear. induction ks as [|a l IH]; [intros []|]. cbn [map lookup].
    destruct (String.eqb_spec a k) as [->|Hne]; auto.
    intros [|Hk']; [congruence|auto]. }
  assert (map fst (map (fun k => (k, g k)) ks) = ks) as Hkeys.
  { rewrite map_map. cbn [fst]. apply map_id. }
  split; [reflexivity|]. split; [exact Hkeys|].
  split; [|split; [|split]].
  - apply sorted_deep_obj in Hsorted. apply Hsorted.
  - intros k Hk Hp. rewrite (Hlook k) by now apply Hks.
    assert (In k (sort (map fst props))) as Hk'
        by (eapply Permutation_in; [symmetry; apply sort_Permutation|auto]).
    specialize (Hg k Hk').
    rewrite (assoc_map_children sorted_member) in Hg by reflexivity.
    exact Hg.
  - intros k Hp Hk.
    destruct (in_dec string_dec k (map fst props)) as [Hin|Hout].
    + rewrite (Hlook k) by now apply Hks. unfold g.
      now rewrite sorted_member_nonobj.
    + rewrite (lookup_not_in k props Hout). apply lookup_not_in.
      rewrite Hkeys. intros Hin. apply Hks in Hin. tauto.
  - apply has_key_false. rewrite Hkeys. intros Hin. apply Hks in Hin. tauto.
Qed.

Lemma int32_range (z : Z) : (- 2 ^ 31 <= string_hash.int32 z < 2 ^ 31)%Z.
Proof.
  unfold string_hash.int32.
  pose proof (Z.mod_pos_bound (z + 2 ^ 31) (2 ^ 32) ltac:(lia)). lia.
Qed.

Lemma code_range (c : ascii) : (0 <= Z.of_N (code c) < 256)%Z.
Proof.
  unfold code. pose proof (N_ascii_bounded c). lia.
Qed.

Lemma lxor_low_byte (a c : Z) :
  (- 2 ^ 31 <= a < 2 ^ 31)%Z -> (0 <= c < 256)%Z ->
  (- 2 ^ 31 <= Z.lxor a c < 2 ^ 31)%Z.
Proof.
  intros Ha Hc.
  assert (Z.shiftr (Z.lxor a c) 8 = Z.shiftr a 8) as H.
  { rewrite Z.shiftr_lxor.
    replace (Z.shiftr c 8) with 0%Z; [apply Z.lxor_0_r|].
    rewrite Z.shiftr_div_pow2 by lia. symmetry. apply Z.div_small. lia. }
  rewrite !Z.shiftr_div_pow2 in H by lia.
  pose proof (Z.div_mod (Z.lxor a c) (2 ^ 8) ltac:(lia)).
  pose proof (Z.div_mod a (2 ^ 8) ltac:(lia)).
  pose proof (Z.mod_pos_bound (Z.lxor a c) (2 ^ 8) ltac:(lia)).
  pose proof (Z.mod_pos_bound a (2 ^ 8) ltac:(lia)).
  assert (- 2 ^ 23 <= a / 2 ^ 8 < 2 ^ 23)%Z.
  { split; [apply Z.div_le_lower_bound|apply Z.div_lt_upper_bound]; lia. }
  lia.
Qed.

(** The loop of [string-hash] keeps a signed 32-bit integer, and the
    hash is an unsigned 32-bit integer. *)
Lemma stringHash_range (s : string) :
  (- 2 ^ 31 <= string_hash.hash_loop s < 2 ^ 31)%Z /\
  (0 <= string_hash.stringHash s < 2 ^ 32)%Z.
Proof.
  split.
  - destruct s as [|c s]; cbn [string_hash.hash_loop]; [lia|].
    apply lxor_low_byte; [apply int32_range|apply code_range].
  - unfold string_hash.stringHash. apply Z.mod_pos_bound. lia.
Qed.

(** [normalizeParams] throws on [null] and on nothing else. *)
Theorem normalizeParams_throws_iff (params : value) (e : error) :
  normalizeParams params = Throw e <-> params = Null /\ e = TypeError.
Proof.
  split; [apply normalizeParams_throws|]. now intros [-> ->].
Qed.

(** A second call on the argument [normalizeParams] has written into
    returns the same string and leaves the argument as it is. *)
Theorem normalizeParams_second_call (params params' : value) (s : string) :
  normalizeParams params = Ok (params', s) ->
  normalizeParams params' = Ok (params', s).
Proof. apply normalizeParams_again. Qed.

(** What [normalizeParams] leaves in a plain object: the same keys in
    the same order, every member that [typeof] calls an object replaced
    by its JSON text, every other member untouched. *)
Theorem normalizeParams_leaves_text
        (props : list (string * value)) (params' : value) (s : string) :
  NoDup (map fst props) ->
  normalizeParams (Obj props) = Ok (params', s) ->
  exists props',
    params' = Obj props' /\
    map fst props' = map fst props /\
    (forall k,
        lookup k props' =
        if typeof (lookup k props) =? "object"
        then json (lookup k props) else lookup k props) /\
    settled params'.
Proof.
  intros Hnd H. rewrite normalizeParams_obj in H by assumption.
  inversion H; subst. exists (stringified_props props).
  split; [reflexivity|]. split; [|split].
  - unfold stringified_props. rewrite map_map. reflexivity.
  - intros k. apply lookup_stringified_props.
  - intros k. cbn [own_props]. rewrite lookup_stringified_props.
    apply typeof_stringified.
Qed.

(** The request key is an unsigned 32-bit integer. *)
Theorem requestKey_is_uint32 (definition definition' : value) (key : Z) :
  requestKey definition = Ok (definition', key) ->
  (0 <= key < 2 ^ 32)%Z.
Proof.
  unfold requestKey. intros H.
  repeat match type of H with
         | bind ?m _ = Ok _ =>
             destruct m; cbn [bind] in H; [|discriminate]
         end.
  inversion H; subst. apply stringHash_range.
Qed.

(** [requestKey] reads [url], [headers], [method] and [body] and
    nothing else: definitions that agree on the four get the same key. *)
Theorem requestKey_reads_four_fields (d d' : list (string * value)) :
  lookup "url" d = lookup "url" d' ->
  lookup "headers" d = lookup "headers" d' ->
  lookup "method" d = lookup "method" d' ->
  lookup "body" d = lookup "body" d' ->
  (dk <- requestKey (Obj d) ;; Ok (snd dk)) =
  (dk <- requestKey (Obj d') ;; Ok (snd dk)).
Proof.
  intros Hu Hh Hm Hb. unfold requestKey.
  cbn [member nullish bind]; rewrite ?get_plain by reflexivity. rewrite Hu, Hh, Hm, Hb.
  destruct (normalizeParams (lookup "headers" d')); cbn [bind]; auto.
  destruct (normalizeParams (lookup "body" d')); cbn [bind]; auto.
Qed.

Lemma strip_trailing_slash (u : string) :
  strip_trailing_slashes (u ++ "/") = strip_trailing_slashes u.
Proof.
  induction u as [|c u IH]; [reflexivity|].
  cbn [append strip_trailing_slashes]. now rewrite IH.
Qed.

(** [fullUrl] ignores the slashes that end its url, and it raises a
    [TypeError] when the url is not a string. *)
Theorem fullUrl_url_argument (nu : string -> result string)
        (u : string) (url params : value) :
  fullUrl nu (Str (u ++ "/")) params = fullUrl nu (Str u) params /\
  (is_string url = false -> fullUrl nu url params = Throw TypeError).
Proof.
  split.
  - unfold fullUrl. now rewrite strip_trailing_slash.
  - now destruct url.
Qed.

Lemma lookup_with_get_defaults (k : string) (l : list (string * value)) :
  ("auto" =? k) = false -> ("store" =? k) = false ->
  lookup k (with_get_defaults l) = lookup k l.
Proof.
  intros Ha Hs. unfold with_get_defaults.
  destruct (strict_eq_string _ _); auto.
  now rewrite !lookup_with_flag, Hs, Ha.
Qed.

Lemma member_get (v r : value) (k : string) :
  member v k = Ok r -> r = get v k.
Proof. unfold member. destruct (nullish v); now inversion 1. Qed.

Lemma normalized_collection_fields
        (nu : string -> result string) (d n : value) :
  normalizeResourceDefinition nu d = Ok n ->
  get n "isArray" =
    Bool (negb (truthy (get (get (merged d) "schema") "getKey"))) /\
  get n "defaultValue" =
    match get (merged d) "defaultValue" with
    | Undefined =>
        if truthy (get (get (merged d) "schema") "getKey")
        then Obj [] else Arr []
    | v => v
    end.
Proof.
  intros H.
  destruct (normalize_ok nu d n H)
    as (mprops & pu & m & getKey & hs & bs & Hd & HM & _ & _ & _ & Hm
        & Hg & _ & _ & ->).
  rewrite HM. rewrite ?get_plain by reflexivity.
  apply member_get in Hg. subst getKey.
  destruct (derived_reads d mprops (fst pu) (snd pu) (toUpperCase m)
              (negb (truthy (get (lookup "schema" mprops) "getKey")))
              (fst hs) (fst bs)
              (string_hash.stringHash
                 (fingerprint (Str (toUpperCase m)) (Str (snd pu))
                              (snd hs) (snd bs))))
    as (_ & _ & _ & Ra & _).
  split; [exact Ra|].
  unfold derived. rewrite lookup_with_get_defaults by reflexivity.
  rewrite lookup_with_default_value. cbn [String.eqb Ascii.eqb Bool.eqb].
  read_derived.
  destruct (lookup "defaultValue" mprops); try reflexivity.
  cbn [truthy]. now destruct (truthy _).
Qed.

Lemma normalized_other_field
        (nu : string -> result string) (d n : value) (k : string) :
  normalizeResourceDefinition nu d = Ok n ->
  ~ In k ["params"; "url"; "method"; "isArray"; "headers"; "body";
          "requestKey"; "defaultValue"; "auto"; "store"; "extends"] ->
  get n k = get (merged d) k.
Proof.
  intros H Hk.
  destruct (normalize_ok nu d n H)
    as (mprops & pu & m & getKey & hs & bs & Hd & HM & _ & _ & _ & Hm
        & Hg & _ & _ & ->).
  rewrite HM. cbn [get].
  assert (forall k', In k' ["params"; "url"; "method"; "isArray"; "headers";
                            "body"; "requestKey"; "defaultValue"; "auto";
                            "store"; "extends"] -> (k' =? k) = false) as Hne.
  { intros k' Hin. apply String.eqb_neq. intros ->. now apply Hk. }
  set (N := derived _ _ _ _ _ _ _ _ _).
  assert (has_key k N = has_key k mprops) as ->.
  { destruct (has_key k mprops) eqn:Hm'.
    - apply (has_key_grows k mprops); auto. apply grows_derived.
    - destruct (has_key k N) eqn:HN; auto.
      apply has_key_derived in HN. destruct HN as [HN|HN]; [|congruence].
      exfalso. apply Hk. unfold derived_names in HN. cbn [In] in *. tauto. }
  enough (lookup k N = lookup k mprops) as Hl by now rewrite Hl.
  subst N. unfold derived.
  rewrite lookup_with_get_defaults by (apply Hne; cbn [In]; tauto).
  rewrite lookup_with_default_value_other by (apply Hne; cbn [In]; tauto).
  repeat first
    [ rewrite lookup_set_other by (apply Hne; cbn [In]; tauto)
    | rewrite lookup_share_other by (apply Hne; cbn [In]; tauto)
    | rewrite lookup_write_back by (apply Hne; cbn [In]; tauto) ].
  reflexivity.
Qed.

Lemma normalized_extends (nu : string -> result string) (d n : value) :
  normalizeResourceDefinition nu d = Ok n ->
  shares d "params" = false -> shares d "headers" = false ->
  shares d "body" = false ->
  get n "extends" = get (merged d) "extends".
Proof.
  intros H Hp Hh Hb.
  destruct (normalize_ok nu d n H)
    as (mprops & pu & m & getKey & hs & bs & Hd & HM & _ & _ & _ & Hm
        & Hg & _ & _ & ->).
  rewrite HM, !get_plain by reflexivity. unfold derived.
  rewrite lookup_with_get_defaults by reflexivity.
  rewrite !share_id by assumption. now skip_writes.
Qed.

(** The normalizer hands back [params], [headers] and [body] as
    [normalizeParams] leaves them: in a plain object every nested value
    has become its JSON text. *)
Theorem normalized_objects_are_text
        (nu : string -> result string) (d n : value) (k : string)
        (props : list (string * value)) :
  normalizeResourceDefinition nu d = Ok n ->
  In k ["params"; "headers"; "body"] ->
  get (merged d) k = Obj props ->
  NoDup (map fst props) ->
  get n k = Obj (stringified_props props).
Proof.
  intros H Hk Hv Hnd.
  destruct (normalize_ok nu d n H)
    as (mprops & pu & m & getKey & hs & bs & Hd & HM & _ & _ & Hpu & Hm
        & Hg & Hhs & Hbs & ->).
  rewrite HM in Hv.
  destruct (derived_reads d mprops (fst pu) (snd pu) (toUpperCase m)
              (negb (truthy getKey)) (fst hs) (fst bs)
              (string_hash.stringHash
                 (fingerprint (Str (toUpperCase m)) (Str (snd pu))
                              (snd hs) (snd bs))))
    as (Rp & _ & _ & _ & Rh & Rb & _).
  destruct Hk as [<-|[<-|[<-|[]]]]; rewrite get_plain in Hv |- * by reflexivity.
  - rewrite Rp, (lookup_defined_has_key "params" mprops) by congruence.
    rewrite Hv in Hpu. unfold fullUrl in Hpu.
    destruct (lookup "url" mprops); try discriminate.
    cbn [truthy] in Hpu. rewrite normalizeParams_obj in Hpu by assumption.
    cbn [bind fst snd] in Hpu. destruct (nu _); [|discriminate].
    now inversion Hpu.
  - rewrite Rh, (lookup_defined_has_key "headers" mprops) by congruence.
    rewrite Hv, normalizeParams_obj in Hhs by assumption.
    now inversion Hhs.
  - rewrite Rb, (lookup_defined_has_key "body" mprops) by congruence.
    rewrite Hv, normalizeParams_obj in Hbs by assumption.
    now inversion Hbs.
Qed.

(** The key stored in a normalized definition is the key of that
    definition: [requestKey] on it returns the stored key and writes
    nothing further. *)
Theorem normalized_key_is_stable
        (nu : string -> result string) (d n : value) :
  normalizeResourceDefinition nu d = Ok n ->
  exists key,
    get n "requestKey" = Num key /\ requestKey n = Ok (n, key).
Proof.
  intros H.
  destruct (normalize_ok nu d n H)
    as (mprops & pu & m & getKey & hs & bs & Hd & HM & _ & _ & Hpu & Hm
        & Hg & Hhs & Hbs & ->).
  set (key := string_hash.stringHash _).
  set (N := derived _ _ _ _ _ _ _ _).
  destruct (derived_reads d mprops (fst pu) (snd pu) (toUpperCase m)
                          (negb (truthy getKey)) (fst hs) (fst bs) key)
    as (_ & Ru & Rm & _ & Rh & Rb & Rk & _).
  fold N in Ru, Rm, Rh, Rb, Rk.
  destruct (normalizeParams_written "headers" mprops hs Hhs) as [Hh1 Hh2].
  destruct (normalizeParams_written "body" mprops bs Hbs) as [Hb1 Hb2].
  rewrite Hh1 in Rh. rewrite Hb1 in Rb.
  exists key. rewrite ?get_plain by reflexivity. split; [exact Rk|].
  unfold requestKey. cbn [member nullish bind]; rewrite ?get_plain by reflexivity.
  rewrite Ru, Rm, Rh, Rb, Hh2, Hb2. cbn [bind].
  rewrite !written_write_back.
  rewrite (write_back_id "headers") by assumption.
  rewrite (write_back_id "body") by assumption.
  reflexivity.
Qed.

(** The merge: a field of the definition wins over the same field of
    [extends], which wins over the built-in default. *)
Theorem merged_precedence (props eprops : list (string * value)) (k : string) :
  NoDup (map fst props) -> NoDup (map fst eprops) ->
  lookup "extends" props = Obj eprops \/
  (truthy (lookup "extends" props) = false /\ eprops = []) ->
  get (merged (Obj props)) k =
  if has_key k props then lookup k props
  else if has_key k eprops then lookup k eprops
       else get definitionDefaults k.
Proof.
  intros Hnd Hnde He. rewrite merged_obj. cbn [get].
  rewrite has_key_spread, lookup_spread by assumption.
  destruct (has_key k props); cbn [orb]; auto.
  assert (spread [] definitionDefaults = own_props definitionDefaults) as ->
      by reflexivity.
  destruct He as [->|[-> ->]]; cbn [truthy].
  - rewrite has_key_spread, lookup_spread by assumption.
    destruct (has_key k eprops); auto.
  - reflexivity.
Qed.

(** The derived fields [isArray] and [defaultValue]: a schema without
    [getKey] is a collection, and a definition without a default value
    gets [[]] for a collection and [{}] otherwise. *)
Theorem normalized_isArray_defaultValue
        (nu : string -> result string) (d n : value) :
  normalizeResourceDefinition nu d = Ok n ->
  get n "isArray" =
    Bool (negb (truthy (get (get (merged d) "schema") "getKey"))) /\
  get n "defaultValue" =
    match get (merged d) "defaultValue" with
    | Undefined =>
        if truthy (get (get (merged d) "schema") "getKey")
        then Obj [] else Arr []
    | v => v
    end.
Proof. apply normalized_collection_fields. Qed.

(** The normalizer keeps every field it does not derive.  [extends] is
    kept as well unless the merge took [params], [headers] or [body]
    from it: such an object is the one [normalizeParams] writes into,
    so it shows rewritten under [extends] too. *)
Theorem normalized_keeps_fields
        (nu : string -> result string) (d n : value) (k : string) :
  normalizeResourceDefinition nu d = Ok n ->
  (~ In k ["params"; "url"; "method"; "isArray"; "headers"; "body";
           "requestKey"; "defaultValue"; "auto"; "store"; "extends"] ->
   get n k = get (merged d) k) /\
  (shares d "params" = false -> shares d "headers" = false ->
   shares d "body" = false ->
   get n "extends" = get (merged d) "extends").
Proof.
  intros H. split.
  - apply (normalized_other_field nu d n k H).
  - apply (normalized_extends nu d n H).
Qed.

(** The value of a hit on a well-formed state whose bucket for the
    entity type is a plain object or missing: the recorded ids are
    looked up one by one in the bucket, where a member the bucket
    inherits is found like one of its own, or returned as they are when
    the store has no such bucket; a collection gets the whole list, a
    singular definition its first element. *)
Theorem resolver_hit_value
        (state resourceDefinition : value) (key : string) (ids : list value) :
  well_formed state resourceDefinition key = true ->
  schemaKey resourceDefinition = Ok (Str key) ->
  recorded state resourceDefinition key = Arr ids ->
  truthy (get (meta_of state resourceDefinition) "didInvalidate") = false ->
  object_or_absent (get (entities state) key) = true ->
  let bucket := get (entities state) key in
  let values :=
    if truthy bucket
    then map (fun id => get bucket (to_string id)) ids
    else ids in
  List.length values = List.length ids /\
  findInState state resourceDefinition =
  Ok (Obj [("meta", meta_of state resourceDefinition);
           ("value",
            if truthy (get resourceDefinition "isArray")
            then Arr values else get (Arr values) "0")]).
Proof.
  intros Hwf Hkey Hrec Hvalid _ bucket values. split.
  - subst values. destruct (truthy bucket); auto. apply length_map.
  - rewrite (findInState_well_formed _ _ key Hwf Hkey), Hrec, Hvalid.
    unfold resolved, joined. rewrite Hrec. fold bucket. subst values.
    destruct (truthy bucket); cbn [truthy negb];
      destruct (truthy (get resourceDefinition "isArray")); reflexivity.
Qed.

(** On a well-formed state the [defaultValue] of the definition has no
    influence on the result. *)
Theorem resolver_ignores_defaultValue
        (state : value) (props : list (string * value)) (key : string)
        (dv : value) :
  well_formed state (Obj props) key = true ->
  schemaKey (Obj props) = Ok (Str key) ->
  findInState state (Obj (set "defaultValue" dv props)) =
  findInState state (Obj props).
Proof.
  intros Hwf Hkey.
  assert (forall k, ("defaultValue" =? k) = false ->
                    get (Obj (set "defaultValue" dv props)) k =
                    get (Obj props) k) as Hget.
  { intros k Hk. cbn [get]. now rewrite has_key_set, lookup_set, Hk. }
  assert (entry_of state (Obj (set "defaultValue" dv props)) =
          entry_of state (Obj props)) as He.
  { unfold entry_of. now rewrite Hget. }
  assert (schemaKey (Obj (set "defaultValue" dv props)) = Ok (Str key)) as Hkey'.
  { unfold schemaKey, member in *. cbn [nullish] in *. now rewrite Hget. }
  assert (well_formed state (Obj (set "defaultValue" dv props)) key = true)
    as Hwf'.
  { unfold well_formed, meta_of, recorded in *. now rewrite He. }
  rewrite (findInState_well_formed _ _ key Hwf' Hkey').
  rewrite (findInState_well_formed _ _ key Hwf Hkey).
  unfold well_formed in Hwf.
  repeat (apply andb_true_iff in Hwf; destruct Hwf as [Hwf ?]).
  unfold resolved, joined, meta_of, recorded in *. rewrite He.
  rewrite (Hget "isArray") by reflexivity.
  destruct (entry_of state (Obj props)) as [| | | | | |eprops| | |];
    try discriminate; [reflexivity|].
  repeat (apply andb_true_iff in H; destruct H as [H ?]).
  destruct (get (get (Obj eprops) "data") key); try discriminate;
    [reflexivity|].
  destruct (truthy (get (entities state) key)); reflexivity.
Qed.

(** A definition that normalized with an entity schema, or a
    collection of one, misses on every well-shaped state whose ledger
    has no entry under its request key. *)
Theorem normalized_definition_misses
        (nu : string -> result string) (d n state : value) (key : string) :
  normalizeResourceDefinition nu d = Ok n ->
  get (merged d) "schema" = SchemaObj (Schema key) \/
  get (merged d) "schema" = SchemaObj (arrayOf (Schema key)) ->
  is_object state = true ->
  is_object (get state "connect") = true ->
  object_or_absent (get (get state "connect") "paramsToResources")
  = true ->
  object_or_absent (get (get state "connect") "resources") = true ->
  entry_of state n = Undefined ->
  findInState state n = Ok (Bool false).
Proof.
  intros H Hs H1 H2 H3 H4 He.
  assert (get n "schema" = get (merged d) "schema") as Hschema.
  { apply (normalized_other_field nu d n "schema" H). cbn [In].
    intuition discriminate. }
  assert (nullish n = false) as Hn.
  { destruct (normalize_ok nu d n H)
      as (? & ? & ? & ? & ? & ? & _ & _ & _ & _ & _ & _ & _ & _ & _ & ->).
    reflexivity. }
  assert (schemaKey n = Ok (Str key)) as Hkey.
  { unfold schemaKey. rewrite member_defined by assumption. cbn [bind].
    rewrite Hschema. now destruct Hs as [-> | ->]. }
  rewrite (findInState_well_formed state n key).
  - unfold recorded. now rewrite He.
  - unfold well_formed. now rewrite H1, H2, H3, H4, He.
  - exact Hkey.
Qed.

Lemma string_of_Z_not_getKey (i : Z) : string_of_Z i <> "getKey".
Proof.
  unfold string_of_Z. destruct (Z.to_int i) as [d|d]; destruct d; discriminate.
Qed.

Lemma lookup_getKey_indexed (i : Z) (items : list value) :
  lookup "getKey" (indexed i items) = Undefined.
Proof.
  revert i. induction items as [|x items IH]; intros i; cbn [indexed lookup];
    auto.
  destruct (String.eqb_spec (string_of_Z i) "getKey") as [E|_]; auto.
  now apply string_of_Z_not_getKey in E.
Qed.

(** The normalizer accepts a string as schema and takes it for a
    collection; on the definition it returns the resolver raises a
    [TypeError], whatever the state. *)
Theorem string_schema_is_not_resolved
        (nu : string -> result string) (d n state : value) (s : string) :
  normalizeResourceDefinition nu d = Ok n ->
  get (merged d) "schema" = Str s ->
  get n "isArray" = Bool true /\
  findInState state n = Throw TypeError.
Proof.
  intros H Hs.
  assert (get n "schema" = Str s) as Hschema.
  { rewrite <- Hs. apply (normalized_other_field nu d n "schema" H).
    cbn [In]. intuition discriminate. }
  split.
  - destruct (normalized_collection_fields nu d n H) as [-> _].
    rewrite Hs. cbn [get String.eqb Ascii.eqb Bool.eqb].
    now rewrite lookup_getKey_indexed.
  - assert (nullish n = false) as Hn.
    { destruct (normalize_ok nu d n H)
        as (? & ? & ? & ? & ? & ? & _ & _ & _ & _ & _ & _ & _ & _ & _ & ->).
      reflexivity. }
    unfold findInState, schemaKey.
    rewrite !(member_defined n) by assumption. rewrite Hschema.
    unfold member.
    destruct (nullish state); [reflexivity|]. cbn [bind].
    destruct (nullish (get state "connect")); reflexivity.
Qed.

(* ================================================================== *)
(** ** The properties on the example data *)

Lemma _sortObject_sorted_witness :
  let sorted :=
    Obj [("10", Num 2); ("9", Num 3); ("a", Num 4); ("b", Num 1)] in
  _sortObject (Obj mixed_keys) = Ok sorted /\
  own_keys sorted = ["9"; "10"; "a"; "b"] /\
  sorted_deep sorted.
Proof.
  intros sorted.
  assert (_sortObject (Obj mixed_keys) = Ok sorted) as H
      by (vm_compute; reflexivity).
  split; [exact H|]. split; [vm_compute; reflexivity|].
  exact (_sortObject_sorted (Obj mixed_keys) sorted H).
Defined.

Lemma _sortObject_null_member_witness :
  _sortObject (Obj null_member) = Throw TypeError.
Proof. apply (_sortObject_null_member null_member "b"). reflexivity. Defined.

Lemma _sortObject_members_witness :
  _sortObject (Obj unsorted_nested) = Ok (Obj sorted_nested) /\
  exists props',
    Obj sorted_nested = Obj props' /\
    map fst props' =
      filter (fun k => negb (k =? "__proto__"))
             (sort (map fst unsorted_nested)) /\
    sorted_listing (own_keys (Obj sorted_nested)) = true /\
    (forall k, In k (map fst unsorted_nested) -> k <> "__proto__" ->
               sorted_member (lookup k unsorted_nested) = Ok (lookup k props')) /\
    (forall k, k <> "__proto__" -> nonobj (lookup k unsorted_nested) ->
               lookup k props' = lookup k unsorted_nested) /\
    has_key "__proto__" props' = false.
Proof.
  assert (_sortObject (Obj unsorted_nested) = Ok (Obj sorted_nested)) as H
      by (vm_compute; reflexivity).
  split; [exact H|].
  apply (_sortObject_members unsorted_nested (Obj sorted_nested));
    [distinct_keys|exact H].
Defined.

Lemma normalizeParams_second_call_witness :
  normalizeParams (Obj (stringified_props nested_xy)) =
  Ok (Obj (stringified_props nested_xy), "a=%7B%22x%22%3A1%2C%22y%22%3A2%7D").
Proof.
  apply (normalizeParams_second_call (Obj nested_xy)). vm_compute. reflexivity.
Defined.

Lemma normalizeParams_leaves_text_witness :
  exists props',
    Obj (stringified_props nested_xy) = Obj props' /\
    map fst props' = map fst nested_xy /\
    (forall k,
        lookup k props' =
        if typeof (lookup k nested_xy) =? "object"
        then json (lookup k nested_xy) else lookup k nested_xy) /\
    settled (Obj (stringified_props nested_xy)).
Proof.
  apply (normalizeParams_leaves_text
           nested_xy (Obj (stringified_props nested_xy))
           "a=%7B%22x%22%3A1%2C%22y%22%3A2%7D").
  - distinct_keys.
  - vm_compute. reflexivity.
Defined.

Lemma requestKey_is_uint32_witness : (0 <= 3901600212 < 2 ^ 32)%Z.
Proof.
  apply (requestKey_is_uint32
           (Obj [("url", Str "http://a/users/7"); ("method", Str "GET")])
           (Obj [("url", Str "http://a/users/7"); ("method", Str "GET")])
           3901600212).
  vm_compute. reflexivity.
Defined.

Lemma requestKey_reads_four_fields_witness :
  (dk <- requestKey (Obj [("schema", userSchema);
                          ("url", Str "http://a/users")]) ;; Ok (snd dk)) =
  (dk <- requestKey (Obj [("url", Str "http://a/users");
                          ("schema", usersSchema);
                          ("auto", Bool false)]) ;; Ok (snd dk)).
Proof.
  apply (requestKey_reads_four_fields
           [("schema", userSchema); ("url", Str "http://a/users")]
           [("url", Str "http://a/users"); ("schema", usersSchema);
            ("auto", Bool false)]); reflexivity.
Defined.

Lemma fullUrl_url_argument_witness :
  fullUrl normalize_url.normalizeUrl (Str ("http://a/users" ++ "/")) Undefined =
  fullUrl normalize_url.normalizeUrl (Str "http://a/users") Undefined /\
  fullUrl normalize_url.normalizeUrl (Num 7) Undefined = Throw TypeError.
Proof.
  destruct (fullUrl_url_argument normalize_url.normalizeUrl "http://a/users"
                                 (Num 7) Undefined) as [H1 H2].
  split; [exact H1|apply H2; reflexivity].
Defined.

Lemma merged_precedence_witness :
  get (merged (Obj extending)) "url" = Str "http://a/users/7" /\
  get (merged (Obj extending)) "method" = Str "PATCH" /\
  get (merged (Obj extending)) "clientOnly" = Bool false.
Proof.
  assert (NoDup (map fst extending)) as H1 by distinct_keys.
  assert (NoDup (map fst [("url", Str "http://a/users");
                          ("method", Str "PATCH"); ("schema", userSchema)]))
    as H2 by distinct_keys.
  split; [|split].
  - rewrite (merged_precedence extending _ "url" H1 H2 (or_introl eq_refl)).
    reflexivity.
  - rewrite (merged_precedence extending _ "method" H1 H2 (or_introl eq_refl)).
    reflexivity.
  - rewrite (merged_precedence extending _ "clientOnly" H1 H2
                               (or_introl eq_refl)).
    reflexivity.
Defined.

Lemma normalized_isArray_defaultValue_witness :
  get normalized_user_seven "isArray" =
    Bool (negb (truthy (get (get (merged (Obj user_seven)) "schema")
                                "getKey"))) /\
  get normalized_user_seven "defaultValue" =
    match get (merged (Obj user_seven)) "defaultValue" with
    | Undefined =>
        if truthy (get (get (merged (Obj user_seven)) "schema")
                           "getKey")
        then Obj [] else Arr []
    | v => v
    end.
Proof.
  apply (normalized_isArray_defaultValue normalize_url.normalizeUrl
                                         (Obj user_seven)).
  vm_compute. reflexivity.
Defined.

Lemma normalized_keeps_fields_witness :
  normalizeResourceDefinition normalize_url.normalizeUrl (Obj user_seven)
  = Ok normalized_user_seven /\
  get normalized_user_seven "clientOnly" =
  get (merged (Obj user_seven)) "clientOnly" /\
  get normalized_user_seven "extends" =
  get (merged (Obj user_seven)) "extends".
Proof.
  assert (normalizeResourceDefinition normalize_url.normalizeUrl
            (Obj user_seven) = Ok normalized_user_seven) as H
      by (vm_compute; reflexivity).
  split; [exact H|].
  destruct (normalized_keeps_fields normalize_url.normalizeUrl
              (Obj user_seven) normalized_user_seven "clientOnly" H)
    as [Hk He].
  split.
  - apply Hk. cbn [In]. intuition discriminate.
  - apply He; reflexivity.
Defined.

(** A definition that takes its [headers] from [extends]: the object is
    the one [normalizeParams] writes into, and what it wrote shows
    under [extends] as well. *)
Lemma normalized_extends_rewritten :
  exists n,
    normalizeResourceDefinition normalize_url.normalizeUrl (Obj inheriting)
    = Ok n /\
    get (get (merged (Obj inheriting)) "extends") "headers" =
      Obj [("accept", Arr [Str "json"])] /\
    get (get n "extends") "headers" =
      Obj [("accept", json (Arr [Str "json"]))] /\
    get n "headers" = Obj [("accept", json (Arr [Str "json"]))] /\
    is_string (json (Arr [Str "json"])) = true.
Proof.
  eexists. split; [vm_compute; reflexivity|]. repeat split.
Qed.

Lemma normalized_objects_are_text_witness :
  exists n,
    normalizeResourceDefinition normalize_url.normalizeUrl (Obj post_nested)
    = Ok n /\
    get n "body" =
    Obj (stringified_props [("user", Obj [("name", Str "Al")])]).
Proof.
  eexists. split; [vm_compute; reflexivity|].
  apply (normalized_objects_are_text normalize_url.normalizeUrl
                                     (Obj post_nested)).
  - vm_compute. reflexivity.
  - cbn [In]. tauto.
  - reflexivity.
  - distinct_keys.
Defined.

Lemma normalized_key_is_stable_witness :
  exists key,
    get normalized_user_seven "requestKey" = Num key /\
    requestKey normalized_user_seven = Ok (normalized_user_seven, key).
Proof.
  apply (normalized_key_is_stable normalize_url.normalizeUrl (Obj user_seven)).
  vm_compute. reflexivity.
Defined.

Lemma resolver_hit_value_witness :
  let state :=
    user_state (Num 7) fresh_meta (Arr [Num 1; Num 9])
               (Obj [("1", Str "A")]) in
  let definition := user_definition usersSchema true (Arr []) (Num 7) in
  List.length [Str "A"; Undefined] = List.length [Num 1; Num 9] /\
  findInState state definition =
  Ok (Obj [("meta", fresh_meta); ("value", Arr [Str "A"; Undefined])]).
Proof.
  intros state definition.
  apply (resolver_hit_value state definition "user" [Num 1; Num 9]);
    reflexivity.
Defined.

Lemma resolver_ignores_defaultValue_witness :
  let state :=
    user_state (Num 7) fresh_meta (Arr []) (Obj [("1", Str "A")]) in
  findInState state
    (Obj (set "defaultValue" (Str "none")
              [("schema", userSchema); ("isArray", Bool false);
               ("defaultValue", Obj []); ("requestKey", Num 7)])) =
  findInState state
    (Obj [("schema", userSchema); ("isArray", Bool false);
          ("defaultValue", Obj []); ("requestKey", Num 7)]).
Proof.
  intros state.
  apply (resolver_ignores_defaultValue state _ "user"); reflexivity.
Defined.

Lemma normalized_definition_misses_witness :
  findInState empty_state normalized_user_seven = Ok (Bool false).
Proof.
  apply (normalized_definition_misses normalize_url.normalizeUrl
                                      (Obj user_seven) _ _ "user");
    [vm_compute; reflexivity|left; reflexivity|reflexivity..].
Defined.

Lemma string_schema_is_not_resolved_witness :
  exists n,
    normalizeResourceDefinition normalize_url.normalizeUrl (Obj string_schema)
    = Ok n /\
    get n "isArray" = Bool true /\
    findInState empty_state n = Throw TypeError.
Proof.
  eexists. split; [vm_compute; reflexivity|].
  apply (string_schema_is_not_resolved normalize_url.normalizeUrl
                                       (Obj string_schema) _ empty_state "user").
  - vm_compute. reflexivity.
  - reflexivity.
Defined.

(** *** Further edge cases *)

(** The url [fullUrl] derives does not depend on the order of the keys
    of [params]. *)
Theorem fullUrl_params_order (nu : string -> result string) (url : value)
        (params params' : list (string * value)) :
  NoDup (map fst params) -> Permutation params params' ->
  derived_url_of nu url (Obj params') = derived_url_of nu url (Obj params).
Proof.
  intros Hnd Hp.
  assert (NoDup (map fst params')) as Hnd'.
  { eapply Permutation_NoDup; [|exact Hnd]. now apply Permutation_map. }
  unfold derived_url_of, fullUrl. destruct url; try reflexivity.
  cbn [truthy]. rewrite !normalizeParams_obj by assumption.
  cbn [bind fst snd]. unfold canonical_string.
  rewrite (canonical_Permutation params params' Hnd Hp).
  now destruct (nu _).
Qed.

(** A ledger entry that records a single id instead of a list makes the
    resolver raise a [TypeError] as soon as the store has a bucket for
    the entity type: the id has no [map]. *)
Theorem resolver_single_id
        (state resourceDefinition : value) (key : string) (id : Z) :
  is_object state = true ->
  is_object (get state "connect") = true ->
  object_or_absent (get (get state "connect") "paramsToResources")
  = true ->
  object_or_absent (get (get state "connect") "resources") = true ->
  schemaKey resourceDefinition = Ok (Str key) ->
  is_object (entry_of state resourceDefinition) = true ->
  is_object (get (entry_of state resourceDefinition) "data") = true ->
  recorded state resourceDefinition key = Num id ->
  id <> 0%Z ->
  nullish (meta_of state resourceDefinition) = false ->
  truthy (get (meta_of state resourceDefinition) "didInvalidate") = false ->
  truthy (get (entities state) key) = true ->
  findInState state resourceDefinition = Throw TypeError.
Proof.
  intros H1 H2 H3 H4 Hkey He Hdata Hrec Hid Hmeta Hvalid Hbucket.
  pose proof (schemaKey_defined _ _ Hkey) as Hrd.
  unfold findInState.
  rewrite (member_defined state) by now apply is_object_defined.
  cbn [bind].
  rewrite !(member_defined (get state "connect"))
    by now apply is_object_defined.
  cbn [bind]. rewrite !(member_defined resourceDefinition) by assumption.
  cbn [bind]. rewrite Hkey. cbn [bind to_string].
  fold (or_empty (get (get state "connect") "paramsToResources")).
  fold (or_empty (get (get state "connect") "resources")).
  fold (ledger state). fold (entities state).
  assert (nullish (ledger state) = false) as Hl.
  { unfold ledger.
    now destruct (get (get state "connect") "paramsToResources"). }
  assert (nullish (entities state) = false) as Hen.
  { unfold entities.
    now destruct (get (get state "connect") "resources"). }
  rewrite !(member_defined (ledger state)) by assumption.
  fold (entry_of state resourceDefinition). cbn [bind].
  unfold recorded, meta_of in *.
  destruct (entry_of state resourceDefinition) as [| | | | | |eprops| | |];
    try discriminate.
  cbn [truthy bind]. rewrite (member_defined (Obj eprops)) by reflexivity.
  cbn [bind]. rewrite member_defined by now apply is_object_defined.
  cbn [bind]. rewrite Hrec. cbn [truthy].
  destruct (Z.eqb_spec id 0) as [|_]; [contradiction|]. cbn [negb bind].
  rewrite (member_defined (Obj eprops)) by reflexivity. cbn [bind].
  rewrite member_defined by assumption. cbn [bind]. rewrite Hvalid.
  rewrite (member_defined (entities state)) by assumption. cbn [bind].
  now rewrite Hbucket.
Qed.

Lemma fullUrl_params_order_witness :
  derived_url_of normalize_url.normalizeUrl (Str "http://a/users")
                 (Obj accept_last) =
  derived_url_of normalize_url.normalizeUrl (Str "http://a/users")
                 (Obj accept_first).
Proof.
  apply (fullUrl_params_order normalize_url.normalizeUrl
                              (Str "http://a/users") accept_first accept_last).
  - distinct_keys.
  - apply perm_swap.
Defined.

Lemma resolver_single_id_witness :
  findInState
    (user_state (Num 7) fresh_meta (Num 1) (Obj [("1", Str "A")]))
    (user_definition userSchema false (Obj []) (Num 7)) = Throw TypeError.
Proof.
  apply (resolver_single_id _ _ "user" 1); try reflexivity. discriminate.
Defined.

Lemma normalizeParams_throws_iff_witness :
  normalizeParams Null = Throw TypeError.
Proof.
  apply (normalizeParams_throws_iff Null TypeError). split; reflexivity.
Defined.

(* ================================================================== *)
(** ** [extendFunction] *)

Section ExtendFunctionProperties.

Variable World : Type.

Lemma extendFunction_app (fs gs : list (listener World))
      (args : list value) (world : World) :
  extendFunction (fs ++ gs) args world =
  match extendFunction fs args world with
  | (world', None) => extendFunction gs args world'
  | thrown => thrown
  end.
Proof.
  unfold extendFunction. revert world.
  induction fs as [|[call|v] fs IH]; intros world; cbn [app call_each]; auto.
  destruct (call args world) as [world' [e|]]; auto.
Qed.

(** The function [extendFunction] returns can be extended in turn:
    extending [extendFunction(f1, ..., fn)] with [g1, ..., gm] calls
    what [extendFunction(f1, ..., fn, g1, ..., gm)] calls, in the same
    order, and stops at the same throw. *)
Theorem extendFunction_nested (fs gs : list (listener World))
        (args : list value) (world : World) :
  extendFunction (Function (extendFunction fs) :: gs) args world =
  extendFunction (fs ++ gs) args world.
Proof.
  rewrite extendFunction_app. unfold extendFunction at 1.
  cbn [call_each]. now destruct (extendFunction fs args world) as [w [e|]].
Qed.

(** Arguments that are not functions are passed over. *)
Theorem extendFunction_skips_other_values (fs : list (listener World))
        (args : list value) (world : World) :
  extendFunction (filter is_function fs) args world =
  extendFunction fs args world.
Proof.
  unfold extendFunction. revert world.
  induction fs as [|[call|v] fs IH]; intros world;
    cbn [filter is_function call_each]; auto.
  destruct (call args world) as [world' [e|]]; auto.
Qed.

End ExtendFunctionProperties.
